(** * BlockBuffer (c++/src/BlockBuffer.cc) and ZeroCopyShims (java shims)

    A shallow embedding of the block buffer of the ORC C++ writer and of the
    zero-copy read adapter of the Java shims, with the properties of the
    specification proved about them.

    Unsigned 64-bit integers are [Z] with the wrap-around written out
    ([wrap64]); raw memory is a finite map from allocation bases to byte
    lists; the memory pool, the output stream and the metrics counter are
    explicit components of the machine state. *)

From stdpp Require Import base numbers option list gmap.
From Stdlib Require Import ZArith Lia.

Local Open Scope Z_scope.

(** ** Machine integers *)

Definition U64 : Z := 2 ^ 64.

Definition wrap64 (z : Z) : Z := z mod U64.

Definition add64 (a b : Z) : Z := wrap64 (a + b).
Definition sub64 (a b : Z) : Z := wrap64 (a - b).
Definition mul64 (a b : Z) : Z := wrap64 (a * b).

(** [static uint64_t MAX_CHUNK_SIZE = 1024 * 1024 * 1024;] *)
Definition MAX_CHUNK_SIZE : Z := 1024 * 1024 * 1024.

(** ** Raw memory *)

(** A [char*]: null, or an offset into the allocation that starts at [base]. *)
Inductive ptr : Type :=
  | Null : ptr
  | Ptr (base : nat) (off : Z) : ptr.

#[global] Instance ptr_eq_dec : EqDecision ptr.
Proof. solve_decision. Defined.

(** Pointer arithmetic [p + k]. *)
Definition ptr_add (p : ptr) (k : Z) : ptr :=
  match p with
  | Null => Null
  | Ptr a o => Ptr a (o + k)
  end.

Definition is_null (p : ptr) : bool :=
  match p with Null => true | Ptr _ _ => false end.

(** [splice o d l]: the bytes of [l] with [d] stored from offset [o] on. *)
Definition splice (o : nat) (d l : list Byte.byte) : list Byte.byte :=
  take o l ++ d ++ drop (o + length d) l.

(** Reading [n] bytes at [p]; [None] when the access is not inside a live
    allocation (null pointer, freed base, out of bounds). *)
Definition load (h : gmap nat (list Byte.byte)) (p : ptr) (n : Z)
  : option (list Byte.byte) :=
  match p with
  | Null => None
  | Ptr a o =>
      match h !! a with
      | None => None
      | Some bytes =>
          if bool_decide (0 <= o ∧ 0 <= n ∧ o + n <= Z.of_nat (length bytes))
          then Some (take (Z.to_nat n) (drop (Z.to_nat o) bytes))
          else None
      end
  end.

(** Storing the bytes [d] at [p]; [None] when the access is invalid. *)
Definition store (h : gmap nat (list Byte.byte)) (p : ptr) (d : list Byte.byte)
  : option (gmap nat (list Byte.byte)) :=
  match p with
  | Null => None
  | Ptr a o =>
      match h !! a with
      | None => None
      | Some bytes =>
          if bool_decide (0 <= o ∧ o + Z.of_nat (length d) <= Z.of_nat (length bytes))
          then Some (<[a := splice (Z.to_nat o) d bytes]> h)
          else None
      end
  end.

(** [memcpy(dst, src, n)]. *)
Definition memcpy (h : gmap nat (list Byte.byte)) (dst src : ptr) (n : Z)
  : option (gmap nat (list Byte.byte)) :=
  match load h src n with
  | None => None
  | Some bytes => store h dst bytes
  end.

(** ** The memory pool *)

(** Modelled from the spec: the pool allocator (orc::MemoryPool, declared in
    orc/MemoryPool.hh, not part of the sources at hand). Its contract is
    [allocate(size) -> address-or-null], never raising, and
    [release(address)], undefined when the address is not a live allocation.
    A pool carries the replies it will give to the requests still to come:
    [None] is a null result, [Some junk] a fresh allocation whose
    uninitialised bytes are [junk 0], [junk 1], ...  No pool can serve
    requests without end, so once the replies are used up every request
    returns null. *)
Record Pool : Type := mkPool {
  replies : list (option (nat → Byte.byte));
  next_base : nat;
  heap : gmap nat (list Byte.byte)
}.

Definition fresh_bytes (junk : nat → Byte.byte) (size : Z) : list Byte.byte :=
  map junk (seq 0 (Z.to_nat size)).

Definition pool_reply (r : option (nat → Byte.byte)) (rest : list (option (nat → Byte.byte)))
    (m : Pool) (size : Z) : ptr * Pool :=
  match r with
  | None => (Null, mkPool rest (next_base m) (heap m))
  | Some junk =>
      (Ptr (next_base m) 0,
       mkPool rest (S (next_base m))
              (<[next_base m := fresh_bytes junk size]> (heap m)))
  end.

Definition pool_malloc (m : Pool) (size : Z) : ptr * Pool :=
  match replies m with
  | [] => (Null, m)
  | r :: rest => pool_reply r rest m size
  end.

(** [release]: [None] stands for the undefined behaviour of releasing an
    address that is not the start of a live allocation. *)
Definition pool_free (m : Pool) (p : ptr) : option Pool :=
  match p with
  | Null => Some m
  | Ptr a 0 =>
      match heap m !! a with
      | Some _ => Some (mkPool (replies m) (next_base m) (delete a (heap m)))
      | None => None
      end
  | _ => None
  end.

Definition set_heap (h : gmap nat (list Byte.byte)) (m : Pool) : Pool :=
  mkPool (replies m) (next_base m) h.

(** ** The block buffer *)

(** [struct Block { char* data; uint64_t size; }] *)
Record Block : Type := mkBlock {
  data : ptr;
  size : Z
}.

Record BlockBuffer : Type := mkBuffer {
  blocks_ : list ptr;
  currentSize_ : Z;
  currentCapacity_ : Z;
  blockSize_ : Z
}.

Inductive exn : Type :=
  | LogicError      (* std::logic_error *)
  | OutOfRange      (* std::out_of_range *)
  | IOError.        (* raised by OutputStream::write *)

(** The result of a call: a value, a C++ exception, undefined behaviour
    ([Fault]), or a loop that was not given enough steps. *)
Inductive outcome (A : Type) : Type :=
  | Ok (a : A)
  | Throw (e : exn)
  | Fault
  | OutOfFuel.

Arguments Ok {A} a.
Arguments Throw {A} e.
Arguments Fault {A}.
Arguments OutOfFuel {A}.

Definition set_size (n : Z) (b : BlockBuffer) : BlockBuffer :=
  mkBuffer (blocks_ b) n (currentCapacity_ b) (blockSize_ b).

Definition push_block (p : ptr) (b : BlockBuffer) : BlockBuffer :=
  mkBuffer (blocks_ b ++ [p]) (currentSize_ b)
           (add64 (currentCapacity_ b) (blockSize_ b)) (blockSize_ b).

(** [BlockBuffer::reserve]: the [while] loop, by recursion on the replies the
    pool still holds (each iteration issues one request). *)
Fixpoint reserve_loop (rs : list (option (nat → Byte.byte)))
    (b : BlockBuffer) (m : Pool) (newCapacity : Z) : BlockBuffer * Pool :=
  if currentCapacity_ b <? newCapacity then
    match rs with
    | [] => (b, m)
    | r :: rest =>
        let '(newBlockPtr, m') := pool_reply r rest m (blockSize_ b) in
        if is_null newBlockPtr then (b, m')
        else reserve_loop rest (push_block newBlockPtr b) m' newCapacity
    end
  else (b, m).

Definition reserve (b : BlockBuffer) (m : Pool) (newCapacity : Z)
  : outcome unit * (BlockBuffer * Pool) :=
  (Ok tt, reserve_loop (replies m) b m newCapacity).

(** [BlockBuffer::resize] *)
Definition resize (b : BlockBuffer) (m : Pool) (size : Z)
  : outcome unit * (BlockBuffer * Pool) :=
  match reserve b m size with
  | (Ok _, (b', m')) =>
      if size <=? currentCapacity_ b' then (Ok tt, (set_size size b', m'))
      else (Throw LogicError, (b', m'))
  | (o, s) => (o, s)
  end.

(** [BlockBuffer::BlockBuffer] *)
Definition construct (m : Pool) (blockSize : Z)
  : outcome unit * (BlockBuffer * Pool) :=
  let b := mkBuffer [] 0 0 blockSize in
  if blockSize =? 0 then (Throw LogicError, (b, m))
  else reserve b m blockSize.

(** Modelled from the spec: [getBlockNumber] (defined in BlockBuffer.hh, not
    part of the sources at hand): the number of logical blocks currently
    holding data, [ceil(usedSize / blockSize)], 0 when [usedSize] is 0. *)
Definition getBlockNumber (b : BlockBuffer) : Z :=
  if currentSize_ b mod blockSize_ b =? 0
  then currentSize_ b / blockSize_ b
  else currentSize_ b / blockSize_ b + 1.

(** [blocks_[i]]: an unchecked vector access. *)
Definition block_at (b : BlockBuffer) (i : Z) : option ptr :=
  if i <? 0 then None else blocks_ b !! Z.to_nat i.

(** [BlockBuffer::getBlock] *)
Definition getBlock (b : BlockBuffer) (blockIndex : Z) : outcome Block :=
  if getBlockNumber b <=? blockIndex then Throw OutOfRange
  else
    match block_at b blockIndex with
    | None => Fault
    | Some p =>
        Ok (mkBlock p (Z.min (sub64 (currentSize_ b) (mul64 blockIndex (blockSize_ b)))
                             (blockSize_ b)))
    end.

(** [BlockBuffer::getNextBlock] *)
Definition getNextBlock (b : BlockBuffer) (m : Pool)
  : outcome Block * (BlockBuffer * Pool) :=
  if currentSize_ b <? currentCapacity_ b then
    match block_at b (currentSize_ b / blockSize_ b) with
    | None => (Fault, (b, m))
    | Some p =>
        let emptyBlock :=
          mkBlock (ptr_add p (currentSize_ b mod blockSize_ b))
                  (sub64 (blockSize_ b) (currentSize_ b mod blockSize_ b)) in
        (Ok emptyBlock,
         (set_size (mul64 (add64 (currentSize_ b / blockSize_ b) 1) (blockSize_ b)) b, m))
    end
  else
    match resize b m (add64 (currentSize_ b) (blockSize_ b)) with
    | (Ok _, (b', m')) =>
        match last (blocks_ b') with
        | None => (Fault, (b', m'))
        | Some p => (Ok (mkBlock p (blockSize_ b')), (b', m'))
        end
    | (Throw e, s) => (Throw e, s)
    | (Fault, s) => (Fault, s)
    | (OutOfFuel, s) => (OutOfFuel, s)
    end.

(** ** The output stream and the metrics counter *)

(** Modelled from the spec: the output sink (orc::OutputStream, declared in
    orc/OrcFile.hh, not part of the sources at hand): [write(bytes, length)],
    which fails by raising on an I/O error, and [getNaturalWriteSize()].
    The sink records every byte range it receives, in order; [accepts] is
    the number of further writes it takes before one fails ([None]: the
    sink never fails). *)
Record Sink : Type := mkSink {
  naturalWriteSize : Z;
  written : list (list Byte.byte);
  accepts : option nat
}.

(** The state a flush runs in: the pool, the sink, and the [IOCount] of the
    [WriterMetrics] passed in ([None] when [metrics] is [nullptr]). *)
Record World : Type := mkWorld {
  pool : Pool;
  sink : Sink;
  metrics : option Z
}.

(** Computations over the world that return, throw or fault. *)
Definition M (A : Type) : Type := World → outcome A * World.

#[global] Instance M_ret : MRet M := λ A a w, (Ok a, w).

#[global] Instance M_bind : MBind M := λ A B f c w,
  match c w with
  | (Ok a, w') => f a w'
  | (Throw e, w') => (Throw e, w')
  | (Fault, w') => (Fault, w')
  | (OutOfFuel, w') => (OutOfFuel, w')
  end.

Definition throw {A : Type} (e : exn) : M A := λ w, (Throw e, w).

Definition lift {A : Type} (o : outcome A) : M A := λ w, (o, w).

Definition malloc (size : Z) : M ptr := λ w,
  let '(p, m') := pool_malloc (pool w) size in
  (Ok p, mkWorld m' (sink w) (metrics w)).

Definition free (p : ptr) : M unit := λ w,
  match pool_free (pool w) p with
  | None => (Fault, w)
  | Some m' => (Ok tt, mkWorld m' (sink w) (metrics w))
  end.

Definition do_memcpy (dst src : ptr) (n : Z) : M unit := λ w,
  match memcpy (heap (pool w)) dst src n with
  | None => (Fault, w)
  | Some h' => (Ok tt, mkWorld (set_heap h' (pool w)) (sink w) (metrics w))
  end.

(** [output->write(p, n)] *)
Definition output_write (p : ptr) (n : Z) : M unit := λ w,
  match load (heap (pool w)) p n with
  | None => (Fault, w)
  | Some bytes =>
      match accepts (sink w) with
      | Some O => (Throw IOError, w)
      | Some (S k) =>
          (Ok tt, mkWorld (pool w)
                    (mkSink (naturalWriteSize (sink w)) (written (sink w) ++ [bytes]) (Some k))
                    (metrics w))
      | None =>
          (Ok tt, mkWorld (pool w)
                    (mkSink (naturalWriteSize (sink w)) (written (sink w) ++ [bytes]) None)
                    (metrics w))
      end
  end.

Definition getNaturalWriteSize : M Z := λ w, (Ok (naturalWriteSize (sink w)), w).

(** [if (metrics != nullptr) metrics->IOCount.fetch_add(ioCount);] *)
Definition add_IOCount (ioCount : Z) : M unit := λ w,
  match metrics w with
  | None => (Ok tt, w)
  | Some c => (Ok tt, mkWorld (pool w) (sink w) (Some (add64 c ioCount)))
  end.

(** The inner [while (blockOffset < block.size)] loop of [writeTo]; it
    returns the scratch offset and the operation count it ends with. *)
Fixpoint copy_block (fuel : nat) (chunk : ptr) (chunkSize : Z) (block : Block)
    (blockOffset chunkOffset ioCount : Z) : M (Z * Z) :=
  match fuel with
  | O => lift OutOfFuel
  | S fuel' =>
      if blockOffset <? size block then
        let copySize := Z.min (sub64 chunkSize chunkOffset)
                              (sub64 (size block) blockOffset) in
        _ ← do_memcpy (ptr_add chunk chunkOffset)
                      (ptr_add (data block) blockOffset) copySize;
        let chunkOffset := add64 chunkOffset copySize in
        let blockOffset := add64 blockOffset copySize in
        if chunkSize <=? chunkOffset then
          _ ← output_write chunk chunkSize;
          copy_block fuel' chunk chunkSize block blockOffset 0 (add64 ioCount 1)
        else
          copy_block fuel' chunk chunkSize block blockOffset chunkOffset ioCount
      else mret (chunkOffset, ioCount)
  end.

(** The [for (uint64_t i = 0; i < blockNumber; ++i)] loop, with [todo] the
    number of iterations still to run. Every iteration of the inner loop
    copies at least one byte, so a block of [size] bytes needs at most
    [size] iterations and the final test. *)
Fixpoint copy_blocks (todo : nat) (b : BlockBuffer) (chunk : ptr) (chunkSize : Z)
    (i chunkOffset ioCount : Z) : M (Z * Z) :=
  match todo with
  | O => mret (chunkOffset, ioCount)
  | S todo' =>
      block ← lift (getBlock b i);
      r ← copy_block (S (Z.to_nat (size block))) chunk chunkSize block 0 chunkOffset ioCount;
      copy_blocks todo' b chunk chunkSize (i + 1) (fst r) (snd r)
  end.

(** [BlockBuffer::writeTo] *)
Definition writeTo (b : BlockBuffer) : M unit :=
  if currentSize_ b =? 0 then mret tt
  else
    natural ← getNaturalWriteSize;
    let chunkSize := Z.min natural MAX_CHUNK_SIZE in
    if chunkSize =? 0 then throw LogicError
    else
      let blockNumber := getBlockNumber b in
      ioCount ←
        (if (blockNumber =? 1) && (currentSize_ b <=? chunkSize) then
           block ← lift (getBlock b 0);
           _ ← output_write (data block) (size block);
           mret (add64 0 1)
         else
           chunk ← malloc chunkSize;
           r ← copy_blocks (Z.to_nat blockNumber) b chunk chunkSize 0 0 0;
           ioCount ←
             (if fst r =? 0 then mret (snd r)
              else _ ← output_write chunk (fst r); mret (add64 (snd r) 1));
           _ ← free chunk;
           mret ioCount);
      add_IOCount ioCount.

(** [BlockBuffer::writeTo] with the call [output->getNaturalWriteSize()]
    left open: [ask] is what that call does when it is reached (it may
    return any size, raise, or not return). With [getNaturalWriteSize] for
    [ask] this is [writeTo]. *)
Definition writeTo_asking (ask : M Z) (b : BlockBuffer) : M unit :=
  if currentSize_ b =? 0 then mret tt
  else
    natural ← ask;
    let chunkSize := Z.min natural MAX_CHUNK_SIZE in
    if chunkSize =? 0 then throw LogicError
    else
      let blockNumber := getBlockNumber b in
      ioCount ←
        (if (blockNumber =? 1) && (currentSize_ b <=? chunkSize) then
           block ← lift (getBlock b 0);
           _ ← output_write (data block) (size block);
           mret (add64 0 1)
         else
           chunk ← malloc chunkSize;
           r ← copy_blocks (Z.to_nat blockNumber) b chunk chunkSize 0 0 0;
           ioCount ←
             (if fst r =? 0 then mret (snd r)
              else _ ← output_write chunk (fst r); mret (add64 (snd r) 1));
           _ ← free chunk;
           mret ioCount);
      add_IOCount ioCount.

(** ** The producer *)

(** A producer acquires a region with [getNextBlock] and stores its bytes at
    the start of the region; writing past the end of the region is undefined
    behaviour. *)
Definition acquire_fill (d : list Byte.byte) (s : BlockBuffer * Pool)
  : outcome Block * (BlockBuffer * Pool) :=
  match getNextBlock (fst s) (snd s) with
  | (Ok v, (b', m')) =>
      if Z.of_nat (length d) <=? size v then
        match store (heap m') (data v) d with
        | None => (Fault, (b', m'))
        | Some h' => (Ok v, (b', set_heap h' m'))
        end
      else (Fault, (b', m'))
  | r => r
  end.

(** A run of the producer: one acquisition per element of [ds]; the regions
    are returned in acquisition order. *)
Fixpoint produce (ds : list (list Byte.byte)) (s : BlockBuffer * Pool)
  : outcome (list Block) * (BlockBuffer * Pool) :=
  match ds with
  | [] => (Ok [], s)
  | d :: ds' =>
      match acquire_fill d s with
      | (Ok v, s') =>
          match produce ds' s' with
          | (Ok vs, s'') => (Ok (v :: vs), s'')
          | r => r
          end
      | (Throw e, s') => (Throw e, s')
      | (Fault, s') => (Fault, s')
      | (OutOfFuel, s') => (OutOfFuel, s')
      end
  end.

(** Construction followed by a run of the producer. *)
Definition construct_produce (m : Pool) (blockSize : Z) (ds : list (list Byte.byte))
  : outcome (list Block) * (BlockBuffer * Pool) :=
  match construct m blockSize with
  | (Ok _, s) => produce ds s
  | (Throw e, s) => (Throw e, s)
  | (Fault, s) => (Fault, s)
  | (OutOfFuel, s) => (OutOfFuel, s)
  end.

(** ** Well-formed states *)

(** The representation invariant of a buffer over its pool: the capacity is
    the number of owned blocks times the block size and fits 64 bits, the used
    size is within the capacity, every owned block is a distinct live
    allocation of [blockSize_] bytes, and the bases the pool has not handed
    out yet are not in the heap. *)
Record wf (b : BlockBuffer) (m : Pool) : Prop := mkWf {
  wf_blockSize : 0 < blockSize_ b < U64;
  wf_capacity : currentCapacity_ b = Z.of_nat (length (blocks_ b)) * blockSize_ b;
  wf_capacity64 : currentCapacity_ b < U64;
  wf_size : 0 <= currentSize_ b <= currentCapacity_ b;
  wf_blocks : ∀ (i : nat) p, blocks_ b !! i = Some p →
      ∃ a bytes, p = Ptr a 0 ∧ (a < next_base m)%nat ∧ heap m !! a = Some bytes ∧
                 Z.of_nat (length bytes) = blockSize_ b;
  wf_nodup : NoDup (blocks_ b);
  wf_fresh : ∀ a, (next_base m <= a)%nat → heap m !! a = None
}.

(** The bases a pool has not handed out yet are unused. *)
Definition pool_wf (m : Pool) : Prop :=
  ∀ a, (next_base m <= a)%nat → heap m !! a = None.

(** The bytes of the allocation a block pointer starts. *)
Definition block_bytes (h : gmap nat (list Byte.byte)) (p : ptr) : list Byte.byte :=
  match p with
  | Null => []
  | Ptr a _ => default [] (h !! a)
  end.

(** The logically used prefix of a buffer: its first [currentSize_] bytes. *)
Definition contents (b : BlockBuffer) (h : gmap nat (list Byte.byte)) : list Byte.byte :=
  take (Z.to_nat (currentSize_ b)) (concat (map (block_bytes h) (blocks_ b))).

(** [ceil(a / b)] *)
Definition ceil_div (a b : Z) : Z := (a + b - 1) / b.

(** The sizes of the writes that deliver [total] bytes in chunks of [n]. *)
Definition chunk_sizes (n total : Z) : list Z :=
  repeat n (Z.to_nat (total / n)) ++ (if total mod n =? 0 then [] else [total mod n]).

(** [m] is the smallest multiple of [b] that is at least [L]. *)
Definition least_multiple_ge (b L m : Z) : Prop :=
  (b | m) ∧ L <= m ∧ ∀ m', (b | m') → L <= m' → m <= m'.

(** The pool serves its next [n] requests. *)
Definition serves (n : nat) (m : Pool) : Prop :=
  ∃ js rest, replies m = map Some js ++ rest ∧ length js = n.

(** The flush takes the single-write path. *)
Definition fast_path (b : BlockBuffer) (chunkSize : Z) : bool :=
  (getBlockNumber b =? 1) && (currentSize_ b <=? chunkSize).

(** The writes a sink still accepts after [k] accepted writes, [acc] being
    what it accepts now and [acc0] what it accepted at first. *)
Definition sink_budget (acc0 acc : option nat) (k : nat) : Prop :=
  match acc0, acc with
  | None, None => True
  | Some a0, Some a => a0 = (k + a)%nat
  | _, _ => False
  end.

(** The state of the scratch copy of [writeTo] after the bytes [done] of the
    buffer have been consumed: the scratch chunk at base [c] holds the bytes
    not yet written in its first [o] positions, every write issued so far
    carried a full chunk of [n] bytes, the writes followed by the pending
    bytes are exactly [done], and nothing but the chunk and the sink's record
    has changed since the world [w0] in which the copy started. *)
Definition staged (c : nat) (n : Z) (w0 w : World) (done : list Byte.byte)
    (o io : Z) : Prop :=
  ∃ cb ws,
    heap (pool w) !! c = Some cb ∧ Z.of_nat (length cb) = n ∧
    (∀ a, a ≠ c → heap (pool w) !! a = heap (pool w0) !! a) ∧
    replies (pool w) = replies (pool w0) ∧
    next_base (pool w) = next_base (pool w0) ∧
    naturalWriteSize (sink w) = naturalWriteSize (sink w0) ∧
    sink_budget (accepts (sink w0)) (accepts (sink w)) (length ws) ∧
    metrics w = metrics w0 ∧
    written (sink w) = written (sink w0) ++ ws ∧
    Forall (λ x, Z.of_nat (length x) = n) ws ∧
    concat ws ++ take (Z.to_nat o) cb = done ∧
    0 <= o < n ∧ io = Z.of_nat (length ws).

(** The state in which a write of the scratch copy raised: the sink has
    taken every write it accepted, and the scratch chunk at base [c] is still
    allocated. *)
Definition stalled (c : nat) (w0 w : World) : Prop :=
  ∃ cb ws,
    heap (pool w) !! c = Some cb ∧
    (∀ a, a ≠ c → heap (pool w) !! a = heap (pool w0) !! a) ∧
    replies (pool w) = replies (pool w0) ∧
    next_base (pool w) = next_base (pool w0) ∧
    metrics w = metrics w0 ∧
    written (sink w) = written (sink w0) ++ ws ∧
    accepts (sink w0) = Some (length ws).

(** What a completed flush of buffer [b] leaves behind, from world [w] to
    world [w'], with [ws] the byte ranges the sink received and [n] the chunk
    size in force. *)
Record flushed (b : BlockBuffer) (n : Z) (w w' : World) (ws : list (list Byte.byte))
  : Prop := mkFlushed {
  fl_written : written (sink w') = written (sink w) ++ ws;
  fl_bytes : concat ws = contents b (heap (pool w));
  fl_sizes : map (λ x, Z.of_nat (length x)) ws = chunk_sizes n (currentSize_ b);
  fl_metrics : metrics w' =
    match metrics w with
    | None => None
    | Some count => Some (add64 count (Z.of_nat (length ws)))
    end;
  fl_heap : heap (pool w') = heap (pool w);
  fl_natural : naturalWriteSize (sink w') = naturalWriteSize (sink w)
}.

(** The bytes of the logical blocks before block [i]. *)
Definition taken (b : BlockBuffer) (h : gmap nat (list Byte.byte)) (i : Z) : list Byte.byte :=
  take (Z.to_nat (Z.min (i * blockSize_ b) (currentSize_ b)))
       (concat (map (block_bytes h) (blocks_ b))).

(** The total length of a list of regions. *)
Definition total_size (vs : list Block) : Z :=
  foldr (λ v acc, size v + acc) 0 vs.

(** The flush needs no scratch chunk, or the pool grants the request for it. *)
Definition scratch_granted (b : BlockBuffer) (chunkSize : Z) (m : Pool) : Prop :=
  currentSize_ b = 0 ∨ fast_path b chunkSize = true ∨
  ∃ junk rest, replies m = Some junk :: rest.

(** The pool returns null on its next request. *)
Definition refuses (m : Pool) : Prop :=
  replies m = [] ∨ ∃ rest, replies m = None :: rest.

(** What a call of [reserve] leaves behind. *)
Record reserved (b : BlockBuffer) (m : Pool) (n : Z) (b' : BlockBuffer) (m' : Pool)
    (js : list (nat → Byte.byte)) : Prop := mkReserved {
  rsv_blocks : blocks_ b' =
     blocks_ b ++ map (λ i, Ptr (next_base m + i) 0) (seq 0 (length js));
  rsv_capacity : currentCapacity_ b' = currentCapacity_ b + Z.of_nat (length js) * blockSize_ b;
  rsv_size : currentSize_ b' = currentSize_ b;
  rsv_blockSize : blockSize_ b' = blockSize_ b;
  rsv_next : next_base m' = (next_base m + length js)%nat;
  rsv_old : ∀ a, (a < next_base m)%nat → heap m' !! a = heap m !! a;
  rsv_new : ∀ (i : nat) j, js !! i = Some j →
      heap m' !! (next_base m + i)%nat = Some (fresh_bytes j (blockSize_ b));
  rsv_stop :
    (n <= currentCapacity_ b' ∧ (js = [] ∨ currentCapacity_ b' - blockSize_ b < n) ∧
       replies m = map Some js ++ replies m')
    ∨ (currentCapacity_ b' < n ∧
       (replies m = map Some js ∧ replies m' = []
        ∨ replies m = map Some js ++ None :: replies m'));
  rsv_wf : wf b' m'
}.

(** The requests of the loop never make the 64-bit capacity wrap: either the
    smallest multiple of the block size that reaches the target fits 64 bits,
    or the pool cannot supply enough blocks to reach the end of the address
    space. *)
Definition no_wrap (b : BlockBuffer) (m : Pool) (n : Z) : Prop :=
  ceil_div n (blockSize_ b) * blockSize_ b < U64 ∨
  currentCapacity_ b + Z.of_nat (length (replies m)) * blockSize_ b < U64.

(** The world in which the scratch copy starts: the pool has granted the
    chunk at its next base. *)
Definition scratch_world (w : World) (junk : nat → Byte.byte)
    (rest : list (option (nat → Byte.byte))) : World :=
  mkWorld (mkPool rest (S (next_base (pool w)))
             (<[next_base (pool w) :=
                  fresh_bytes junk (Z.min (naturalWriteSize (sink w)) MAX_CHUNK_SIZE)]>
                (heap (pool w))))
          (sink w) (metrics w).

(** ** The zero-copy read adapter (ZeroCopyShims.java) *)

Module ZeroCopy.

(** A [ByteBuffer] reference: [None] is [null], [Some i] the object of
    identity [i]. [readBuffers] is an [IdentityHashMap] whose values are all
    [null]: a finite set of references, compared by identity. *)
Abbreviation ByteBuffer := (option nat).

(** The calls the adapter makes on the underlying [FSDataInputStream]. *)
Inductive event : Type :=
  | Read (maxLength : Z) (skipChecksums : bool) (bb : ByteBuffer)
  | ReleaseBuffer (bb : ByteBuffer)
  | Close.

(** What [in.read(pool, maxLength, options)] does next. *)
Inductive read_result : Type :=
  | Returns (bb : ByteBuffer)
  | RaisesIOException.

(** Modelled from the spec: the host input stream (org.apache.hadoop.fs
    .FSDataInputStream, not part of the sources at hand) returns buffers
    read from the stream and takes them back through [releaseBuffer]. It is
    the record [calls] of what the adapter asked of it, and the results
    [pending] of the reads to come (null once they are used up); its
    [releaseBuffer] and [close] are taken to return normally. *)
Record ZeroCopyAdapter : Type := mkAdapter {
  readBuffers : gset (option nat);
  calls : list event;
  pending : list read_result
}.

(** [ZeroCopyAdapter.readBuffer] *)
Definition readBuffer (maxLength : Z) (verifyChecksums : bool) (s : ZeroCopyAdapter)
  : read_result * ZeroCopyAdapter :=
  let skipChecksums := if verifyChecksums then false else true in
  match pending s with
  | RaisesIOException :: rest =>
      (RaisesIOException, mkAdapter (readBuffers s) (calls s) rest)
  | Returns bb :: rest =>
      (Returns bb,
       mkAdapter ({[bb]} ∪ readBuffers s)
                 (calls s ++ [Read maxLength skipChecksums bb]) rest)
  | [] =>
      (Returns None,
       mkAdapter ({[None]} ∪ readBuffers s)
                 (calls s ++ [Read maxLength skipChecksums None]) [])
  end.

(** [ZeroCopyAdapter.releaseBuffer] (deprecated) *)
Definition releaseBuffer (buffer : ByteBuffer) (s : ZeroCopyAdapter) : ZeroCopyAdapter :=
  mkAdapter (readBuffers s) (calls s ++ [ReleaseBuffer buffer]) (pending s).

(** [ZeroCopyAdapter.releaseAllBuffers]: [forEach] visits every key of the
    map once, in the map's own order, then the map is cleared. *)
Definition releaseAllBuffers (s : ZeroCopyAdapter) : ZeroCopyAdapter :=
  mkAdapter ∅ (calls s ++ map ReleaseBuffer (elements (readBuffers s))) (pending s).

(** [ZeroCopyAdapter.close] *)
Definition close (s : ZeroCopyAdapter) : ZeroCopyAdapter :=
  let s' := releaseAllBuffers s in
  mkAdapter (readBuffers s') (calls s' ++ [Close]) (pending s').

(** The calls of a client on the adapter. *)
Inductive call : Type :=
  | CallReadBuffer (maxLength : Z) (verifyChecksums : bool)
  | CallReleaseBuffer (buffer : ByteBuffer)
  | CallReleaseAllBuffers
  | CallClose.

Definition step (s : ZeroCopyAdapter) (c : call) : ZeroCopyAdapter :=
  match c with
  | CallReadBuffer maxLength verifyChecksums => snd (readBuffer maxLength verifyChecksums s)
  | CallReleaseBuffer buffer => releaseBuffer buffer s
  | CallReleaseAllBuffers => releaseAllBuffers s
  | CallClose => close s
  end.

Definition run (cs : list call) (s : ZeroCopyAdapter) : ZeroCopyAdapter :=
  foldl step s cs.

(** Calls other than [releaseAllBuffers] and [close]. *)
Definition keeps (c : call) : Prop :=
  match c with
  | CallReadBuffer _ _ | CallReleaseBuffer _ => True
  | CallReleaseAllBuffers | CallClose => False
  end.

(** [getZeroCopyReader]: a fresh adapter over a stream. *)
Definition getZeroCopyReader (reads : list read_result) : ZeroCopyAdapter :=
  mkAdapter ∅ [] reads.

End ZeroCopy.

(** ** Sample states *)

(** A reply of the pool that grants zeroed memory, the pool that gives the
    replies [rs] from an empty heap, and the buffer of block size 64 built on
    a pool serving two requests, resized to 10 bytes. *)
Definition zeroed : option (nat → Byte.byte) := Some (λ _, Byte.x00).

Definition pool_of (rs : list (option (nat → Byte.byte))) : Pool := mkPool rs 0 ∅.

Definition sample_state : BlockBuffer * Pool :=
  let s := snd (construct (pool_of [zeroed; zeroed]) 64) in
  snd (resize (fst s) (snd s) 10).

(** The value of a call that returned, [dflt] otherwise. *)
Definition value_of {A : Type} (dflt : A) (o : outcome A) : A :=
  match o with Ok a => a | _ => dflt end.

(** A small round trip: block size 4, two regions filled with the bytes
    1..4 and 5..8, and a sink of natural write size 3. *)
Definition sample_data : list (list Byte.byte) :=
  [[Byte.x01; Byte.x02; Byte.x03; Byte.x04]; [Byte.x05; Byte.x06; Byte.x07; Byte.x08]].

Definition sample_run : outcome (list Block) * (BlockBuffer * Pool) :=
  construct_produce (pool_of [zeroed; zeroed; zeroed]) 4 sample_data.

(** Scenario B of the specification, run on the model: block size 64, three
    acquisitions each filled with 64 bytes, a sink of natural write size 100
    and a metrics counter at 0. *)
Definition scenarioB_state : BlockBuffer * Pool :=
  let d := repeat Byte.x2a 64 in
  snd (construct_produce (mkPool (repeat (Some (λ _, Byte.x00)) 4) 0 ∅) 64 [d; d; d]).

Definition scenarioB_world : World :=
  mkWorld (snd scenarioB_state) (mkSink 100 [] None) (Some 0).

Definition scenarioB : outcome unit * World :=
  writeTo (fst scenarioB_state) scenarioB_world.

(** ** The destructor and the callers' use of the buffer *)

(** The loop [for (size_t i = 0; i < blocks_.size(); ++i)
    memoryPool_.free(blocks_[i]);] of the destructor. *)
Fixpoint free_blocks (ps : list ptr) (m : Pool) : outcome unit * Pool :=
  match ps with
  | [] => (Ok tt, m)
  | p :: ps' =>
      match pool_free m p with
      | None => (Fault, m)
      | Some m' => free_blocks ps' m'
      end
  end.

(** [BlockBuffer::~BlockBuffer] *)
Definition destructor (b : BlockBuffer) (m : Pool)
  : outcome unit * (BlockBuffer * Pool) :=
  match free_blocks (blocks_ b) m with
  | (Ok _, m') => (Ok tt, (mkBuffer [] 0 0 (blockSize_ b), m'))
  | (o, m') => (o, (b, m'))
  end.

(** A producer that gives back what it did not use: it acquires a region
    with [getNextBlock], stores [d] at its start and calls
    [resize(size() - unused)] with [unused] the rest of the region. *)
Definition acquire_fill_backup (d : list Byte.byte) (s : BlockBuffer * Pool)
  : outcome Block * (BlockBuffer * Pool) :=
  match acquire_fill d s with
  | (Ok v, (b', m')) =>
      match resize b' m' (sub64 (currentSize_ b') (sub64 (size v) (Z.of_nat (length d)))) with
      | (Ok _, s'') => (Ok v, s'')
      | (Throw e, s'') => (Throw e, s'')
      | (Fault, s'') => (Fault, s'')
      | (OutOfFuel, s'') => (OutOfFuel, s'')
      end
  | r => r
  end.

Fixpoint produce_backup (ds : list (list Byte.byte)) (s : BlockBuffer * Pool)
  : outcome (list Block) * (BlockBuffer * Pool) :=
  match ds with
  | [] => (Ok [], s)
  | d :: ds' =>
      match acquire_fill_backup d s with
      | (Ok v, s') =>
          match produce_backup ds' s' with
          | (Ok vs, s'') => (Ok (v :: vs), s'')
          | r => r
          end
      | (Throw e, s') => (Throw e, s')
      | (Fault, s') => (Fault, s')
      | (OutOfFuel, s') => (OutOfFuel, s')
      end
  end.

(** The buffer [b] owns exactly what the pool has live above base [n0]:
    the allocations below [n0] are those of the heap [h0], every block of
    the buffer lies at or above [n0], and a base at or above [n0] that is
    not a block of the buffer is not allocated. *)
Definition owned_since (n0 : nat) (h0 : gmap nat (list Byte.byte))
    (b : BlockBuffer) (m : Pool) : Prop :=
  (n0 ≤ next_base m)%nat ∧
  (∀ a, (a < n0)%nat → heap m !! a = h0 !! a) ∧
  (∀ a o, Ptr a o ∈ blocks_ b → (n0 ≤ a)%nat) ∧
  (∀ a, (n0 ≤ a)%nat → Ptr a 0 ∉ blocks_ b → heap m !! a = None).

(** ** What a flush leaves alone *)

(** The computation [c] keeps the property [P] of the world, whatever its
    outcome. *)
Definition preserves {A : Type} (P : World → Prop) (c : M A) : Prop :=
  ∀ w o w', P w → c w = (o, w') → P w'.

(** What no step of a flush changes, from a world with next base [n0], heap
    [h0] and the sink's record [ws0]: the allocations below [n0] are as in
    [h0], the bases not handed out yet are unused, and the sink's record
    extends [ws0]. *)
Definition flush_frame (n0 : nat) (h0 : gmap nat (list Byte.byte))
    (ws0 : list (list Byte.byte)) (w : World) : Prop :=
  (n0 ≤ next_base (pool w))%nat ∧
  (∀ a, (a < n0)%nat → heap (pool w) !! a = h0 !! a) ∧
  pool_wf (pool w) ∧
  ws0 `prefix_of` written (sink w).

(** A scratch pointer as [malloc] returns it in such a world: null, or the
    start of an allocation at or above [n0]. *)
Definition scratch_ptr (n0 : nat) (p : ptr) : Prop :=
  ∀ a o, p = Ptr a o → (n0 ≤ a)%nat ∧ o = 0.

(** ** Records of calls on the input stream *)

(** Every buffer a [Read] of the record [l] returned is in the set [R] or is
    released by a later call of the record. *)
Definition accounted (R : gset (option nat)) (l : list ZeroCopy.event) : Prop :=
  ∀ (i : nat) ml sk bb, l !! i = Some (ZeroCopy.Read ml sk bb) →
    bb ∈ R ∨ ∃ j : nat, (i < j)%nat ∧ l !! j = Some (ZeroCopy.ReleaseBuffer bb).

Definition is_read_of (bb : option nat) (e : ZeroCopy.event) : bool :=
  match e with
  | ZeroCopy.Read _ _ bb' => bool_decide (bb' = bb)
  | _ => false
  end.

Definition is_release_of (bb : option nat) (e : ZeroCopy.event) : bool :=
  match e with
  | ZeroCopy.ReleaseBuffer bb' => bool_decide (bb' = bb)
  | _ => false
  end.

(** The number of events of [l] that satisfy [f]. *)
Fixpoint count_events (f : ZeroCopy.event → bool) (l : list ZeroCopy.event) : nat :=
  match l with
  | [] => O
  | e :: l' => ((if f e then 1 else 0) + count_events f l')%nat
  end.

(** Calls other than the deprecated [releaseBuffer]. *)
Definition not_deprecated (c : ZeroCopy.call) : Prop :=
  match c with
  | ZeroCopy.CallReleaseBuffer _ => False
  | _ => True
  end.

(** * Properties *)

(** ** Machine arithmetic *)

Lemma U64_pos : 0 < U64.
Proof. reflexivity. Qed.

Lemma wrap64_small z : 0 <= z < U64 → wrap64 z = z.
Proof. intros H. unfold wrap64. by apply Z.mod_small. Qed.

Lemma add64_small a b : 0 <= a + b < U64 → add64 a b = a + b.
Proof. apply wrap64_small. Qed.

Lemma sub64_small a b : 0 <= a - b < U64 → sub64 a b = a - b.
Proof. apply wrap64_small. Qed.

Lemma mul64_small a b : 0 <= a * b < U64 → mul64 a b = a * b.
Proof. apply wrap64_small. Qed.

Lemma MAX_CHUNK_SIZE_lt : MAX_CHUNK_SIZE < U64.
Proof. reflexivity. Qed.

(** ** Memory accesses *)

Lemma load_live h a o n bytes :
  h !! a = Some bytes → 0 <= o → 0 <= n → o + n <= Z.of_nat (length bytes) →
  load h (Ptr a o) n = Some (take (Z.to_nat n) (drop (Z.to_nat o) bytes)).
Proof.
  intros Ha Ho Hn Hb. unfold load. rewrite Ha.
  rewrite bool_decide_true; [done | lia].
Qed.

Lemma store_live h a o d bytes :
  h !! a = Some bytes → 0 <= o → o + Z.of_nat (length d) <= Z.of_nat (length bytes) →
  store h (Ptr a o) d = Some (<[a := splice (Z.to_nat o) d bytes]> h).
Proof.
  intros Ha Ho Hb. unfold store. rewrite Ha.
  rewrite bool_decide_true; [done | lia].
Qed.

Lemma length_splice o d l :
  (o + length d <= length l)%nat → length (splice o d l) = length l.
Proof.
  intros H. unfold splice.
  rewrite !length_app, length_take, length_drop. lia.
Qed.

Lemma take_splice o d l :
  (o + length d <= length l)%nat → take (o + length d) (splice o d l) = take o l ++ d.
Proof.
  intros H. unfold splice.
  rewrite app_assoc. apply take_app_length'.
  rewrite length_app, length_take. lia.
Qed.

Lemma take_splice_before o d l k :
  (k <= o)%nat → (o <= length l)%nat → take k (splice o d l) = take k l.
Proof.
  intros Hk Ho. unfold splice.
  rewrite take_app_le by (rewrite length_take; lia).
  rewrite take_take. f_equal. lia.
Qed.

Lemma length_fresh_bytes junk n : 0 <= n → Z.of_nat (length (fresh_bytes junk n)) = n.
Proof. intros H. unfold fresh_bytes. rewrite length_map, length_seq. lia. Qed.

(** ** [reserve] *)

(** The loop of [reserve] as the source writes it: test the capacity, request
    one block, stop on a null result, otherwise record the block and repeat. *)
Lemma reserve_loop_unfold b m n :
  reserve_loop (replies m) b m n =
    if currentCapacity_ b <? n then
      let '(p, m') := pool_malloc m (blockSize_ b) in
      if is_null p then (b, m')
      else reserve_loop (replies m') (push_block p b) m' n
    else (b, m).
Proof.
  unfold pool_malloc. destruct (replies m) as [|r rest] eqn:Hr; simpl.
  - by destruct (currentCapacity_ b <? n).
  - destruct r; simpl; by rewrite ?Hr.
Qed.

Lemma pool_reply_replies r rest m n : replies (snd (pool_reply r rest m n)) = rest.
Proof. by destruct r. Qed.

Lemma wf_push_block b m junk rest :
  wf b m → currentCapacity_ b + blockSize_ b < U64 →
  wf (push_block (Ptr (next_base m) 0) b)
     (mkPool rest (S (next_base m)) (<[next_base m := fresh_bytes junk (blockSize_ b)]> (heap m))).
Proof.
  intros [Hbs Hcap Hc64 Hsz Hbl Hnd Hfr] Hov.
  assert (Hnew : Ptr (next_base m) 0 ∉ blocks_ b).
  { intros Hin. apply list_elem_of_lookup in Hin as [i Hi].
    destruct (Hbl _ _ Hi) as (a & bytes & Hp & Hlt & _). inversion Hp. lia. }
  constructor; simpl.
  - done.
  - rewrite length_app. simpl. rewrite add64_small by lia. rewrite Hcap. lia.
  - rewrite add64_small by lia. lia.
  - rewrite add64_small by lia. lia.
  - intros i p Hi. apply lookup_app_Some in Hi as [Hi | [Hlen Hi]].
    + destruct (Hbl _ _ Hi) as (a & bytes & -> & Hlt & Hh & Hl).
      exists a, bytes. split_and!; [done | lia | | done].
      rewrite lookup_insert_ne by lia. done.
    + destruct (i - length (blocks_ b))%nat; [|done]. simpl in Hi.
      inversion Hi; subst p. eexists _, _. split_and!; [done | lia | apply lookup_insert_eq |].
      apply length_fresh_bytes. lia.
  - apply NoDup_app. split_and!; [done | | apply NoDup_singleton].
    intros x Hx Hx'. apply list_elem_of_singleton in Hx'. by subst x.
  - intros a Ha. rewrite lookup_insert_ne by lia. apply Hfr. lia.
Qed.

Lemma wf_replies b m rs : wf b m → wf b (mkPool rs (next_base m) (heap m)).
Proof. intros []. by constructor. Qed.

Lemma ceil_div_lt a b k : 0 < b → k * b < a → k < ceil_div a b.
Proof.
  intros Hb Hk. unfold ceil_div.
  pose proof (Z.div_mod (a + b - 1) b ltac:(lia)) as Hdm.
  pose proof (Z.mod_pos_bound (a + b - 1) b Hb) as Hm. nia.
Qed.

Lemma ceil_div_ge a b : 0 < b → a <= ceil_div a b * b < a + b.
Proof.
  intros Hb. unfold ceil_div.
  pose proof (Z.div_mod (a + b - 1) b ltac:(lia)) as Hdm.
  pose proof (Z.mod_pos_bound (a + b - 1) b Hb) as Hm. nia.
Qed.

Lemma reserved_nothing b m n m' :
  wf b m' → next_base m' = next_base m → heap m' = heap m →
  (n <= currentCapacity_ b ∧ replies m = replies m'
   ∨ currentCapacity_ b < n ∧
     (replies m = [] ∧ replies m' = [] ∨ replies m = None :: replies m')) →
  reserved b m n b m' [].
Proof.
  intros Hwf Hn Hh Hstop. constructor; simpl.
  - by rewrite app_nil_r.
  - lia.
  - done.
  - done.
  - lia.
  - intros a _. by rewrite Hh.
  - by intros ?? [=].
  - destruct Hstop as [[H1 H2]|[H1 H2]]; [left | right]; split_and?; auto.
  - done.
Qed.

Lemma reserve_loop_reserved rs : ∀ b m n b' m',
  replies m = rs → wf b m → no_wrap b m n →
  reserve_loop rs b m n = (b', m') →
  ∃ js, reserved b m n b' m' js.
Proof.
  induction rs as [|r rest IH]; intros b m n b' m' Hrs Hwf Hnw Hrun; simpl in Hrun.
  - exists []. destruct (Z.ltb_spec (currentCapacity_ b) n) as [Hlt|Hge];
      inversion Hrun; subst b' m'; apply reserved_nothing; auto.
  - destruct (Z.ltb_spec (currentCapacity_ b) n) as [Hlt|Hge].
    2:{ inversion Hrun; subst b' m'. exists []. apply reserved_nothing; auto. }
    destruct r as [junk|]; simpl in Hrun.
    2:{ inversion Hrun; subst b' m'. exists [].
        apply reserved_nothing; simpl; auto using wf_replies. }
    assert (Hov : currentCapacity_ b + blockSize_ b < U64).
    { destruct Hwf as [Hbs Hcap ? ? ? ? ?]. destruct Hnw as [Hnw|Hnw].
      - rewrite Hcap in Hlt. apply ceil_div_lt in Hlt; [nia | lia].
      - rewrite Hrs in Hnw. simpl in Hnw. nia. }
    pose proof (wf_push_block b m junk rest Hwf Hov) as Hwf'.
    assert (Hc1 : currentCapacity_ (push_block (Ptr (next_base m) 0) b)
                  = currentCapacity_ b + blockSize_ b).
    { simpl. apply add64_small. destruct Hwf; lia. }
    apply IH in Hrun as [js Hjs]; [| done | done |].
    2:{ destruct Hnw as [Hnw|Hnw]; [by left | right].
        rewrite Hc1. rewrite Hrs in Hnw. simpl in Hnw. simpl. lia. }
    destruct Hjs as [Hb Hc Hs Hbsz Hn Ho Hnew Hstop Hw].
    rewrite Hc1 in Hc. simpl in Hb, Hc, Hs, Hbsz, Hn, Ho, Hnew, Hstop.
    exists (junk :: js). constructor; simpl.
    + rewrite Hb. rewrite <- app_assoc. f_equal. simpl.
      rewrite Nat.add_0_r. f_equal. rewrite <- seq_shift, map_map.
      apply map_ext. intros i. f_equal. lia.
    + rewrite Hc. lia.
    + done.
    + done.
    + rewrite Hn. lia.
    + intros a Ha. rewrite Ho by lia. by rewrite lookup_insert_ne by lia.
    + intros [|i] j Hj; simpl in Hj.
      * inversion Hj; subst j. rewrite Nat.add_0_r.
        rewrite Ho by lia. apply lookup_insert_eq.
      * specialize (Hnew i j Hj).
        replace (next_base m + S i)%nat with (S (next_base m) + i)%nat by lia. done.
    + rewrite Hrs. destruct Hstop as [(H1 & H2 & H3)|(H1 & H2)].
      * left. split_and!; [done | | by rewrite H3].
        right. destruct H2 as [->|H2]; simpl in *; lia.
      * right. split; [done|]. destruct H2 as [[H2 H3]|H2].
        -- left. by rewrite H2.
        -- right. by rewrite H2.
    + done.
Qed.

Lemma reserve_loop_size rs : ∀ b m n,
  currentSize_ (fst (reserve_loop rs b m n)) = currentSize_ b ∧
  blockSize_ (fst (reserve_loop rs b m n)) = blockSize_ b.
Proof.
  induction rs as [|r rest IH]; intros b m n; simpl.
  - by destruct (currentCapacity_ b <? n).
  - destruct (currentCapacity_ b <? n); [|done].
    destruct r as [junk|]; simpl; [|done].
    destruct (IH (push_block (Ptr (next_base m) 0) b)
                 (mkPool rest (S (next_base m))
                    (<[next_base m := fresh_bytes junk (blockSize_ b)]> (heap m))) n)
      as [-> ->]. done.
Qed.

Lemma reserve_loop_enough rs b m n :
  n <= currentCapacity_ b → reserve_loop rs b m n = (b, m).
Proof.
  intros H. destruct rs; simpl; destruct (Z.ltb_spec (currentCapacity_ b) n); done || lia.
Qed.

(** ** [getNextBlock] *)

Lemma wf_block_at b m i :
  wf b m → 0 <= i → i * blockSize_ b < currentCapacity_ b →
  ∃ a bytes, block_at b i = Some (Ptr a 0) ∧ blocks_ b !! Z.to_nat i = Some (Ptr a 0) ∧
             (a < next_base m)%nat ∧
             heap m !! a = Some bytes ∧ Z.of_nat (length bytes) = blockSize_ b.
Proof.
  intros Hwf Hi Hlt. destruct Hwf as [Hbs Hcap Hc64 Hsz Hbl Hnd Hfr].
  assert (Hlen : (Z.to_nat i < length (blocks_ b))%nat) by nia.
  apply lookup_lt_is_Some_2 in Hlen as [p Hp].
  destruct (Hbl _ _ Hp) as (a & bytes & -> & Hlt' & Hh & Hl).
  exists a, bytes. unfold block_at.
  destruct (Z.ltb_spec i 0); [lia|]. done.
Qed.

Lemma div_bounds s bs : 0 < bs → 0 <= s →
  0 <= s / bs ∧ s / bs * bs <= s < (s / bs + 1) * bs ∧ 0 <= s mod bs < bs ∧
  s = s / bs * bs + s mod bs.
Proof.
  intros Hbs Hs. pose proof (Z.div_mod s bs ltac:(lia)) as Hdm.
  pose proof (Z.mod_pos_bound s bs Hbs) as Hm.
  pose proof (Z.div_pos s bs Hs Hbs). nia.
Qed.

Lemma next_boundary_le s bs cap k :
  0 < bs → 0 <= s → s < cap → cap = k * bs → (s / bs + 1) * bs <= cap.
Proof.
  intros Hbs Hs Hlt ->. destruct (div_bounds s bs Hbs Hs) as (H0 & H1 & _).
  assert (s / bs < k) by nia. nia.
Qed.

(** The first branch of [getNextBlock]: spare room in an owned block. *)
Lemma getNextBlock_spare b m :
  wf b m → currentSize_ b < currentCapacity_ b →
  ∃ a bytes,
    blocks_ b !! Z.to_nat (currentSize_ b / blockSize_ b) = Some (Ptr a 0) ∧
    heap m !! a = Some bytes ∧ Z.of_nat (length bytes) = blockSize_ b ∧
    getNextBlock b m =
      (Ok (mkBlock (Ptr a (currentSize_ b mod blockSize_ b))
                   (blockSize_ b - currentSize_ b mod blockSize_ b)),
       (set_size ((currentSize_ b / blockSize_ b + 1) * blockSize_ b) b, m)).
Proof.
  intros Hwf Hlt. pose proof Hwf as [Hbs Hcap Hc64 Hsz Hbl Hnd Hfr].
  destruct (div_bounds (currentSize_ b) (blockSize_ b)) as (H0 & H1 & H2 & H3); [lia..|].
  pose proof (next_boundary_le _ _ _ _ (proj1 Hbs) (proj1 Hsz) Hlt Hcap) as Hnb.
  destruct (wf_block_at b m (currentSize_ b / blockSize_ b) Hwf) as
    (a & bytes & Hat & Hlk & _ & Hh & Hl); [lia | lia |].
  exists a, bytes. split_and!; [done..|].
  unfold getNextBlock. destruct (Z.ltb_spec (currentSize_ b) (currentCapacity_ b)); [|lia].
  rewrite Hat. simpl. rewrite sub64_small by lia.
  rewrite add64_small by nia. rewrite mul64_small by lia. done.
Qed.

(** The second branch, when the pool supplies the block. *)
Lemma getNextBlock_grow b m junk rest :
  wf b m → currentCapacity_ b + blockSize_ b < U64 →
  currentSize_ b = currentCapacity_ b → replies m = Some junk :: rest →
  getNextBlock b m =
    (Ok (mkBlock (Ptr (next_base m) 0) (blockSize_ b)),
     (mkBuffer (blocks_ b ++ [Ptr (next_base m) 0])
               (currentSize_ b + blockSize_ b)
               (currentCapacity_ b + blockSize_ b) (blockSize_ b),
      mkPool rest (S (next_base m))
             (<[next_base m := fresh_bytes junk (blockSize_ b)]> (heap m)))).
Proof.
  intros Hwf Hov Heq Hr. pose proof Hwf as [Hbs Hcap Hc64 Hsz Hbl Hnd Hfr].
  unfold getNextBlock, resize, reserve.
  destruct (Z.ltb_spec (currentSize_ b) (currentCapacity_ b)); [lia|].
  rewrite Hr. rewrite (add64_small (currentSize_ b)) by lia. simpl.
  destruct (Z.ltb_spec (currentCapacity_ b) (currentSize_ b + blockSize_ b)); [|lia].
  rewrite reserve_loop_enough by (simpl; rewrite add64_small; lia).
  simpl. rewrite add64_small by lia.
  assert (Hle : (currentSize_ b + blockSize_ b <=? currentCapacity_ b + blockSize_ b) = true)
    by (apply Z.leb_le; lia).
  rewrite Hle. simpl. rewrite last_snoc. unfold set_size, push_block. simpl. rewrite add64_small by lia. done.
Qed.

(** The second branch, when the pool returns null: the resize error of the
    source, with the buffer as it was. *)
Lemma getNextBlock_refused b m :
  wf b m → currentCapacity_ b + blockSize_ b < U64 →
  currentSize_ b = currentCapacity_ b →
  (replies m = [] ∨ ∃ rest, replies m = None :: rest) →
  ∃ m', getNextBlock b m = (Throw LogicError, (b, m')) ∧
        heap m' = heap m ∧ next_base m' = next_base m.
Proof.
  intros Hwf Hov Heq Hr. pose proof Hwf as [Hbs Hcap Hc64 Hsz Hbl Hnd Hfr].
  unfold getNextBlock, resize, reserve.
  destruct (Z.ltb_spec (currentSize_ b) (currentCapacity_ b)); [lia|].
  rewrite (add64_small (currentSize_ b)) by lia.
  assert (Hle : (currentSize_ b + blockSize_ b <=? currentCapacity_ b) = false)
    by (apply Z.leb_gt; lia).
  destruct Hr as [Hr|[rest Hr]]; rewrite Hr; simpl;
    (destruct (Z.ltb_spec (currentCapacity_ b) (currentSize_ b + blockSize_ b)); [|lia]);
    simpl; rewrite Hle; eexists; split_and!; done.
Qed.

(** ** The monad of flushes *)

Lemma bind_ok {A B} (c : M A) (f : A → M B) w a w' :
  c w = (Ok a, w') → (c ≫= f) w = f a w'.
Proof. intros H. unfold mbind, M_bind. by rewrite H. Qed.

Lemma bind_throw {A B} (c : M A) (f : A → M B) w e w' :
  c w = (Throw e, w') → (c ≫= f) w = (Throw e, w').
Proof. intros H. unfold mbind, M_bind. by rewrite H. Qed.

Lemma bind_fault {A B} (c : M A) (f : A → M B) w w' :
  c w = (Fault, w') → (c ≫= f) w = (Fault, w').
Proof. intros H. unfold mbind, M_bind. by rewrite H. Qed.

Lemma do_memcpy_ok w dst o src so n sb cb :
  heap (pool w) !! src = Some sb → heap (pool w) !! dst = Some cb →
  0 <= so → 0 <= n → so + n <= Z.of_nat (length sb) →
  0 <= o → o + n <= Z.of_nat (length cb) →
  do_memcpy (Ptr dst o) (Ptr src so) n w =
    (Ok tt,
     mkWorld (set_heap (<[dst := splice (Z.to_nat o)
                                   (take (Z.to_nat n) (drop (Z.to_nat so) sb)) cb]>
                          (heap (pool w))) (pool w))
             (sink w) (metrics w)).
Proof.
  intros Hs Hd Hso Hn Hsb Ho Hcb. unfold do_memcpy, memcpy.
  rewrite (load_live _ _ _ _ _ Hs) by lia.
  rewrite (store_live _ _ _ _ _ Hd); [done | lia |].
  rewrite length_take, length_drop. lia.
Qed.

Lemma do_memcpy_null w src n : do_memcpy Null src n w = (Fault, w).
Proof. unfold do_memcpy, memcpy. destruct (load _ src n); done. Qed.

Lemma output_write_ok w a o n bytes :
  heap (pool w) !! a = Some bytes → 0 <= o → 0 <= n → o + n <= Z.of_nat (length bytes) →
  accepts (sink w) ≠ Some O →
  output_write (Ptr a o) n w =
    (Ok tt,
     mkWorld (pool w)
             (mkSink (naturalWriteSize (sink w))
                     (written (sink w) ++ [take (Z.to_nat n) (drop (Z.to_nat o) bytes)])
                     (Nat.pred <$> accepts (sink w)))
             (metrics w)).
Proof.
  intros Ha Ho Hn Hb Hacc. unfold output_write.
  rewrite (load_live _ _ _ _ _ Ha) by lia.
  destruct (accepts (sink w)) as [[|k]|]; done.
Qed.

Lemma output_write_refused w a o n bytes :
  heap (pool w) !! a = Some bytes → 0 <= o → 0 <= n → o + n <= Z.of_nat (length bytes) →
  accepts (sink w) = Some O →
  output_write (Ptr a o) n w = (Throw IOError, w).
Proof.
  intros Ha Ho Hn Hb Hacc. unfold output_write.
  rewrite (load_live _ _ _ _ _ Ha) by lia. by rewrite Hacc.
Qed.

Lemma sink_budget_pred acc0 acc k :
  sink_budget acc0 acc k → acc ≠ Some O → sink_budget acc0 (Nat.pred <$> acc) (S k).
Proof. destruct acc0, acc as [[|a]|]; simpl; try done. lia. Qed.

Lemma sink_budget_spent acc0 k : sink_budget acc0 (Some O) k → acc0 = Some k.
Proof. destruct acc0; simpl; [|done]. intros ->. f_equal. lia. Qed.

Lemma add_IOCount_eq ioCount w :
  add_IOCount ioCount w =
    (Ok tt, mkWorld (pool w) (sink w)
              match metrics w with
              | None => None
              | Some count => Some (add64 count ioCount)
              end).
Proof. unfold add_IOCount. destruct w as [? ? [?|]]; done. Qed.

(** ** The scratch copy of [writeTo] *)

Lemma length_concat_uniform (ws : list (list Byte.byte)) n :
  Forall (λ x, Z.of_nat (length x) = n) ws →
  Z.of_nat (length (concat ws)) = Z.of_nat (length ws) * n.
Proof.
  induction 1 as [|x ws Hx _ IH]; simpl; [done|].
  rewrite length_app. lia.
Qed.

Lemma staged_count c n w0 w done o io :
  staged c n w0 w done o io →
  Z.of_nat (length done) = io * n + o.
Proof.
  intros (cb & ws & _ & Hcb & _ & _ & _ & _ & _ & _ & _ & Hall & Hdone & Ho & ->).
  rewrite <- Hdone, length_app, length_take.
  pose proof (length_concat_uniform ws n Hall). lia.
Qed.

Section copy_block.
Variables (c : nat) (n : Z) (w0 : World) (a : nat) (bb : list Byte.byte) (sz : Z).
Hypothesis Hn : 0 < n < U64.
Hypothesis Hac : a ≠ c.
Hypothesis Ha : heap (pool w0) !! a = Some bb.
Hypothesis Hsz : 0 <= sz <= Z.of_nat (length bb).

(** The inner loop on one logical block: it consumes the rest of the block,
    or stops at the write the sink rejects. *)
Lemma copy_block_staged fuel : ∀ blockOffset o io w done,
  0 <= blockOffset <= sz → (Z.to_nat (sz - blockOffset) < fuel)%nat →
  Z.of_nat (length done) + sz < U64 →
  staged c n w0 w (done ++ take (Z.to_nat blockOffset) bb) o io →
  (∃ o' io' w',
     copy_block fuel (Ptr c 0) n (mkBlock (Ptr a 0) sz) blockOffset o io w
       = (Ok (o', io'), w') ∧
     staged c n w0 w' (done ++ take (Z.to_nat sz) bb) o' io')
  ∨ (∃ w',
       copy_block fuel (Ptr c 0) n (mkBlock (Ptr a 0) sz) blockOffset o io w
         = (Throw IOError, w') ∧
       stalled c w0 w').
Proof.
  induction fuel as [|fuel IH]; intros blockOffset o io w done Hbo Hfuel Hlen Hst;
    [lia|].
  simpl. destruct (Z.ltb_spec blockOffset sz) as [Hlt|Hge].
  2:{ left. exists o, io, w. split; [done|].
      by replace sz with blockOffset by lia. }
  pose proof (staged_count _ _ _ _ _ _ _ Hst) as Hcount.
  rewrite length_app, length_take in Hcount.
  destruct Hst as (cb & ws & Hc & Hcb & Hframe & Hrep & Hnext & Hnat & Hacc & Hmet
                   & Hwr & Hall & Hdone & Ho & Hio).
  rewrite (sub64_small n o) by lia. rewrite (sub64_small sz blockOffset) by lia.
  set (cs := Z.min (n - o) (sz - blockOffset)).
  assert (Hcs : 0 < cs ∧ cs <= n - o ∧ cs <= sz - blockOffset) by (subst cs; lia).
  rewrite (add64_small o cs) by lia. rewrite (add64_small blockOffset cs) by lia.
  assert (Haw : heap (pool w) !! a = Some bb) by (rewrite Hframe; done).
  set (bytes := take (Z.to_nat cs) (drop (Z.to_nat blockOffset) bb)).
  assert (Hbl : length bytes = Z.to_nat cs).
  { subst bytes. rewrite length_take, length_drop. lia. }
  set (cb1 := splice (Z.to_nat o) bytes cb).
  assert (Hcb1 : Z.of_nat (length cb1) = n).
  { subst cb1. rewrite length_splice; lia. }
  assert (Htk : take (Z.to_nat (o + cs)) cb1 = take (Z.to_nat o) cb ++ bytes).
  { subst cb1. replace (Z.to_nat (o + cs)) with (Z.to_nat o + length bytes)%nat by lia.
    apply take_splice. lia. }
  assert (Hgrow : done ++ take (Z.to_nat (blockOffset + cs)) bb
                  = (done ++ take (Z.to_nat blockOffset) bb) ++ bytes).
  { subst bytes. rewrite <- app_assoc. f_equal.
    rewrite take_take_drop. f_equal. lia. }
  erewrite bind_ok; cycle 1.
  { simpl. rewrite !Z.add_0_l.
    apply (do_memcpy_ok w c o a blockOffset cs bb cb); auto; lia. }
  fold bytes. fold cb1.
  set (w1 := mkWorld _ _ _).
  assert (Hw1c : heap (pool w1) !! c = Some cb1) by (subst w1; simpl; apply lookup_insert_eq).
  assert (Hframe1 : ∀ a', a' ≠ c → heap (pool w1) !! a' = heap (pool w0) !! a').
  { intros a' Ha'. subst w1. simpl. rewrite lookup_insert_ne by done. by apply Hframe. }
  destruct (Z.leb_spec n (o + cs)) as [Hfull|Hpart].
  - (* the chunk is full: one write, and the scratch offset restarts *)
    destruct (decide (accepts (sink w) = Some O)) as [Hspent|Hleft].
    + right. exists w1. split.
      * apply bind_throw. apply (output_write_refused w1 c 0 n cb1); auto; lia.
      * exists cb1, ws. subst w1. simpl. split_and!; auto.
        apply sink_budget_spent. by rewrite <- Hspent.
    + erewrite bind_ok; cycle 1.
      { apply (output_write_ok w1 c 0 n cb1); auto; try lia. }
      simpl. rewrite (take_ge cb1) by lia.
      assert (Hio1 : 0 <= io ∧ io <= io * n) by (subst io; nia).
      rewrite add64_small by lia.
      apply (IH (blockOffset + cs)); [lia | lia | done |].
      exists cb1, (ws ++ [cb1]). simpl. split_and!; auto; try lia.
      * rewrite length_app. simpl. rewrite Nat.add_1_r. by apply sink_budget_pred.
      * rewrite Hwr. by rewrite <- app_assoc.
      * apply Forall_app. split; [done|]. by apply Forall_singleton.
      * rewrite Hgrow, <- Hdone. rewrite concat_app. simpl.
        rewrite !app_nil_r. rewrite <- app_assoc. f_equal.
        rewrite <- Htk. symmetry. apply take_ge. lia.
      * rewrite length_app. simpl. lia.
  - apply (IH (blockOffset + cs)); [lia | lia | done |].
    exists cb1, ws. subst w1. simpl. split_and!; auto; try lia.
    rewrite Hgrow, <- Hdone. rewrite <- app_assoc. f_equal. done.
Qed.
End copy_block.

(** ** Logical blocks *)

Lemma take_concat_uniform (ls : list (list Byte.byte)) (n : nat) : ∀ (i : nat) x k,
  Forall (λ l, length l = n) ls → ls !! i = Some x → (k <= n)%nat →
  take (i * n + k) (concat ls) = take (i * n) (concat ls) ++ take k x.
Proof.
  induction ls as [|l ls IH]; intros i x k Hall Hi Hk; [done|].
  apply Forall_cons in Hall as [Hl Hall].
  destruct i as [|i]; simpl in *.
  - inversion Hi; subst x. rewrite take_app_le by lia. done.
  - replace (n + i * n + k)%nat with (length l + (i * n + k))%nat by lia.
    replace (n + i * n)%nat with (length l + i * n)%nat by lia.
    rewrite !take_app_add. rewrite (IH i x k) by done. by rewrite app_assoc.
Qed.

Lemma getBlockNumber_spec b :
  0 < blockSize_ b → 0 <= currentSize_ b →
  0 <= getBlockNumber b ∧
  (∀ i, 0 <= i → (i < getBlockNumber b ↔ i * blockSize_ b < currentSize_ b)) ∧
  currentSize_ b <= getBlockNumber b * blockSize_ b.
Proof.
  intros Hbs Hs. unfold getBlockNumber.
  destruct (div_bounds _ _ Hbs Hs) as (H0 & H1 & H2 & H3).
  destruct (Z.eqb_spec (currentSize_ b mod blockSize_ b) 0) as [He|Hne].
  - split_and!; [lia | | lia]. intros i Hi. split; intros; nia.
  - split_and!; [lia | | lia]. intros i Hi. split; intros; nia.
Qed.

Lemma getBlock_wf b m i :
  wf b m → 0 <= i → i * blockSize_ b < currentSize_ b →
  ∃ a bytes,
    getBlock b i = Ok (mkBlock (Ptr a 0) (Z.min (currentSize_ b - i * blockSize_ b) (blockSize_ b))) ∧
    blocks_ b !! Z.to_nat i = Some (Ptr a 0) ∧ (a < next_base m)%nat ∧
    heap m !! a = Some bytes ∧ Z.of_nat (length bytes) = blockSize_ b.
Proof.
  intros Hwf Hi Hlt. pose proof Hwf as [Hbs Hcap Hc64 Hsz Hbl Hnd Hfr].
  destruct (wf_block_at b m i Hwf Hi) as (a & bytes & Hat & Hlk & Ha & Hh & Hl); [lia|].
  exists a, bytes. split_and!; try done.
  unfold getBlock.
  destruct (getBlockNumber_spec b) as (_ & HN & _); [lia..|].
  destruct (Z.leb_spec (getBlockNumber b) i) as [Hle|_].
  { apply HN in Hlt; [lia | done]. }
  rewrite Hat. rewrite mul64_small by nia. rewrite sub64_small by nia. done.
Qed.

Lemma wf_block_bytes b m :
  wf b m →
  Forall (λ l, length l = Z.to_nat (blockSize_ b)) (map (block_bytes (heap m)) (blocks_ b)).
Proof.
  intros [Hbs Hcap Hc64 Hsz Hbl Hnd Hfr].
  apply Forall_forall. intros l Hl. apply list_elem_of_lookup in Hl as [i Hi].
  apply list_lookup_fmap_Some in Hi as (p & -> & Hp).
  destruct (Hbl _ _ Hp) as (a & bytes & -> & _ & Hh & Hlen).
  simpl. rewrite Hh. simpl. lia.
Qed.

Lemma length_contents b m :
  wf b m → Z.of_nat (length (contents b (heap m))) = currentSize_ b.
Proof.
  intros Hwf. pose proof Hwf as [Hbs Hcap Hc64 Hsz Hbl Hnd Hfr].
  unfold contents. rewrite length_take.
  pose proof (wf_block_bytes b m Hwf) as Hu.
  assert (Hu' : Forall (λ x, Z.of_nat (length x) = blockSize_ b)
                       (map (block_bytes (heap m)) (blocks_ b))).
  { eapply Forall_impl; [exact Hu|]. simpl. intros; lia. }
  pose proof (length_concat_uniform _ _ Hu') as Hl.
  rewrite length_map in Hl. lia.
Qed.

Lemma taken_step b m i a bytes :
  wf b m → 0 <= i → i * blockSize_ b < currentSize_ b →
  blocks_ b !! Z.to_nat i = Some (Ptr a 0) → heap m !! a = Some bytes →
  taken b (heap m) (i + 1) =
  taken b (heap m) i ++
    take (Z.to_nat (Z.min (currentSize_ b - i * blockSize_ b) (blockSize_ b))) bytes.
Proof.
  intros Hwf Hi Hlt Hlk Hh. pose proof Hwf as [Hbs Hcap Hc64 Hsz Hbl Hnd Hfr].
  unfold taken.
  replace (Z.to_nat (Z.min ((i + 1) * blockSize_ b) (currentSize_ b))) with
    (Z.to_nat i * Z.to_nat (blockSize_ b) +
     Z.to_nat (Z.min (currentSize_ b - i * blockSize_ b) (blockSize_ b)))%nat by nia.
  replace (Z.to_nat (Z.min (i * blockSize_ b) (currentSize_ b))) with
    (Z.to_nat i * Z.to_nat (blockSize_ b))%nat by nia.
  apply take_concat_uniform.
  - by apply (wf_block_bytes b m).
  - rewrite list_lookup_fmap, Hlk. simpl. by rewrite Hh.
  - lia.
Qed.

Lemma taken_all b h i :
  currentSize_ b <= i * blockSize_ b → taken b h i = contents b h.
Proof. intros H. unfold taken, contents. f_equal. lia. Qed.

Section copy_blocks.
Variables (c : nat) (n : Z) (w0 : World) (b : BlockBuffer).
Hypothesis Hn : 0 < n < U64.
Hypothesis Hwf : wf b (pool w0).
Hypothesis Hc : ∀ (i : nat) a o, blocks_ b !! i = Some (Ptr a o) → a ≠ c.

(** The loop over the logical blocks: it consumes the whole contents, or
    stops at the write the sink rejects. *)
Lemma copy_blocks_staged todo : ∀ i o io w,
  0 <= i → i + Z.of_nat todo = getBlockNumber b →
  staged c n w0 w (taken b (heap (pool w0)) i) o io →
  (∃ o' io' w',
     copy_blocks todo b (Ptr c 0) n i o io w = (Ok (o', io'), w') ∧
     staged c n w0 w' (contents b (heap (pool w0))) o' io')
  ∨ (∃ w', copy_blocks todo b (Ptr c 0) n i o io w = (Throw IOError, w') ∧
           stalled c w0 w').
Proof.
  pose proof Hwf as [Hbs Hcap Hc64 Hsz Hbl Hnd Hfr].
  destruct (getBlockNumber_spec b) as (HN0 & HN & HNle); [lia..|].
  induction todo as [|todo IH]; intros i o io w Hi Htodo Hst; simpl.
  - left. exists o, io, w. split; [done|].
    rewrite <- (taken_all b _ i); [done|]. replace i with (getBlockNumber b) by lia. done.
  - assert (Hlt : i * blockSize_ b < currentSize_ b) by (apply HN; lia).
    destruct (getBlock_wf b (pool w0) i Hwf Hi Hlt) as (a & bytes & Hgb & Hlk & _ & Hh & Hlen).
    erewrite bind_ok; [|by unfold lift; rewrite Hgb].
    set (vs := Z.min (currentSize_ b - i * blockSize_ b) (blockSize_ b)) in *.
    destruct (copy_block_staged c n w0 a bytes vs Hn (Hc _ _ _ Hlk) Hh ltac:(lia)
                (S (Z.to_nat vs)) 0 o io w (taken b (heap (pool w0)) i))
      as [(o1 & io1 & w1 & Hrun & Hst1)|(w1 & Hrun & Hstall)].
    + lia.
    + simpl. lia.
    + unfold taken. rewrite length_take. lia.
    + simpl. by rewrite app_nil_r.
    + simpl in Hrun. erewrite bind_ok; [|exact Hrun]. simpl.
      apply IH; [lia | lia |].
      rewrite (taken_step b (pool w0) i a bytes); done.
    + right. exists w1. split; [|done]. apply bind_throw. exact Hrun.
Qed.
End copy_blocks.

(** ** [writeTo] *)

Lemma wf_alloc b m rest x :
  wf b m → wf b (mkPool rest (S (next_base m)) (<[next_base m := x]> (heap m))).
Proof.
  intros [Hbs Hcap Hc64 Hsz Hbl Hnd Hfr]. constructor; simpl; try done.
  - intros i p Hi. destruct (Hbl _ _ Hi) as (a & bytes & -> & Hlt & Hh & Hl).
    exists a, bytes. split_and!; [done | lia | | done].
    by rewrite lookup_insert_ne by lia.
  - intros a Ha. rewrite lookup_insert_ne by lia. apply Hfr. lia.
Qed.

Lemma contents_frame b m h' :
  wf b m → (∀ a, (a < next_base m)%nat → h' !! a = heap m !! a) →
  contents b h' = contents b (heap m).
Proof.
  intros [Hbs Hcap Hc64 Hsz Hbl Hnd Hfr] Hag. unfold contents. do 2 f_equal.
  apply list_eq. intros i. rewrite !list_lookup_fmap.
  destruct (blocks_ b !! i) as [p|] eqn:Hp; simpl; [|done].
  destruct (Hbl _ _ Hp) as (a & bytes & -> & Hlt & Hh & Hl). simpl.
  by rewrite Hag.
Qed.

Lemma map_length_uniform (ws : list (list Byte.byte)) n :
  Forall (λ x, Z.of_nat (length x) = n) ws →
  map (λ x, Z.of_nat (length x)) ws = repeat n (length ws).
Proof. induction 1 as [|x ws Hx _ IH]; simpl; [done|]. by rewrite Hx, IH. Qed.

Lemma chunk_sizes_split n k o :
  0 < n → 0 <= k → 0 <= o < n →
  chunk_sizes n (k * n + o) = repeat n (Z.to_nat k) ++ (if o =? 0 then [] else [o]).
Proof.
  intros Hn Hk Ho. unfold chunk_sizes.
  assert ((k * n + o) / n = k) as -> by (symmetry; apply (Z.div_unique _ _ _ o); lia).
  assert ((k * n + o) mod n = o) as -> by (symmetry; apply (Z.mod_unique _ _ k); lia).
  done.
Qed.

Lemma length_chunk_sizes n total :
  0 < n → 0 <= total → Z.of_nat (length (chunk_sizes n total)) = ceil_div total n.
Proof.
  intros Hn Ht. unfold chunk_sizes, ceil_div.
  destruct (div_bounds total n Hn Ht) as (H0 & H1 & H2 & H3).
  rewrite length_app, repeat_length.
  destruct (Z.eqb_spec (total mod n) 0) as [He|Hne]; simpl.
  - replace (Z.of_nat (Z.to_nat (total / n) + 0)) with (total / n) by lia.
    apply (Z.div_unique _ _ _ (n - 1)); lia.
  - replace (Z.of_nat (Z.to_nat (total / n) + 1)) with (total / n + 1) by lia.
    apply (Z.div_unique _ _ _ (total mod n - 1)); lia.
Qed.

(** The fast path: one logical block that fits a chunk, written in place. *)
Lemma writeTo_fast b w :
  wf b (pool w) → 0 < currentSize_ b →
  0 < naturalWriteSize (sink w) → accepts (sink w) = None →
  fast_path b (Z.min (naturalWriteSize (sink w)) MAX_CHUNK_SIZE) = true →
  ∃ ws w', writeTo b w = (Ok tt, w') ∧
           flushed b (Z.min (naturalWriteSize (sink w)) MAX_CHUNK_SIZE) w w' ws ∧
           pool w' = pool w.
Proof.
  intros Hwf Hs Hnat Hacc Hfast. pose proof Hwf as [Hbs Hcap Hc64 Hsz Hbl Hnd Hfr].
  set (n := Z.min (naturalWriteSize (sink w)) MAX_CHUNK_SIZE) in *.
  assert (Hn : 0 < n) by (subst n; unfold MAX_CHUNK_SIZE; lia).
  unfold fast_path in Hfast. apply andb_true_iff in Hfast as [HN1 Hfit].
  apply Z.eqb_eq in HN1. apply Z.leb_le in Hfit.
  destruct (getBlockNumber_spec b) as (_ & HN & HNle); [lia..|].
  assert (Hsb : currentSize_ b <= blockSize_ b) by lia.
  destruct (getBlock_wf b (pool w) 0 Hwf) as (a & bytes & Hgb & Hlk & _ & Hh & Hlen); [lia..|].
  rewrite Z.mul_0_l, Z.sub_0_r, Z.min_l in Hgb by lia.
  set (x := take (Z.to_nat (currentSize_ b)) bytes).
  exists [x]. eexists. split; [|split].
  - unfold writeTo. destruct (Z.eqb_spec (currentSize_ b) 0); [lia|].
    erewrite bind_ok; [|reflexivity]. fold n.
    destruct (Z.eqb_spec n 0); [lia|].
    rewrite HN1, Z.eqb_refl. simpl.
    destruct (Z.leb_spec (currentSize_ b) n); [|lia].
    erewrite bind_ok; cycle 1.
    { erewrite bind_ok; [|by unfold lift; rewrite Hgb].
      erewrite bind_ok; cycle 1.
      { simpl. apply (output_write_ok w a 0 (currentSize_ b) bytes); auto; try lia.
        by rewrite Hacc. }
      reflexivity. }
    rewrite add_IOCount_eq. simpl. reflexivity.
  - assert (Hxl : Z.of_nat (length x) = currentSize_ b).
    { subst x. rewrite length_take. lia. }
    constructor; simpl.
    + done.
    + rewrite app_nil_r. unfold contents.
      destruct (blocks_ b) as [|p ps] eqn:Hps; [done|]. simpl in Hlk.
      inversion Hlk; subst p. simpl. rewrite Hh. simpl.
      rewrite take_app_le by lia. done.
    + rewrite Hxl. unfold chunk_sizes.
      destruct (Z.eq_dec (currentSize_ b) n) as [He|Hne].
      * rewrite He, Z.div_same, Z.mod_same by lia. done.
      * rewrite Z.div_small, Z.mod_small by lia.
        destruct (Z.eqb_spec (currentSize_ b) 0); [lia|]. done.
    + destruct (metrics w); done.
    + done.
    + done.
  - simpl. done.
Qed.

Lemma malloc_served w n junk rest :
  replies (pool w) = Some junk :: rest →
  malloc n w =
    (Ok (Ptr (next_base (pool w)) 0),
     mkWorld (mkPool rest (S (next_base (pool w)))
                     (<[next_base (pool w) := fresh_bytes junk n]> (heap (pool w))))
             (sink w) (metrics w)).
Proof. intros Hr. unfold malloc, pool_malloc. by rewrite Hr. Qed.

Lemma malloc_refused w n :
  (replies (pool w) = [] ∨ ∃ rest, replies (pool w) = None :: rest) →
  ∃ w', malloc n w = (Ok Null, w') ∧ heap (pool w') = heap (pool w) ∧
        sink w' = sink w ∧ metrics w' = metrics w.
Proof.
  intros [Hr|[rest Hr]]; unfold malloc, pool_malloc; rewrite Hr; simpl;
    eexists; split_and!; done.
Qed.

(** [writeTo] on the general path, once the chunk is granted. *)
Lemma writeTo_general_unfold b w junk rest :
  currentSize_ b ≠ 0 → 0 < naturalWriteSize (sink w) →
  fast_path b (Z.min (naturalWriteSize (sink w)) MAX_CHUNK_SIZE) = false →
  replies (pool w) = Some junk :: rest →
  writeTo b w =
    (ioCount ←
       (r ← copy_blocks (Z.to_nat (getBlockNumber b)) b (Ptr (next_base (pool w)) 0)
              (Z.min (naturalWriteSize (sink w)) MAX_CHUNK_SIZE) 0 0 0;
        ioCount ←
          (if fst r =? 0 then mret (snd r)
           else _ ← output_write (Ptr (next_base (pool w)) 0) (fst r);
                mret (add64 (snd r) 1));
        _ ← free (Ptr (next_base (pool w)) 0);
        mret ioCount);
     add_IOCount ioCount) (scratch_world w junk rest).
Proof.
  intros Hs Hnat Hfast Hrep. unfold writeTo.
  destruct (Z.eqb_spec (currentSize_ b) 0); [done|].
  erewrite bind_ok; [|reflexivity].
  destruct (Z.eqb_spec (Z.min (naturalWriteSize (sink w)) MAX_CHUNK_SIZE) 0);
    [unfold MAX_CHUNK_SIZE in *; lia|].
  unfold fast_path in Hfast. rewrite Hfast.
  unfold mbind at 1 3. unfold M_bind at 1 3.
  erewrite bind_ok; [|by apply malloc_served]. done.
Qed.

(** The scratch copy of a well-formed buffer: it consumes the whole contents,
    or stops at the write the sink rejects. *)
Lemma scratch_copy b w junk rest :
  wf b (pool w) → 0 < currentSize_ b → 0 < naturalWriteSize (sink w) →
  (∃ o io w1,
     copy_blocks (Z.to_nat (getBlockNumber b)) b (Ptr (next_base (pool w)) 0)
       (Z.min (naturalWriteSize (sink w)) MAX_CHUNK_SIZE) 0 0 0 (scratch_world w junk rest)
       = (Ok (o, io), w1) ∧
     staged (next_base (pool w)) (Z.min (naturalWriteSize (sink w)) MAX_CHUNK_SIZE)
       (scratch_world w junk rest) w1 (contents b (heap (pool w))) o io)
  ∨ (∃ w1,
       copy_blocks (Z.to_nat (getBlockNumber b)) b (Ptr (next_base (pool w)) 0)
         (Z.min (naturalWriteSize (sink w)) MAX_CHUNK_SIZE) 0 0 0 (scratch_world w junk rest)
         = (Throw IOError, w1) ∧
       stalled (next_base (pool w)) (scratch_world w junk rest) w1).
Proof.
  intros Hwf Hs Hnat. pose proof Hwf as [Hbs Hcap Hc64 Hsz Hbl Hnd Hfr].
  set (n := Z.min (naturalWriteSize (sink w)) MAX_CHUNK_SIZE) in *.
  assert (Hn : 0 < n < U64) by (subst n; unfold MAX_CHUNK_SIZE, U64; lia).
  set (c := next_base (pool w)).
  set (w0 := scratch_world w junk rest).
  assert (Hwf0 : wf b (pool w0)) by (apply wf_alloc; done).
  assert (Hc : ∀ (i : nat) a o, blocks_ b !! i = Some (Ptr a o) → a ≠ c).
  { intros i a o Hi. destruct (Hbl _ _ Hi) as (a' & ? & Heq & Hlt & _).
    inversion Heq; subst. subst c. lia. }
  assert (Hcont : contents b (heap (pool w0)) = contents b (heap (pool w))).
  { apply contents_frame; [done|]. intros a Ha. subst w0 c. simpl.
    by rewrite lookup_insert_ne by lia. }
  destruct (getBlockNumber_spec b) as (HN0 & HN & HNle); [lia..|].
  rewrite <- Hcont.
  apply (copy_blocks_staged c n w0 b Hn Hwf0 Hc); [lia | lia |].
  exists (fresh_bytes junk n), []. subst w0. simpl. split_and!; auto; try lia.
  - apply lookup_insert_eq.
  - apply length_fresh_bytes. lia.
  - by destruct (accepts (sink w)).
  - by rewrite app_nil_r.
  - unfold taken. rewrite Z.mul_0_l, Z.min_l by lia. done.
Qed.

(** The general path: the blocks are staged through a scratch chunk. *)
Lemma writeTo_general b w junk rest :
  wf b (pool w) → 0 < currentSize_ b →
  0 < naturalWriteSize (sink w) → accepts (sink w) = None →
  fast_path b (Z.min (naturalWriteSize (sink w)) MAX_CHUNK_SIZE) = false →
  replies (pool w) = Some junk :: rest →
  ∃ ws w', writeTo b w = (Ok tt, w') ∧
           flushed b (Z.min (naturalWriteSize (sink w)) MAX_CHUNK_SIZE) w w' ws ∧
           replies (pool w') = rest ∧ next_base (pool w') = S (next_base (pool w)).
Proof.
  intros Hwf Hs Hnat Hacc Hfast Hrep. pose proof Hwf as [Hbs Hcap Hc64 Hsz Hbl Hnd Hfr].
  rewrite (writeTo_general_unfold b w junk rest) by (done || lia).
  destruct (scratch_copy b w junk rest Hwf Hs Hnat)
    as [(o & io & w1 & Hrun & Hst)|(w1 & _ & Hstall)].
  2:{ destruct Hstall as (? & ? & _ & _ & _ & _ & _ & _ & Hspent).
      simpl in Hspent. by rewrite Hacc in Hspent. }
  set (n := Z.min (naturalWriteSize (sink w)) MAX_CHUNK_SIZE) in *.
  assert (Hn : 0 < n < U64) by (subst n; unfold MAX_CHUNK_SIZE, U64; lia).
  set (c := next_base (pool w)) in *.
  set (w0 := scratch_world w junk rest) in *.
  pose proof (staged_count _ _ _ _ _ _ _ Hst) as Hcount.
  destruct Hst as (cb & ws & Hcb & Hcbl & Hframe & Hrep1 & Hnext1 & Hnat1 & Hacc1 & Hmet1
                   & Hwr & Hall & Hdone & Ho & Hio).
  simpl in Hacc1. rewrite Hacc in Hacc1.
  assert (Hacc1' : accepts (sink w1) = None) by (by destruct (accepts (sink w1))).
  rewrite (length_contents b (pool w) Hwf) in Hcount.
  assert (Hio0 : 0 <= io ∧ io <= io * n) by (subst io; nia).
  set (tail := if o =? 0 then [] else [take (Z.to_nat o) cb]).
  set (w2 := mkWorld (mkPool rest (S c) (heap (pool w)))
               (mkSink (naturalWriteSize (sink w)) (written (sink w) ++ ws ++ tail) None)
               match metrics w with
               | None => None
               | Some count => Some (add64 count (Z.of_nat (length (ws ++ tail))))
               end).
  assert (Hfree : delete c (heap (pool w1)) = heap (pool w)).
  { apply map_eq. intros a. destruct (decide (a = c)) as [->|Hne].
    - rewrite lookup_delete_eq. symmetry. apply Hfr. subst c. lia.
    - rewrite lookup_delete_ne by done. rewrite Hframe by done.
      subst w0. simpl. by rewrite lookup_insert_ne. }
  exists (ws ++ tail), w2. split; [|split].
  - assert (Hw1 : w1 = mkWorld (mkPool rest (S c) (heap (pool w1)))
                         (mkSink (naturalWriteSize (sink w)) (written (sink w) ++ ws) None)
                         (metrics w)).
    { destruct w1 as [[] [] ?]; simpl in *. subst. done. }
    subst tail w2. destruct (Z.eqb_spec o 0) as [Ho0|Ho0].
    + erewrite bind_ok; cycle 1.
      { erewrite bind_ok; [|exact Hrun]. simpl.
        destruct (Z.eqb_spec o 0); [|lia].
        erewrite bind_ok; [|reflexivity].
        erewrite bind_ok; cycle 1.
        { unfold free, pool_free. rewrite Hcb. reflexivity. }
        reflexivity. }
      rewrite add_IOCount_eq. simpl. rewrite Hfree, !app_nil_r.
      rewrite Hw1. simpl. subst io. done.
    + erewrite bind_ok; cycle 1.
      { erewrite bind_ok; [|exact Hrun]. simpl.
        destruct (Z.eqb_spec o 0); [lia|].
        erewrite bind_ok; cycle 1.
        { erewrite bind_ok; cycle 1.
          { apply (output_write_ok w1 c 0 o cb); auto; try lia. by rewrite Hacc1'. }
          reflexivity. }
        erewrite bind_ok; cycle 1.
        { unfold free, pool_free. simpl. rewrite Hcb. reflexivity. }
        reflexivity. }
      rewrite add_IOCount_eq. simpl. rewrite Hfree.
      rewrite Hw1. simpl. rewrite add64_small by lia.
      rewrite length_app. simpl. rewrite <- app_assoc. subst io.
      replace (Z.of_nat (length ws + 1)) with (Z.of_nat (length ws) + 1) by lia. done.
  - constructor; simpl; try done.
    + rewrite concat_app. subst tail. rewrite <- Hdone.
      destruct (Z.eqb_spec o 0) as [->|]; simpl; by rewrite ?app_nil_r.
    + replace (currentSize_ b) with (io * n + o) by lia.
      rewrite chunk_sizes_split by lia. rewrite map_app. f_equal.
      * rewrite (map_length_uniform _ n) by done. f_equal. lia.
      * subst tail. destruct (Z.eqb_spec o 0); [done|]. simpl.
        rewrite length_take. do 2 f_equal. lia.
  - done.
Qed.

(** ** The producer *)

Lemma take_concat_insert (ls : list (list Byte.byte)) (n : nat) : ∀ (i : nat) x,
  Forall (λ l, length l = n) ls →
  take (i * n) (concat (<[i := x]> ls)) = take (i * n) (concat ls).
Proof.
  induction ls as [|l ls IH]; intros i x Hall; [done|].
  apply Forall_cons in Hall as [Hl Hall].
  destruct i as [|i]; simpl; [done|].
  replace (n + i * n)%nat with (length l + i * n)%nat by lia.
  rewrite !take_app_add. by rewrite IH.
Qed.

Lemma block_bytes_store b m (j : nat) a x :
  wf b m → blocks_ b !! j = Some (Ptr a 0) →
  map (block_bytes (<[a := x]> (heap m))) (blocks_ b)
  = <[j := x]> (map (block_bytes (heap m)) (blocks_ b)).
Proof.
  intros [Hbs Hcap Hc64 Hsz Hbl Hnd Hfr] Hj.
  apply list_eq. intros i. destruct (decide (i = j)) as [->|Hne].
  - rewrite list_lookup_insert_eq by (rewrite length_map; by eapply lookup_lt_Some).
    rewrite list_lookup_fmap, Hj. simpl. by rewrite lookup_insert_eq.
  - rewrite list_lookup_insert_ne by done. rewrite !list_lookup_fmap.
    destruct (blocks_ b !! i) as [p|] eqn:Hi; simpl; [|done].
    destruct (Hbl _ _ Hi) as (a' & bytes & -> & _ & Hh & _). simpl.
    rewrite lookup_insert_ne; [done|]. intros ->.
    by pose proof (NoDup_lookup _ _ _ _ Hnd Hi Hj).
Qed.

Lemma wf_store b m a x bytes :
  wf b m → heap m !! a = Some bytes → length x = length bytes →
  wf b (set_heap (<[a := x]> (heap m)) m).
Proof.
  intros [Hbs Hcap Hc64 Hsz Hbl Hnd Hfr] Ha Hx. constructor; simpl; try done.
  - intros i p Hi. destruct (Hbl _ _ Hi) as (a' & bytes' & -> & Hlt & Hh & Hl).
    destruct (decide (a' = a)) as [->|Hne].
    + exists a, x. rewrite lookup_insert_eq. split_and!; try done.
      rewrite Hx. congruence.
    + exists a', bytes'. by rewrite lookup_insert_ne.
  - intros a' Ha'. destruct (decide (a' = a)) as [->|Hne].
    + rewrite Hfr in Ha by done. done.
    + rewrite lookup_insert_ne by done. by apply Hfr.
Qed.

Lemma wf_set_size b m n :
  wf b m → 0 <= n <= currentCapacity_ b → wf (set_size n b) m.
Proof. intros [] Hn. by constructor. Qed.

(** An acquisition that finds spare room: the producer's bytes [d] land
    right after the bytes in use, followed by the rest of the region. *)
Lemma acquire_fill_spare b m d :
  wf b m → currentSize_ b < currentCapacity_ b →
  Z.of_nat (length d) <= blockSize_ b - currentSize_ b mod blockSize_ b →
  ∃ v m' slack,
    acquire_fill d (b, m) =
      (Ok v, (set_size ((currentSize_ b / blockSize_ b + 1) * blockSize_ b) b, m')) ∧
    size v = blockSize_ b - currentSize_ b mod blockSize_ b ∧
    replies m' = replies m ∧
    wf (set_size ((currentSize_ b / blockSize_ b + 1) * blockSize_ b) b) m' ∧
    Z.of_nat (length d) + Z.of_nat (length slack) = size v ∧
    contents (set_size ((currentSize_ b / blockSize_ b + 1) * blockSize_ b) b) (heap m')
      = contents b (heap m) ++ d ++ slack.
Proof.
  intros Hwf Hlt Hd. pose proof Hwf as [Hbs Hcap Hc64 Hsz Hbl Hnd Hfr].
  destruct (getNextBlock_spare b m Hwf Hlt) as (a & bytes & Hlk & Hh & Hlen & Hnb).
  destruct (div_bounds (currentSize_ b) (blockSize_ b)) as (H0 & H1 & H2 & H3); [lia..|].
  pose proof (next_boundary_le _ _ _ _ (proj1 Hbs) (proj1 Hsz) Hlt Hcap) as Hle.
  set (r := currentSize_ b mod blockSize_ b) in *.
  set (j := currentSize_ b / blockSize_ b) in *.
  set (x := splice (Z.to_nat r) d bytes).
  assert (Hx : length x = length bytes) by (subst x; apply length_splice; lia).
  eexists _, (set_heap (<[a := x]> (heap m)) m), (drop (Z.to_nat r + length d) bytes).
  split_and!.
  - unfold acquire_fill. simpl. rewrite Hnb. simpl.
    destruct (Z.leb_spec (Z.of_nat (length d)) (blockSize_ b - r)); [|lia].
    rewrite Hh, bool_decide_true by lia. reflexivity.
  - done.
  - done.
  - apply wf_set_size; [|lia]. by apply (wf_store b m a x bytes).
  - simpl. rewrite length_drop. lia.
  - unfold contents. simpl.
    rewrite (block_bytes_store b m (Z.to_nat j) a x Hwf Hlk).
    pose proof (wf_block_bytes b m Hwf) as Hu.
    set (L := map (block_bytes (heap m)) (blocks_ b)) in *.
    assert (HLj : L !! Z.to_nat j = Some bytes).
    { subst L. rewrite list_lookup_fmap, Hlk. simpl. by rewrite Hh. }
    replace (Z.to_nat ((j + 1) * blockSize_ b)) with
      (Z.to_nat j * Z.to_nat (blockSize_ b) + Z.to_nat (blockSize_ b))%nat by nia.
    rewrite (take_concat_uniform _ _ (Z.to_nat j) x (Z.to_nat (blockSize_ b))).
    + rewrite take_concat_insert by done.
      replace (Z.to_nat (currentSize_ b)) with
        (Z.to_nat j * Z.to_nat (blockSize_ b) + Z.to_nat r)%nat by nia.
      rewrite (take_concat_uniform _ _ (Z.to_nat j) bytes (Z.to_nat r)) by (done || lia).
      rewrite <- app_assoc. f_equal.
      rewrite take_ge by lia. done.
    + apply Forall_insert; [done | lia].
    + apply list_lookup_insert_eq. by eapply lookup_lt_Some.
    + lia.
Qed.

(** An acquisition that grows the buffer by a block. *)
Lemma acquire_fill_grow b m d junk rest :
  wf b m → currentSize_ b + blockSize_ b < U64 →
  currentSize_ b = currentCapacity_ b → replies m = Some junk :: rest →
  Z.of_nat (length d) <= blockSize_ b →
  ∃ v b' m' slack,
    acquire_fill d (b, m) = (Ok v, (b', m')) ∧
    size v = blockSize_ b ∧ replies m' = rest ∧ wf b' m' ∧
    blockSize_ b' = blockSize_ b ∧
    currentSize_ b' = currentSize_ b + blockSize_ b ∧
    currentCapacity_ b' = currentCapacity_ b + blockSize_ b ∧
    Z.of_nat (length d) + Z.of_nat (length slack) = size v ∧
    contents b' (heap m') = contents b (heap m) ++ d ++ slack.
Proof.
  intros Hwf Hov Heq Hrep Hd. pose proof Hwf as [Hbs Hcap Hc64 Hsz Hbl Hnd Hfr].
  pose proof (getNextBlock_grow b m junk rest Hwf ltac:(lia) Heq Hrep) as Hnb.
  pose proof (wf_push_block b m junk rest Hwf ltac:(lia)) as Hwf1.
  set (c := next_base m) in *.
  set (fresh := fresh_bytes junk (blockSize_ b)) in *.
  assert (Hfl : Z.of_nat (length fresh) = blockSize_ b) by (apply length_fresh_bytes; lia).
  set (b1 := mkBuffer (blocks_ b ++ [Ptr c 0]) (currentSize_ b + blockSize_ b)
                      (currentCapacity_ b + blockSize_ b) (blockSize_ b)) in *.
  set (m1 := mkPool rest (S c) (<[c := fresh]> (heap m))) in *.
  assert (Hwf1' : wf b1 m1).
  { destruct Hwf1 as [? Hcap1 ? ? ? ? ?]. simpl in *.
    rewrite add64_small in * by lia. constructor; simpl; try done; lia. }
  set (x := splice (Z.to_nat 0) d fresh).
  assert (Hx : length x = length fresh) by (subst x; apply length_splice; simpl; lia).
  exists (mkBlock (Ptr c 0) (blockSize_ b)), b1, (set_heap (<[c := x]> (heap m1)) m1),
         (drop (length d) fresh).
  split_and!; try done.
  - unfold acquire_fill. simpl. rewrite Hnb. simpl.
    destruct (Z.leb_spec (Z.of_nat (length d)) (blockSize_ b)); [|lia].
    rewrite lookup_insert_eq, bool_decide_true by lia. done.
  - apply (wf_store b1 m1 c x fresh); [done | apply lookup_insert_eq | done].
  - simpl. rewrite length_drop. lia.
  - unfold contents. simpl. rewrite map_app, concat_app. simpl.
    rewrite insert_insert_eq, app_nil_r.
    assert (Hold : map (block_bytes (<[c := x]> (heap m))) (blocks_ b)
                   = map (block_bytes (heap m)) (blocks_ b)).
    { apply list_eq. intros i. rewrite !list_lookup_fmap.
      destruct (blocks_ b !! i) as [p|] eqn:Hi; simpl; [|done].
      destruct (Hbl _ _ Hi) as (a' & bytes & -> & Hlt & Hh & _). simpl.
      rewrite lookup_insert_ne by (subst c; lia). done. }
    rewrite Hold, lookup_insert_eq. simpl.
    pose proof (length_contents b m Hwf) as Hlc. unfold contents in Hlc.
    rewrite Heq in Hlc |- *.
    pose proof (wf_block_bytes b m Hwf) as Hu.
    assert (Hu' : Forall (λ x, Z.of_nat (length x) = blockSize_ b)
                         (map (block_bytes (heap m)) (blocks_ b))).
    { eapply Forall_impl; [exact Hu|]. simpl. intros; lia. }
    pose proof (length_concat_uniform _ _ Hu') as Hl. rewrite length_map in Hl.
    rewrite (take_ge (concat _)) by lia.
    rewrite take_ge by (rewrite length_app; lia). done.
Qed.

(** What a successful acquisition tells about the states around it. *)
Lemma acquire_fill_inv b m d v b' m' :
  wf b m → currentSize_ b + blockSize_ b < U64 →
  acquire_fill d (b, m) = (Ok v, (b', m')) →
  wf b' m' ∧ blockSize_ b' = blockSize_ b ∧
  0 < size v <= blockSize_ b ∧
  (currentSize_ b mod blockSize_ b = 0 → size v = blockSize_ b) ∧
  currentSize_ b' = currentSize_ b + size v ∧
  currentSize_ b' mod blockSize_ b = 0 ∧
  currentCapacity_ b' = Z.max (currentCapacity_ b) (currentSize_ b') ∧
  ∃ slack, Z.of_nat (length d) + Z.of_nat (length slack) = size v ∧
           contents b' (heap m') = contents b (heap m) ++ d ++ slack.
Proof.
  intros Hwf Hov Hrun. pose proof Hwf as [Hbs Hcap Hc64 Hsz Hbl Hnd Hfr].
  destruct (div_bounds (currentSize_ b) (blockSize_ b)) as (H0 & H1 & H2 & H3); [lia..|].
  destruct (Z.lt_ge_cases (currentSize_ b) (currentCapacity_ b)) as [Hlt|Hge].
  - pose proof (next_boundary_le _ _ _ _ (proj1 Hbs) (proj1 Hsz) Hlt Hcap) as Hle.
    assert (Hd : Z.of_nat (length d) <= blockSize_ b - currentSize_ b mod blockSize_ b).
    { destruct (getNextBlock_spare b m Hwf Hlt) as (a & bytes & _ & _ & _ & Hnb).
      unfold acquire_fill in Hrun. simpl in Hrun. rewrite Hnb in Hrun. simpl in Hrun.
      destruct (Z.leb_spec (Z.of_nat (length d))
                  (blockSize_ b - currentSize_ b mod blockSize_ b)); [done|].
      inversion Hrun. }
    destruct (acquire_fill_spare b m d Hwf Hlt Hd)
      as (v1 & m1 & slack & Heq & Hv & _ & Hwf1 & Hsl & Hcont).
    rewrite Heq in Hrun. inversion Hrun; subst v1 b' m1.
    split_and!; simpl; try done; try lia.
    + rewrite Z.mod_mul by lia. done.
    + by exists slack.
  - assert (Heq : currentSize_ b = currentCapacity_ b) by lia.
    destruct (replies m) as [|[junk|] rest] eqn:Hrep.
    + destruct (getNextBlock_refused b m Hwf ltac:(lia) Heq) as (m1 & Hnb & _); [by left|].
      unfold acquire_fill in Hrun. simpl in Hrun. rewrite Hnb in Hrun. inversion Hrun.
    + assert (Hd : Z.of_nat (length d) <= blockSize_ b).
      { pose proof (getNextBlock_grow b m junk rest Hwf ltac:(lia) Heq Hrep) as Hnb.
        unfold acquire_fill in Hrun. simpl in Hrun. rewrite Hnb in Hrun. simpl in Hrun.
        destruct (Z.leb_spec (Z.of_nat (length d)) (blockSize_ b)); [done|].
        inversion Hrun. }
      destruct (acquire_fill_grow b m d junk rest Hwf Hov Heq Hrep Hd)
        as (v1 & b1 & m1 & slack & Hrun1 & Hv & _ & Hwf1 & Hbs1 & Hs1 & Hc1 & Hsl & Hcont).
      rewrite Hrun1 in Hrun. inversion Hrun; subst v1 b1 m1.
      split_and!; try done; try lia.
      * rewrite Hs1, Heq, Hcap.
        replace (Z.of_nat (length (blocks_ b)) * blockSize_ b + blockSize_ b)
          with ((Z.of_nat (length (blocks_ b)) + 1) * blockSize_ b) by lia.
        apply Z.mod_mul. lia.
      * by exists slack.
    + destruct (getNextBlock_refused b m Hwf ltac:(lia) Heq) as (m1 & Hnb & _);
        [right; by exists rest|].
      unfold acquire_fill in Hrun. simpl in Hrun. rewrite Hnb in Hrun. inversion Hrun.
Qed.

Lemma prefix_same_length (d r : list Byte.byte) :
  d `prefix_of` r → length d = length r → r = d.
Proof.
  intros [k ->] Hl. rewrite length_app in Hl.
  destruct k; [by rewrite app_nil_r | simpl in Hl; lia].
Qed.

(** A successful run of the producer from a well-formed state: the regions
    [rs] it leaves behind, one per acquisition, follow the bytes that were in
    use before, each starts with the bytes the producer stored, and the
    capacity has grown exactly as far as the used size required. *)
Lemma produce_inv ds : ∀ b m vs b' m',
  wf b m → currentSize_ b + Z.of_nat (length ds) * blockSize_ b < U64 →
  produce ds (b, m) = (Ok vs, (b', m')) →
  wf b' m' ∧ blockSize_ b' = blockSize_ b ∧ 0 <= total_size vs ∧
  currentSize_ b' = currentSize_ b + total_size vs ∧
  currentCapacity_ b' = Z.max (currentCapacity_ b) (currentSize_ b') ∧
  (currentSize_ b mod blockSize_ b = 0 → Forall (λ v, size v = blockSize_ b) vs) ∧
  ∃ rs, Forall2 (λ d r, d `prefix_of` r) ds rs ∧
        Forall2 (λ r v, Z.of_nat (length r) = size v) rs vs ∧
        contents b' (heap m') = contents b (heap m) ++ concat rs.
Proof.
  induction ds as [|d ds IH]; intros b m vs b' m' Hwf Hov Hrun; simpl in Hrun.
  - inversion Hrun; subst vs b' m'. pose proof Hwf as [Hbs Hcap Hc64 Hsz Hbl Hnd Hfr].
    simpl. split_and!; try done; try lia.
    exists []. split_and!; [constructor | constructor | by rewrite app_nil_r].
  - destruct (acquire_fill d (b, m)) as [[v| | |] [b1 m1]] eqn:Hstep; try by inversion Hrun.
    destruct (produce ds (b1, m1)) as [[vs1| | |] [b2 m2]] eqn:Hrest; try by inversion Hrun.
    inversion Hrun; subst vs b' m'. clear Hrun.
    pose proof Hwf as [Hbs Hcap Hc64 Hsz Hbl Hnd Hfr].
    simpl length in Hov.
    apply acquire_fill_inv in Hstep
      as (Hwf1 & Hbs1 & Hv & Hvfull & Hs1 & Hmod1 & Hc1 & slack & Hsl & Hcont1);
      [| done | nia].
    apply IH in Hrest
      as (Hwf2 & Hbs2 & Htot & Hs2 & Hc2 & Hfull2 & rs & Hpre & Hlen & Hcont2);
      [| done | rewrite Hbs1; nia].
    rewrite Hbs1 in *. simpl. split_and!; try done; try lia.
    + intros Hal. constructor; [by apply Hvfull | by apply Hfull2].
    + exists ((d ++ slack) :: rs). split_and!.
      * constructor; [by exists slack | done].
      * constructor; [rewrite length_app; lia | done].
      * rewrite Hcont2, Hcont1. simpl. by rewrite <- !app_assoc.
Qed.

Lemma Forall2_same_length_prefix (ds rs : list (list Byte.byte)) (vs : list Block) :
  Forall2 (λ d r, d `prefix_of` r) ds rs →
  Forall2 (λ r v, Z.of_nat (length r) = size v) rs vs →
  Forall2 (λ d v, Z.of_nat (length d) = size v) ds vs →
  rs = ds.
Proof.
  intros Hpre. revert vs. induction Hpre as [|d r ds rs Hd _ IH]; intros vs Hrv Hdv; [done|].
  inversion Hrv as [|? v ? vs' Hr Hrv']; subst.
  inversion Hdv as [|? ? ? ? Hd' Hdv']; subst.
  f_equal; [|by eapply IH].
  apply prefix_same_length; [done | lia].
Qed.

(** [construct] on a well-formed pool gives a well-formed empty buffer. *)
Lemma construct_wf m bs b m0 :
  pool_wf m → 0 < bs < U64 → construct m bs = (Ok tt, (b, m0)) →
  wf b m0 ∧ blockSize_ b = bs ∧ currentSize_ b = 0 ∧
  (∀ junk rest, replies m = Some junk :: rest →
     currentCapacity_ b = bs ∧ replies m0 = rest).
Proof.
  intros Hpw Hbs Hrun. unfold construct in Hrun.
  destruct (Z.eqb_spec bs 0); [lia|]. unfold reserve in Hrun.
  set (b0 := mkBuffer [] 0 0 bs) in *.
  assert (Hwf0 : wf b0 m).
  { constructor; simpl; try done; try lia. apply NoDup_nil_2. }
  destruct (reserve_loop (replies m) b0 m bs) as [b1 m1] eqn:Hloop.
  inversion Hrun; subst b1 m1.
  destruct (reserve_loop_reserved _ b0 m bs b m0 eq_refl Hwf0) as [js Hres]; [|done|].
  { left. simpl.
    assert (ceil_div bs bs = 1) as ->; [|lia].
    unfold ceil_div. symmetry. apply (Z.div_unique _ _ _ (bs - 1)); lia. }
  destruct Hres as [Hb Hc Hs Hbsz Hn Ho Hnew Hstop Hw]. simpl in *.
  split_and!; try done.
  intros junk rest Hrep. rewrite Hrep in Hloop. simpl in Hloop.
  destruct (Z.ltb_spec 0 bs); [|lia].
  rewrite reserve_loop_enough in Hloop by (simpl; rewrite add64_small; lia).
  inversion Hloop. simpl. rewrite add64_small by lia. split; [lia | done].
Qed.

(** ** The representation invariant is kept *)

Lemma reserve_wf b m n b' m' :
  wf b m → no_wrap b m n → reserve b m n = (Ok tt, (b', m')) → wf b' m'.
Proof.
  intros Hwf Hnw Hrun. unfold reserve in Hrun. inversion Hrun as [Hloop].
  destruct (reserve_loop_reserved _ b m n b' m' eq_refl Hwf Hnw Hloop) as [js Hres].
  by destruct Hres.
Qed.

Lemma resize_wf b m n o b' m' :
  wf b m → no_wrap b m n → 0 <= n → resize b m n = (o, (b', m')) → wf b' m'.
Proof.
  intros Hwf Hnw Hn Hrun. unfold resize, reserve in Hrun.
  destruct (reserve_loop (replies m) b m n) as [b1 m1] eqn:Hloop.
  destruct (reserve_loop_reserved _ b m n b1 m1 eq_refl Hwf Hnw Hloop) as [js Hres].
  destruct Hres as [_ _ _ _ _ _ _ _ Hwf1].
  destruct (Z.leb_spec n (currentCapacity_ b1)); inversion Hrun; subst; [|done].
  by apply wf_set_size.
Qed.

Lemma getNextBlock_wf b m o b' m' :
  wf b m → currentCapacity_ b + blockSize_ b < U64 →
  getNextBlock b m = (o, (b', m')) → wf b' m'.
Proof.
  intros Hwf Hov Hrun. pose proof Hwf as [Hbs Hcap Hc64 Hsz Hbl Hnd Hfr].
  destruct (Z.lt_ge_cases (currentSize_ b) (currentCapacity_ b)) as [Hlt|Hge].
  - destruct (getNextBlock_spare b m Hwf Hlt) as (a & bytes & _ & _ & _ & Heq).
    rewrite Heq in Hrun. inversion Hrun; subst.
    apply wf_set_size; [done|].
    pose proof (next_boundary_le _ _ _ _ (proj1 Hbs) (proj1 Hsz) Hlt Hcap).
    destruct (div_bounds (currentSize_ b) (blockSize_ b)) as (? & ? & _); lia.
  - assert (Heq : currentSize_ b = currentCapacity_ b) by lia.
    destruct (replies m) as [|[junk|] rest] eqn:Hrep.
    + destruct (getNextBlock_refused b m Hwf Hov Heq) as (m1 & Hnb & Hh & Hn); [by left|].
      rewrite Hnb in Hrun. inversion Hrun; subst.
      destruct Hwf. constructor; try done; by rewrite ?Hh, ?Hn.
    + rewrite (getNextBlock_grow b m junk rest Hwf Hov Heq Hrep) in Hrun.
      inversion Hrun; subst.
      pose proof (wf_push_block b m junk rest Hwf Hov) as [? Hcap1 ? ? ? ? ?].
      simpl in *. rewrite add64_small in * by lia.
      constructor; simpl; try done; lia.
    + destruct (getNextBlock_refused b m Hwf Hov Heq) as (m1 & Hnb & Hh & Hn);
        [right; by exists rest|].
      rewrite Hnb in Hrun. inversion Hrun; subst.
      destruct Hwf. constructor; try done; by rewrite ?Hh, ?Hn.
Qed.

(** ** Flushes that complete *)

Lemma writeTo_flushes b w :
  wf b (pool w) → 0 < currentSize_ b →
  0 < naturalWriteSize (sink w) → accepts (sink w) = None →
  scratch_granted b (Z.min (naturalWriteSize (sink w)) MAX_CHUNK_SIZE) (pool w) →
  ∃ ws w', writeTo b w = (Ok tt, w') ∧
           flushed b (Z.min (naturalWriteSize (sink w)) MAX_CHUNK_SIZE) w w' ws.
Proof.
  intros Hwf Hs Hnat Hacc [Hz|Hgr]; [lia|].
  destruct (fast_path b (Z.min (naturalWriteSize (sink w)) MAX_CHUNK_SIZE)) eqn:Hfast.
  - destruct (writeTo_fast b w Hwf Hs Hnat Hacc Hfast) as (ws & w' & Hrun & Hfl & _).
    by exists ws, w'.
  - destruct Hgr as [Hgr|(junk & rest & Hrep)]; [done|].
    destruct (writeTo_general b w junk rest Hwf Hs Hnat Hacc Hfast Hrep)
      as (ws & w' & Hrun & Hfl & _).
    by exists ws, w'.
Qed.

Lemma total_size_uniform vs bs :
  Forall (λ v, size v = bs) vs → total_size vs = Z.of_nat (length vs) * bs.
Proof. induction 1 as [|v vs Hv _ IH]; simpl; [done|]. rewrite Hv, IH. lia. Qed.

(** Construction followed by a successful run of the producer. *)
Lemma construct_produce_inv m bs ds vs b m' :
  pool_wf m → 0 < bs < U64 → Z.of_nat (length ds) * bs < U64 →
  construct_produce m bs ds = (Ok vs, (b, m')) →
  wf b m' ∧ blockSize_ b = bs ∧ currentSize_ b = total_size vs ∧
  0 <= total_size vs ∧ Forall (λ v, size v = bs) vs ∧
  (∀ junk rest, replies m = Some junk :: rest →
     currentCapacity_ b = Z.max bs (total_size vs)) ∧
  ∃ rs, Forall2 (λ d r, d `prefix_of` r) ds rs ∧
        Forall2 (λ r v, Z.of_nat (length r) = size v) rs vs ∧
        contents b (heap m') = concat rs.
Proof.
  intros Hpw Hbs Hov Hrun. unfold construct_produce in Hrun.
  destruct (construct m bs) as [[[]| | |] [b0 m0]] eqn:Hc; try by inversion Hrun.
  destruct (construct_wf m bs b0 m0 Hpw Hbs Hc) as (Hwf0 & Hbs0 & Hs0 & Hcap0).
  destruct (produce_inv ds b0 m0 vs b m' Hwf0) as
    (Hwf & Hbs' & Htot & Hs & Hcap & Hfull & rs & Hpre & Hlen & Hcont); [|done|].
  { rewrite Hs0, Hbs0. lia. }
  rewrite Hbs0, Hs0 in *. split_and!; try done; try lia.
  - apply Hfull. by rewrite Z.mod_0_l by lia.
  - intros junk rest Hrep. destruct (Hcap0 junk rest Hrep) as [Hc0 _].
    rewrite Hcap, Hc0, Hs. done.
  - exists rs. split_and!; try done. rewrite Hcont.
    unfold contents at 1. by rewrite Hs0.
Qed.

Lemma ceil_div_split n k o :
  0 < n → 0 <= k → 0 <= o < n →
  ceil_div (k * n + o) n = k + (if o =? 0 then 0 else 1).
Proof.
  intros Hn Hk Ho. rewrite <- length_chunk_sizes by nia.
  rewrite chunk_sizes_split by lia. rewrite length_app, repeat_length.
  destruct (o =? 0); simpl; lia.
Qed.

(** ** Runs of the producer on a pool that serves *)

Lemma serves_S n m :
  serves (S n) m →
  ∃ junk rest, replies m = Some junk :: rest ∧
               ∀ nb h, serves n (mkPool rest nb h).
Proof.
  intros (js & rest & Hrep & Hlen). destruct js as [|j js]; [done|].
  exists j, (map Some js ++ rest). split; [done|].
  intros nb h. exists js, rest. simpl in *. split; [done | lia].
Qed.

Lemma serves_replies n m m' : replies m' = replies m → serves n m → serves n m'.
Proof. intros Heq (js & rest & Hrep & Hlen). exists js, rest. by rewrite Heq. Qed.

(** With [f] owned blocks still unused and a pool that serves the requests
    for the others, a run of the producer goes through. *)
Lemma produce_runs ds : ∀ b m (f : nat),
  wf b m → currentCapacity_ b = currentSize_ b + Z.of_nat f * blockSize_ b →
  currentSize_ b + Z.of_nat (length ds) * blockSize_ b < U64 →
  Forall (λ d, Z.of_nat (length d) <= blockSize_ b) ds →
  serves (length ds - f) m →
  ∃ vs b' m', produce ds (b, m) = (Ok vs, (b', m')).
Proof.
  induction ds as [|d ds IH]; intros b m f Hwf Hf Hov Hds Hsv; simpl.
  { by eexists _, _, _. }
  pose proof Hwf as [Hbs Hcap Hc64 Hsz Hbl Hnd Hfr].
  apply Forall_cons in Hds as [Hd Hds]. simpl length in Hov.
  destruct f as [|f].
  - assert (Heq : currentSize_ b = currentCapacity_ b) by lia.
    simpl in Hsv. apply serves_S in Hsv as (junk & rest & Hrep & Hsv).
    destruct (acquire_fill_grow b m d junk rest Hwf ltac:(nia) Heq Hrep Hd)
      as (v & b1 & m1 & slack & Hrun & _ & Hrep1 & Hwf1 & Hbs1 & Hs1 & Hc1 & _).
    rewrite Hrun.
    destruct (IH b1 m1 0%nat) as (vs & b' & m' & Hrest); try done.
    + lia.
    + rewrite Hs1, Hbs1. nia.
    + by rewrite Hbs1.
    + rewrite Nat.sub_0_r. destruct m1 as [r1 n1 h1]. simpl in Hrep1. subst r1. apply Hsv.
    + rewrite Hrest. by eexists _, _, _.
  - assert (Hlt : currentSize_ b < currentCapacity_ b) by nia.
    assert (Hmod : currentSize_ b mod blockSize_ b = 0).
    { replace (currentSize_ b)
        with ((Z.of_nat (length (blocks_ b)) - Z.of_nat (S f)) * blockSize_ b) by lia.
      apply Z.mod_mul. lia. }
    assert (Hnext : (currentSize_ b / blockSize_ b + 1) * blockSize_ b
                    = currentSize_ b + blockSize_ b).
    { destruct (div_bounds (currentSize_ b) (blockSize_ b)) as (_ & _ & _ & H3); lia. }
    destruct (acquire_fill_spare b m d Hwf Hlt ltac:(lia))
      as (v & m1 & slack & Hrun & _ & Hrep1 & Hwf1 & _).
    rewrite Hrun. rewrite Hnext in *.
    destruct (IH (set_size (currentSize_ b + blockSize_ b) b) m1 f)
      as (vs & b' & m' & Hrest); try done.
    + simpl. lia.
    + simpl. nia.
    + simpl in Hsv. by apply (serves_replies _ m).
    + rewrite Hrest. by eexists _, _, _.
Qed.

Lemma least_multiple_ge_max bs total (k : nat) :
  0 < bs → total = Z.of_nat k * bs →
  least_multiple_ge bs (Z.max total 1) (Z.max bs total).
Proof.
  intros Hbs ->. destruct k as [|k].
  - change (Z.of_nat 0 * bs) with 0.
    rewrite (Z.max_r 0 1), (Z.max_l bs 0) by lia.
    split_and!; [apply Z.divide_refl | lia |].
    intros m' [q ->] Hge. assert (0 < q) by nia. nia.
  - rewrite (Z.max_r bs) by nia. rewrite Z.max_l by nia.
    split_and!; [by apply Z.divide_factor_r | lia | ]. intros m' _ Hge. lia.
Qed.

(** ** The zero-copy read adapter *)

Lemma run_keeps_buffers cs : ∀ s bb,
  bb ∈ ZeroCopy.readBuffers s → Forall ZeroCopy.keeps cs →
  bb ∈ ZeroCopy.readBuffers (ZeroCopy.run cs s).
Proof.
  induction cs as [|c cs IH]; intros s bb Hin Hk; [done|].
  apply Forall_cons in Hk as [Hc Hk]. unfold ZeroCopy.run in *. simpl.
  apply IH; [|done].
  destruct c as [maxLength verify|buffer| |]; simpl in *; try done.
  unfold ZeroCopy.readBuffer. destruct (ZeroCopy.pending s) as [|[bb'|] rest]; simpl;
    set_solver.
Qed.

Lemma run_extends_calls cs : ∀ s,
  ∃ l, ZeroCopy.calls (ZeroCopy.run cs s) = ZeroCopy.calls s ++ l.
Proof.
  induction cs as [|c cs IH]; intros s; unfold ZeroCopy.run in *; simpl.
  { exists []. by rewrite app_nil_r. }
  destruct (IH (ZeroCopy.step s c)) as [l Hl]. rewrite Hl.
  assert (∃ l0, ZeroCopy.calls (ZeroCopy.step s c) = ZeroCopy.calls s ++ l0) as [l0 ->].
  { destruct c as [maxLength verify|buffer| |]; simpl.
    - unfold ZeroCopy.readBuffer. destruct (ZeroCopy.pending s) as [|[bb'|] rest]; simpl;
        eauto. exists []. by rewrite app_nil_r.
    - eauto.
    - eauto.
    - rewrite <- app_assoc. eauto. }
  exists (l0 ++ l). by rewrite app_assoc.
Qed.

(** ** The sample states are well formed *)

Lemma pool_of_wf rs : pool_wf (pool_of rs).
Proof. intros a _. apply lookup_empty. Qed.

Lemma wf_empty bs m : pool_wf m → 0 < bs < U64 → wf (mkBuffer [] 0 0 bs) m.
Proof.
  intros Hp Hbs. constructor; simpl; try done; try lia. apply NoDup_nil_2.
Qed.

Lemma sample_state_wf : wf (fst sample_state) (snd sample_state).
Proof.
  destruct (construct_wf (pool_of [zeroed; zeroed]) 64
              (mkBuffer [Ptr 0 0] 0 64 64) (mkPool [zeroed] 1 {[ 0%nat := fresh_bytes (λ _, Byte.x00) 64 ]}))
    as (Hwf & _); [apply pool_of_wf | done | reflexivity |].
  apply (wf_set_size _ _ 10) in Hwf; [|simpl; lia]. exact Hwf.
Qed.

Lemma sample_run_wf : wf (fst (snd sample_run)) (snd (snd sample_run)).
Proof.
  destruct (construct_produce_inv (pool_of [zeroed; zeroed; zeroed]) 4 sample_data
              (value_of [] (fst sample_run)) (fst (snd sample_run)) (snd (snd sample_run)))
    as (Hwf & _); [apply pool_of_wf | done | done | reflexivity | exact Hwf].
Qed.

Lemma scenarioB_wf : wf (fst scenarioB_state) (pool scenarioB_world).
Proof.
  set (d := repeat Byte.x2a 64).
  set (m := mkPool (repeat (Some (λ _, Byte.x00)) 4) 0 ∅).
  destruct (construct_produce_inv m 64 [d; d; d]
              (value_of [] (fst (construct_produce m 64 [d; d; d])))
              (fst scenarioB_state) (snd scenarioB_state)) as (Hwf & _).
  - intros a _. apply lookup_empty.
  - done.
  - done.
  - reflexivity.
  - exact Hwf.
Qed.

(** ** The sink's answer left open *)

Lemma writeTo_asking_sink b : writeTo_asking getNaturalWriteSize b = writeTo b.
Proof. reflexivity. Qed.

(** * The properties of the specification *)

(** C1. Round trip: after construction with any block size [bs > 0] and any
    successful run of the producer, in which each acquired region receives
    bytes from its start, a flush to a sink that records what it receives
    and reports any positive natural write size completes (on the
    single-write path, or on the scratch path when the pool grants the chunk)
    and the concatenation of the byte ranges the sink received is the
    concatenation, in acquisition order, of the regions [rs]: each region has
    the length of its view and begins with the bytes the producer stored in
    it. When every region is filled to its end the regions are the
    producer's byte strings themselves, so the sink has received exactly the
    bytes the producer wrote, none added, missing or out of order. *)
Theorem writeTo_roundtrip m bs ds vs b m' snk mt :
  pool_wf m → 0 < bs < U64 → Z.of_nat (length ds) * bs < U64 →
  construct_produce m bs ds = (Ok vs, (b, m')) →
  0 < naturalWriteSize snk → accepts snk = None →
  scratch_granted b (Z.min (naturalWriteSize snk) MAX_CHUNK_SIZE) m' →
  ∃ w' rs,
    writeTo b (mkWorld m' snk mt) = (Ok tt, w') ∧
    concat (written (sink w')) = concat (written snk) ++ concat rs ∧
    Forall2 (λ d r, d `prefix_of` r) ds rs ∧
    Forall2 (λ r v, Z.of_nat (length r) = size v) rs vs ∧
    (Forall2 (λ d v, Z.of_nat (length d) = size v) ds vs →
       concat (written (sink w')) = concat (written snk) ++ concat ds).
Proof.
  intros Hpw Hbs Hov Hrun Hnat Hacc Hgr.
  destruct (construct_produce_inv m bs ds vs b m' Hpw Hbs Hov Hrun)
    as (Hwf & Hbsz & Hs & Htot & Hvs & _ & rs & Hpre & Hlen & Hcont).
  assert (Hout : ∃ w', writeTo b (mkWorld m' snk mt) = (Ok tt, w') ∧
                       concat (written (sink w')) = concat (written snk) ++ concat rs).
  { destruct (Z.eq_dec (currentSize_ b) 0) as [Hz|Hnz].
    - exists (mkWorld m' snk mt). unfold writeTo. rewrite Hz. simpl. split; [done|].
      rewrite <- Hcont. pose proof (length_contents b m' Hwf) as Hl. rewrite Hz in Hl.
      destruct (contents b (heap m')); [by rewrite app_nil_r | simpl in Hl; lia].
    - destruct (writeTo_flushes b (mkWorld m' snk mt)) as (ws & w' & Heq & Hfl);
        simpl; try done; [lia|].
      exists w'. split; [done|].
      destruct Hfl as [Hwr Hbytes _ _ _ _]. simpl in *.
      by rewrite Hwr, concat_app, Hbytes, Hcont. }
  destruct Hout as (w' & Heq & Hout).
  exists w', rs. split_and!; try done.
  intros Hfill.
  assert (rs = ds) as <- by (eapply Forall2_same_length_prefix; eassumption).
  done.
Qed.

Lemma writeTo_roundtrip_witness :
  ∃ w', writeTo (fst (snd sample_run))
                (mkWorld (snd (snd sample_run)) (mkSink 3 [] None) None) = (Ok tt, w') ∧
        concat (written (sink w')) =
          [Byte.x01; Byte.x02; Byte.x03; Byte.x04; Byte.x05; Byte.x06; Byte.x07; Byte.x08].
Proof.
  destruct (writeTo_roundtrip (pool_of [zeroed; zeroed; zeroed]) 4 sample_data
              (value_of [] (fst sample_run)) (fst (snd sample_run)) (snd (snd sample_run))
              (mkSink 3 [] None) None) as (w' & rs & Hrun & _ & _ & _ & Hout).
  - apply pool_of_wf.
  - done.
  - done.
  - reflexivity.
  - done.
  - done.
  - right. right. eexists _, _. reflexivity.
  - exists w'. split; [exact Hrun|]. apply Hout. repeat constructor.
Defined.

(** C2. What the code does when a write of the sink raises on the general
    path: for every well-formed non-empty buffer, with the scratch chunk
    granted by the pool at its next base, and a sink that accepts only [k]
    writes where the flush needs more, [writeTo] ends with the I/O error
    after those [k] writes, the metrics counter untouched, and the scratch
    chunk still allocated in the pool: [memoryPool_.free(chunk)] is reached
    on the normal path only. *)
Theorem writeTo_io_error_keeps_scratch b w junk rest (k : nat) :
  wf b (pool w) → 0 < currentSize_ b → 0 < naturalWriteSize (sink w) →
  fast_path b (Z.min (naturalWriteSize (sink w)) MAX_CHUNK_SIZE) = false →
  replies (pool w) = Some junk :: rest →
  accepts (sink w) = Some k →
  Z.of_nat k < ceil_div (currentSize_ b) (Z.min (naturalWriteSize (sink w)) MAX_CHUNK_SIZE) →
  ∃ w', writeTo b w = (Throw IOError, w') ∧
        heap (pool w) !! next_base (pool w) = None ∧
        is_Some (heap (pool w') !! next_base (pool w)) ∧
        metrics w' = metrics w ∧
        length (written (sink w')) = (length (written (sink w)) + k)%nat.
Proof.
  intros Hwf Hs Hnat Hfast Hrep Hacc Hk. pose proof Hwf as [Hbs Hcap Hc64 Hsz Hbl Hnd Hfr].
  rewrite (writeTo_general_unfold b w junk rest) by (done || lia).
  set (n := Z.min (naturalWriteSize (sink w)) MAX_CHUNK_SIZE) in *.
  assert (Hn : 0 < n < U64) by (subst n; unfold MAX_CHUNK_SIZE, U64; lia).
  destruct (scratch_copy b w junk rest Hwf Hs Hnat)
    as [(o & io & w1 & Hrun & Hst)|(w1 & Hrun & Hstall)]; fold n in Hrun.
  - pose proof (staged_count _ _ _ _ _ _ _ Hst) as Hcount.
    rewrite (length_contents b (pool w) Hwf) in Hcount.
    destruct Hst as (cb & ws & Hcb & Hcbl & Hframe & Hrep1 & Hnext1 & Hnat1 & Hacc1 & Hmet1
                     & Hwr & Hall & Hdone & Ho & Hio).
    simpl in Hacc1, Hmet1, Hwr. rewrite Hacc in Hacc1.
    destruct (accepts (sink w1)) as [a|] eqn:Hacc1'; [|done]. simpl in Hacc1.
    rewrite Hcount in Hk. rewrite ceil_div_split in Hk by lia.
    destruct (Z.eqb_spec o 0) as [Ho0|Ho0]; [lia|].
    assert (a = 0%nat) by lia. subst a.
    exists w1. split_and!.
    + apply bind_throw. erewrite bind_ok; [|exact Hrun]. simpl.
      destruct (Z.eqb_spec o 0); [lia|].
      apply bind_throw. apply bind_throw.
      apply (output_write_refused w1 _ 0 o cb); auto; lia.
    + apply Hfr. lia.
    + by rewrite Hcb.
    + done.
    + rewrite Hwr, length_app. lia.
  - destruct Hstall as (cb & ws & Hcb & _ & _ & _ & Hmet & Hwr & Hspent).
    simpl in Hmet, Hwr, Hspent. rewrite Hacc in Hspent. inversion Hspent; subst k.
    exists w1. split_and!.
    + apply bind_throw. apply bind_throw. exact Hrun.
    + apply Hfr. lia.
    + by rewrite Hcb.
    + done.
    + by rewrite Hwr, length_app.
Qed.

(** The failing input: block size 4, two regions filled, a sink of natural
    write size 3 whose first write raises an I/O error. *)
Lemma writeTo_io_error_keeps_scratch_witness :
  let b := fst (snd sample_run) in
  let w := mkWorld (snd (snd sample_run)) (mkSink 3 [] (Some 0%nat)) None in
  ∃ w', writeTo b w = (Throw IOError, w') ∧
        heap (pool w) !! 2%nat = None ∧ is_Some (heap (pool w') !! 2%nat).
Proof.
  destruct (writeTo_io_error_keeps_scratch (fst (snd sample_run))
              (mkWorld (snd (snd sample_run)) (mkSink 3 [] (Some 0%nat)) None)
              (λ _, Byte.x00) [] 0)
    as (w' & Hrun & Hfresh & Hlive & _).
  - exact sample_run_wf.
  - done.
  - done.
  - reflexivity.
  - reflexivity.
  - reflexivity.
  - reflexivity.
  - exists w'. split_and!; [exact Hrun | exact Hfresh | exact Hlive].
Defined.

(** The same input run on the model: the error leaves the chunk at base 2
    allocated, holding the three bytes copied so far, while the flush on a
    sink that accepts the writes releases it. *)
Example writeTo_io_error_run :
  let b := fst (snd sample_run) in
  let m := snd (snd sample_run) in
  let failing := writeTo b (mkWorld m (mkSink 3 [] (Some 0%nat)) None) in
  let accepting := writeTo b (mkWorld m (mkSink 3 [] None) None) in
  heap m !! 2%nat = None ∧
  fst failing = Throw IOError ∧
  heap (pool (snd failing)) !! 2%nat = Some [Byte.x01; Byte.x02; Byte.x03] ∧
  fst accepting = Ok tt ∧
  heap (pool (snd accepting)) !! 2%nat = None.
Proof. vm_compute. done. Qed.

(** C3. [getNextBlock()] on a buffer with spare room returns the unused tail
    of the block that holds offset [usedSize], of length
    [blockSize - usedSize mod blockSize], and moves [usedSize] to the next
    block boundary; on a full buffer, when the pool grants a block, it grows
    the capacity by exactly one block and returns the whole new block; when
    the pool returns null it raises the resize error and changes nothing of
    the buffer. In every case the used size after the call is a multiple of
    the block size. *)
Theorem getNextBlock_spec b m :
  wf b m → currentCapacity_ b + blockSize_ b < U64 →
  (currentSize_ b < currentCapacity_ b →
     ∃ a, blocks_ b !! Z.to_nat (currentSize_ b / blockSize_ b) = Some (Ptr a 0) ∧
          getNextBlock b m =
            (Ok (mkBlock (Ptr a (currentSize_ b mod blockSize_ b))
                         (blockSize_ b - currentSize_ b mod blockSize_ b)),
             (set_size ((currentSize_ b / blockSize_ b + 1) * blockSize_ b) b, m))) ∧
  (currentSize_ b = currentCapacity_ b →
     (∀ junk rest, replies m = Some junk :: rest →
        getNextBlock b m =
          (Ok (mkBlock (Ptr (next_base m) 0) (blockSize_ b)),
           (mkBuffer (blocks_ b ++ [Ptr (next_base m) 0])
                     (currentSize_ b + blockSize_ b)
                     (currentCapacity_ b + blockSize_ b) (blockSize_ b),
            mkPool rest (S (next_base m))
                   (<[next_base m := fresh_bytes junk (blockSize_ b)]> (heap m))))) ∧
     (refuses m → ∃ m', getNextBlock b m = (Throw LogicError, (b, m')))) ∧
  currentSize_ (fst (snd (getNextBlock b m))) mod blockSize_ b = 0.
Proof.
  intros Hwf Hov. pose proof Hwf as [Hbs Hcap Hc64 Hsz Hbl Hnd Hfr].
  split_and!.
  - intros Hlt. destruct (getNextBlock_spare b m Hwf Hlt) as (a & bytes & Hlk & _ & _ & Heq).
    by exists a.
  - intros Heq. split.
    + intros junk rest Hrep. by apply getNextBlock_grow.
    + intros Hr. destruct (getNextBlock_refused b m Hwf Hov Heq Hr) as (m' & Hnb & _).
      by exists m'.
  - destruct (Z.lt_ge_cases (currentSize_ b) (currentCapacity_ b)) as [Hlt|Hge].
    + destruct (getNextBlock_spare b m Hwf Hlt) as (a & bytes & _ & _ & _ & ->).
      simpl. apply Z.mod_mul. lia.
    + assert (Heq : currentSize_ b = currentCapacity_ b) by lia.
      assert (Hmul : (currentSize_ b + blockSize_ b) mod blockSize_ b = 0).
      { rewrite Heq, Hcap.
        replace (Z.of_nat (length (blocks_ b)) * blockSize_ b + blockSize_ b)
          with ((Z.of_nat (length (blocks_ b)) + 1) * blockSize_ b) by lia.
        apply Z.mod_mul. lia. }
      destruct (replies m) as [|[junk|] rest] eqn:Hrep.
      * destruct (getNextBlock_refused b m Hwf Hov Heq) as (m' & -> & _); [by left|].
        simpl. rewrite Heq, Hcap. apply Z.mod_mul. lia.
      * rewrite (getNextBlock_grow b m junk rest Hwf Hov Heq Hrep). simpl. done.
      * destruct (getNextBlock_refused b m Hwf Hov Heq) as (m' & -> & _);
          [right; by exists rest|].
        simpl. rewrite Heq, Hcap. apply Z.mod_mul. lia.
Qed.

Lemma getNextBlock_spec_witness :
  wf (fst sample_state) (snd sample_state) ∧
  currentCapacity_ (fst sample_state) + blockSize_ (fst sample_state) < U64 ∧
  getNextBlock (fst sample_state) (snd sample_state)
    = (Ok (mkBlock (Ptr 0 10) 54), (set_size 64 (fst sample_state), snd sample_state)) ∧
  currentSize_ (fst (snd (getNextBlock (fst sample_state) (snd sample_state)))) mod 64 = 0.
Proof.
  assert (Hov : currentCapacity_ (fst sample_state) + blockSize_ (fst sample_state) < U64)
    by reflexivity.
  split; [exact sample_state_wf|]. split; [exact Hov|].
  destruct (getNextBlock_spec _ _ sample_state_wf Hov) as (Hspare & _ & Hmod).
  split; [|exact Hmod].
  destruct Hspare as (a & Hlk & Heq); [reflexivity|].
  rewrite Heq. vm_compute in Hlk. inversion Hlk. reflexivity.
Defined.

(** C4 as amended. For every block size [bs > 0] and every sequence of
    write-acquisitions on a pool that serves every request, with [L] the sum
    of the lengths of the regions returned, the capacity after the sequence is
    the smallest multiple of [bs] that is at least [max(L, 1)]: the smallest
    multiple of [bs] at least [L] for a non-empty sequence, and one block,
    [bs], for the empty sequence right after construction. *)
Theorem capacity_after_acquisitions m bs ds :
  pool_wf m → 0 < bs < U64 → Z.of_nat (length ds) * bs < U64 →
  Forall (λ d, Z.of_nat (length d) <= bs) ds →
  serves (Nat.max 1 (length ds)) m →
  ∃ vs b m',
    construct_produce m bs ds = (Ok vs, (b, m')) ∧ length vs = length ds ∧
    least_multiple_ge bs (Z.max (total_size vs) 1) (currentCapacity_ b) ∧
    (ds ≠ [] → least_multiple_ge bs (total_size vs) (currentCapacity_ b)) ∧
    (ds = [] → total_size vs = 0 ∧ currentCapacity_ b = bs).
Proof.
  intros Hpw Hbs Hov Hds Hsv.
  assert (Hsv1 : serves (S (length ds - 1)) m).
  { replace (S (length ds - 1)) with (Nat.max 1 (length ds)) by lia. done. }
  apply serves_S in Hsv1 as (junk & rest & Hrep & Hsv1).
  destruct (construct m bs) as [o0 [b0 m0]] eqn:Hc.
  assert (Ho0 : o0 = Ok tt).
  { unfold construct, reserve in Hc. destruct (Z.eqb_spec bs 0); [lia|]. by inversion Hc. }
  subst o0.
  destruct (construct_wf m bs b0 m0 Hpw Hbs Hc) as (Hwf0 & Hbs0 & Hs0 & Hcap0).
  destruct (Hcap0 junk rest Hrep) as [Hc0 Hrep0].
  destruct (produce_runs ds b0 m0 1%nat) as (vs & b & m' & Hrun); try done.
  { rewrite Hc0, Hs0, Hbs0. lia. }
  { rewrite Hs0, Hbs0. lia. }
  { by rewrite Hbs0. }
  { destruct m0 as [r0 n0 h0]. simpl in Hrep0. subst r0. apply Hsv1. }
  assert (Hcp : construct_produce m bs ds = (Ok vs, (b, m'))).
  { unfold construct_produce. by rewrite Hc. }
  destruct (construct_produce_inv m bs ds vs b m' Hpw Hbs Hov Hcp)
    as (Hwf & Hbsz & Hs & Htot & Hvs & Hcap & rs & Hpre & Hlen & Hcont).
  specialize (Hcap junk rest Hrep).
  assert (Hlvs : length vs = length ds).
  { apply Forall2_length in Hpre, Hlen. lia. }
  pose proof (total_size_uniform vs bs Hvs) as Htu.
  exists vs, b, m'. split_and!; try done.
  - rewrite Hcap. apply (least_multiple_ge_max bs _ (length vs)); [lia | done].
  - intros Hne. rewrite Hcap.
    pose proof (least_multiple_ge_max bs _ (length vs) ltac:(lia) Htu) as Hl.
    destruct ds as [|d ds']; [done|]. destruct vs as [|v vs']; [done|].
    simpl length in Htu.
    rewrite (Z.max_l (total_size (v :: vs')) 1) in Hl by nia. done.
  - intros ->. destruct vs; [|done]. simpl in *. split; [done | lia].
Qed.

Lemma capacity_after_acquisitions_witness :
  let r := construct_produce (pool_of [zeroed; zeroed; zeroed]) 4 sample_data in
  serves (Nat.max 1 (length sample_data)) (pool_of [zeroed; zeroed; zeroed]) ∧
  ∃ vs b m', r = (Ok vs, (b, m')) ∧ length vs = 2%nat ∧
             least_multiple_ge 4 (Z.max (total_size vs) 1) (currentCapacity_ b).
Proof.
  assert (Hsv : serves (Nat.max 1 (length sample_data)) (pool_of [zeroed; zeroed; zeroed])).
  { exists [λ _, Byte.x00; λ _, Byte.x00], [zeroed]. split; reflexivity. }
  split; [exact Hsv|].
  destruct (capacity_after_acquisitions (pool_of [zeroed; zeroed; zeroed]) 4 sample_data)
    as (vs & b & m' & Hrun & Hlen & Hcap & _).
  - apply pool_of_wf.
  - done.
  - done.
  - repeat constructor; simpl; lia.
  - exact Hsv.
  - exists vs, b, m'. split_and!; [exact Hrun | exact Hlen | exact Hcap].
Defined.

(** C4 as stated fails for the empty sequence: right after construction no
    region has been acquired ([L = 0]) and the smallest multiple of 64 that
    is at least 0 is 0, yet the capacity is the one block, 64, that the
    constructor reserves. *)
Lemma capacity_after_construction :
  let r := construct_produce (pool_of [zeroed; zeroed]) 64 [] in
  fst r = Ok [] ∧ total_size (value_of [] (fst r)) = 0 ∧
  currentCapacity_ (fst (snd r)) = 64 ∧
  least_multiple_ge 64 0 0 ∧ ¬ least_multiple_ge 64 0 64.
Proof.
  split_and!; try reflexivity.
  - split_and!; [apply Z.divide_0_r | lia | ]. intros m' [q ->] Hge. lia.
  - intros (_ & _ & Hmin). specialize (Hmin 0 (Z.divide_0_r 64)). lia.
Qed.

(** C5. [resize(targetSize)] first runs [reserve(targetSize)]; when the
    capacity reached is at least the target it sets the used size to the
    target, and otherwise it raises a logic error and leaves the used size at
    its value before the call (whatever blocks [reserve] obtained stay). On a
    well-formed buffer the error means that the pool returned null before the
    target was reached: the silent shortfall of [reserve] is reported here. *)
Theorem resize_spec b m n :
  ∃ b' m',
    reserve b m n = (Ok tt, (b', m')) ∧ currentSize_ b' = currentSize_ b ∧
    (n <= currentCapacity_ b' ∧
       resize b m n = (Ok tt, (set_size n b', m')) ∧
       currentSize_ (fst (snd (resize b m n))) = n
     ∨ currentCapacity_ b' < n ∧
       resize b m n = (Throw LogicError, (b', m')) ∧
       currentSize_ (fst (snd (resize b m n))) = currentSize_ b ∧
       (wf b m → no_wrap b m n →
        ∃ js : list (nat → Byte.byte),
          replies m = map Some js ∧ replies m' = []
          ∨ replies m = map Some js ++ None :: replies m')).
Proof.
  unfold resize, reserve.
  pose proof (reserve_loop_size (replies m) b m n) as [Hs _].
  destruct (reserve_loop (replies m) b m n) as [b' m'] eqn:Hloop. simpl in Hs.
  exists b', m'. split_and!; [done | done |].
  destruct (Z.leb_spec n (currentCapacity_ b')); [left | right]; split_and!; try done.
  intros Hwf Hnw.
  destruct (reserve_loop_reserved _ b m n b' m' eq_refl Hwf Hnw Hloop) as [js Hres].
  destruct Hres as [_ _ _ _ _ _ _ Hstop _]. exists js.
  destruct Hstop as [(Hge & _)|(_ & Hnull)]; [lia | done].
Qed.

(** Scenario C of the specification: a resize to 1000 on a pool that can
    supply capacity 960 only. *)
Lemma resize_spec_witness :
  let b := mkBuffer [] 0 0 64 in
  let m := pool_of (repeat zeroed 15) in
  fst (resize b m 1000) = Throw LogicError ∧
  currentCapacity_ (fst (snd (resize b m 1000))) = 960 ∧
  currentSize_ (fst (snd (resize b m 1000))) = currentSize_ b.
Proof.
  destruct (resize_spec (mkBuffer [] 0 0 64) (pool_of (repeat zeroed 15)) 1000)
    as (b' & m' & Hres & Hsize & [(Hge & _)|(Hlt & Hthrow & Hkeep & _)]).
  - vm_compute in Hres. inversion Hres; subst b'. simpl in Hge. lia.
  - split_and!; [by rewrite Hthrow | | exact Hkeep].
    rewrite Hthrow. vm_compute in Hres. inversion Hres; subst b'. reflexivity.
Defined.

(** C6. [reserve(targetCapacity)] never raises: it requests one block of
    [blockSize_] bytes at a time, appends each block the pool grants (the
    capacity growing by [blockSize_] each time), and stops either as soon as
    the capacity has reached the target or when the pool returns null; in the
    latter case the capacity stays at the multiple of [blockSize_] reached so
    far, below the target, and the used size is untouched in both cases. *)
Theorem reserve_best_effort b m n :
  wf b m → no_wrap b m n →
  ∃ b' m' (js : list (nat → Byte.byte)),
    reserve b m n = (Ok tt, (b', m')) ∧
    blocks_ b' = blocks_ b ++ map (λ i, Ptr (next_base m + i) 0) (seq 0 (length js)) ∧
    (∀ (i : nat) j, js !! i = Some j →
       heap m' !! (next_base m + i)%nat = Some (fresh_bytes j (blockSize_ b))) ∧
    currentCapacity_ b' = currentCapacity_ b + Z.of_nat (length js) * blockSize_ b ∧
    currentCapacity_ b' = Z.of_nat (length (blocks_ b')) * blockSize_ b ∧
    currentSize_ b' = currentSize_ b ∧ blockSize_ b' = blockSize_ b ∧
    (n <= currentCapacity_ b' ∧ (js = [] ∨ currentCapacity_ b' - blockSize_ b < n) ∧
       replies m = map Some js ++ replies m'
     ∨ currentCapacity_ b' < n ∧
       (replies m = map Some js ∧ replies m' = []
        ∨ replies m = map Some js ++ None :: replies m')).
Proof.
  intros Hwf Hnw. unfold reserve.
  destruct (reserve_loop (replies m) b m n) as [b' m'] eqn:Hloop.
  destruct (reserve_loop_reserved _ b m n b' m' eq_refl Hwf Hnw Hloop) as [js Hres].
  destruct Hres as [Hb Hc Hs Hbsz Hn Ho Hnew Hstop Hw].
  exists b', m', js. split_and!; try done.
  destruct Hw as [_ Hcap' _ _ _ _ _]. by rewrite Hcap', Hbsz.
Qed.

Lemma reserve_best_effort_witness :
  let b := mkBuffer [] 0 0 64 in
  let m := pool_of [zeroed; zeroed; None; zeroed] in
  wf b m ∧ no_wrap b m 200 ∧
  fst (reserve b m 200) = Ok tt ∧
  currentCapacity_ (fst (snd (reserve b m 200))) = 128 ∧
  currentSize_ (fst (snd (reserve b m 200))) = 0 ∧
  replies (snd (snd (reserve b m 200))) = [zeroed].
Proof.
  assert (Hwf : wf (mkBuffer [] 0 0 64) (pool_of [zeroed; zeroed; None; zeroed])).
  { apply wf_empty; [apply pool_of_wf | done]. }
  assert (Hnw : no_wrap (mkBuffer [] 0 0 64) (pool_of [zeroed; zeroed; None; zeroed]) 200).
  { left. reflexivity. }
  split; [exact Hwf|]. split; [exact Hnw|].
  destruct (reserve_best_effort _ _ 200 Hwf Hnw) as (b' & m' & js & Heq & _).
  split; [by rewrite Heq|]. vm_compute. done.
Defined.

(** C7. A flush of a non-empty buffer that completes issues exactly
    [ceil(usedSize / chunkSize)] sink writes, with
    [chunkSize = min(naturalWriteSize, 1 GiB)]: [usedSize / chunkSize] writes
    of exactly [chunkSize] bytes followed, when [usedSize] is not a multiple
    of [chunkSize], by one write of the remainder; the bytes delivered add up
    to [usedSize], and the number of writes is what is added to the metrics
    counter when one is supplied. *)
Theorem writeTo_io_count b w :
  wf b (pool w) → 0 < currentSize_ b →
  0 < naturalWriteSize (sink w) → accepts (sink w) = None →
  scratch_granted b (Z.min (naturalWriteSize (sink w)) MAX_CHUNK_SIZE) (pool w) →
  ∃ ws w',
    writeTo b w = (Ok tt, w') ∧
    written (sink w') = written (sink w) ++ ws ∧
    Z.of_nat (length ws) =
      ceil_div (currentSize_ b) (Z.min (naturalWriteSize (sink w)) MAX_CHUNK_SIZE) ∧
    map (λ x, Z.of_nat (length x)) ws =
      chunk_sizes (Z.min (naturalWriteSize (sink w)) MAX_CHUNK_SIZE) (currentSize_ b) ∧
    Z.of_nat (length (concat ws)) = currentSize_ b ∧
    metrics w' =
      match metrics w with
      | None => None
      | Some count =>
          Some (add64 count
                  (ceil_div (currentSize_ b) (Z.min (naturalWriteSize (sink w)) MAX_CHUNK_SIZE)))
      end.
Proof.
  intros Hwf Hs Hnat Hacc Hgr.
  destruct (writeTo_flushes b w Hwf Hs Hnat Hacc Hgr) as (ws & w' & Hrun & Hfl).
  destruct Hfl as [Hwr Hbytes Hsizes Hmet _ _].
  set (n := Z.min (naturalWriteSize (sink w)) MAX_CHUNK_SIZE) in *.
  assert (Hn : 0 < n) by (subst n; unfold MAX_CHUNK_SIZE; lia).
  assert (Hcount : Z.of_nat (length ws) = ceil_div (currentSize_ b) n).
  { rewrite <- length_chunk_sizes by lia. rewrite <- Hsizes. by rewrite length_map. }
  exists ws, w'. split_and!; try done.
  - rewrite Hbytes. by apply length_contents.
  - by rewrite Hmet, Hcount.
Qed.

(** Scenario B: 192 bytes reach the sink in two writes, of 100 and 92 bytes. *)
Lemma writeTo_io_count_witness :
  ∃ ws w',
    scenarioB = (Ok tt, w') ∧ written (sink w') = ws ∧
    map (λ x, Z.of_nat (length x)) ws = [100; 92] ∧
    Z.of_nat (length (concat ws)) = 192 ∧ metrics w' = Some 2.
Proof.
  destruct (writeTo_io_count (fst scenarioB_state) scenarioB_world)
    as (ws & w' & Hrun & Hwr & _ & Hsizes & Htotal & Hmet).
  - exact scenarioB_wf.
  - done.
  - done.
  - done.
  - right. right. eexists _, _. reflexivity.
  - exists ws, w'. split_and!; [exact Hrun | exact Hwr | exact Hsizes | exact Htotal | exact Hmet].
Defined.

(** C8 as amended. With a sink that reports a natural write size of 0:
    for every buffer that holds data [writeTo] raises a logic error with the
    world exactly as it was, so nothing has been written to the sink and
    nothing has been requested from the pool; for every empty buffer
    [writeTo] returns normally with the world exactly as it was, and it does
    so without consulting the sink: the result is the same whatever the
    call of [getNaturalWriteSize()] would do (return any size, raise, or not
    return), because the call is not reached. *)
Theorem writeTo_zero_natural_size b w :
  naturalWriteSize (sink w) = 0 →
  (currentSize_ b ≠ 0 → writeTo b w = (Throw LogicError, w)) ∧
  (currentSize_ b = 0 →
     writeTo b w = (Ok tt, w) ∧
     ∀ ask : M Z, writeTo_asking ask b w = (Ok tt, w)).
Proof.
  intros Hnat. split.
  - intros Hs. unfold writeTo.
    destruct (Z.eqb_spec (currentSize_ b) 0); [done|].
    erewrite bind_ok; [|reflexivity]. rewrite Hnat. simpl. done.
  - intros Hs.
    assert (Hany : ∀ ask : M Z, writeTo_asking ask b w = (Ok tt, w)).
    { intros ask. unfold writeTo_asking. rewrite Hs. reflexivity. }
    split; [|exact Hany].
    rewrite <- writeTo_asking_sink. apply Hany.
Qed.

Lemma writeTo_zero_natural_size_witness :
  let w := mkWorld (snd sample_state) (mkSink 0 [] None) None in
  let e := snd (construct (pool_of [zeroed]) 64) in
  let we := mkWorld (snd e) (mkSink 0 [] None) None in
  naturalWriteSize (sink w) = 0 ∧ currentSize_ (fst sample_state) ≠ 0 ∧
  writeTo (fst sample_state) w = (Throw LogicError, w) ∧
  currentSize_ (fst e) = 0 ∧
  writeTo (fst e) we = (Ok tt, we) ∧
  writeTo_asking (throw IOError) (fst e) we = (Ok tt, we) ∧
  writeTo_asking (lift OutOfFuel) (fst e) we = (Ok tt, we).
Proof.
  intros w e we.
  assert (Hs : currentSize_ (fst sample_state) ≠ 0) by (by vm_compute).
  destruct (writeTo_zero_natural_size (fst sample_state) w eq_refl) as [Hthrow _].
  destruct (writeTo_zero_natural_size (fst e) we eq_refl) as [_ Hempty].
  destruct (Hempty eq_refl) as [Hret Hany].
  split; [reflexivity|]. split; [exact Hs|]. split; [exact (Hthrow Hs)|].
  split; [reflexivity|]. split; [exact Hret|].
  split; [exact (Hany (throw IOError)) | exact (Hany (lift OutOfFuel))].
Defined.

(** C8 as stated fails on an empty buffer: with a sink that reports a natural
    write size of 0, a flush of the buffer as constructed returns normally. *)
Lemma writeTo_zero_natural_size_empty :
  let s := snd (construct (pool_of [zeroed]) 64) in
  let w := mkWorld (snd s) (mkSink 0 [] None) None in
  fst (construct (pool_of [zeroed]) 64) = Ok tt ∧
  naturalWriteSize (sink w) = 0 ∧
  writeTo (fst s) w = (Ok tt, w).
Proof. vm_compute. done. Qed.

(** C9. On the general path of [writeTo] the pointer the pool returns for the
    scratch chunk goes to [memcpy] unchecked. When the pool returns null the
    first copy of the loop stores through the null pointer, which is
    undefined behaviour ([Fault]), before any write has reached the sink and
    without the metrics counter being touched; when the pool grants the chunk
    (and the sink accepts the writes) the flush completes. The loop is safe
    exactly under the precondition that the scratch allocation succeeds. *)
Theorem writeTo_scratch_unchecked b w :
  wf b (pool w) → 0 < currentSize_ b → 0 < naturalWriteSize (sink w) →
  fast_path b (Z.min (naturalWriteSize (sink w)) MAX_CHUNK_SIZE) = false →
  (refuses (pool w) →
     ∃ w', writeTo b w = (Fault, w') ∧
           written (sink w') = written (sink w) ∧ metrics w' = metrics w) ∧
  ((∃ junk rest, replies (pool w) = Some junk :: rest) → accepts (sink w) = None →
     ∃ w', writeTo b w = (Ok tt, w')).
Proof.
  intros Hwf Hs Hnat Hfast. pose proof Hwf as [Hbs Hcap Hc64 Hsz Hbl Hnd Hfr].
  set (n := Z.min (naturalWriteSize (sink w)) MAX_CHUNK_SIZE) in *.
  assert (Hn : 0 < n) by (subst n; unfold MAX_CHUNK_SIZE; lia).
  split.
  - intros Href.
    destruct (malloc_refused w n Href) as (w1 & Hm & Hh1 & Hsk1 & Hmt1).
    destruct (getBlockNumber_spec b) as (HN0 & HN & _); [lia..|].
    assert (HN1 : 0 < getBlockNumber b) by (apply HN; lia).
    destruct (getBlock_wf b (pool w) 0 Hwf) as (a & bytes & Hgb & _); [lia..|].
    exists w1. split; [|by rewrite Hsk1, Hmt1].
    unfold writeTo. destruct (Z.eqb_spec (currentSize_ b) 0); [lia|].
    erewrite bind_ok; [|reflexivity]. fold n.
    destruct (Z.eqb_spec n 0); [lia|].
    unfold fast_path in Hfast. rewrite Hfast.
    apply bind_fault. erewrite bind_ok; [|exact Hm].
    apply bind_fault.
    destruct (Z.to_nat (getBlockNumber b)) as [|todo] eqn:Htodo; [lia|]. simpl.
    erewrite bind_ok; [|by unfold lift; rewrite Hgb].
    apply bind_fault. simpl.
    destruct (Z.ltb_spec 0 (Z.min (currentSize_ b - 0 * blockSize_ b) (blockSize_ b))); [|lia].
    apply bind_fault. apply do_memcpy_null.
  - intros (junk & rest & Hrep) Hacc.
    destruct (writeTo_general b w junk rest Hwf Hs Hnat Hacc Hfast Hrep)
      as (ws & w' & Hrun & _).
    by exists w'.
Qed.

Lemma writeTo_scratch_unchecked_witness :
  let b := fst (snd sample_run) in
  let w := mkWorld (mkPool [] 2 (heap (snd (snd sample_run)))) (mkSink 3 [] None) (Some 0) in
  refuses (pool w) ∧
  ∃ w', writeTo b w = (Fault, w') ∧ written (sink w') = [] ∧ metrics w' = Some 0.
Proof.
  pose proof (wf_replies _ _ [] sample_run_wf) as Hwf.
  split; [by left|].
  destruct (writeTo_scratch_unchecked (fst (snd sample_run))
              (mkWorld (mkPool [] 2 (heap (snd (snd sample_run)))) (mkSink 3 [] None) (Some 0)))
    as [Hnull _].
  - exact Hwf.
  - done.
  - done.
  - reflexivity.
  - apply Hnull. by left.
Defined.

(** C10. Every buffer [readBuffer] returns is put in the tracking set
    [readBuffers]; the deprecated [releaseBuffer] hands its argument to the
    stream and leaves the set as it is, so a tracked buffer stays tracked
    through any calls of [readBuffer] and [releaseBuffer]; [releaseAllBuffers]
    hands each tracked buffer to the stream exactly once and empties the set;
    [close] is [releaseAllBuffers] followed by closing the stream. Hence a
    buffer that was read and then released through the deprecated call is
    handed to the stream a second time on [close]. *)
Theorem zero_copy_tracking :
  (∀ s maxLength verify bb s',
     ZeroCopy.readBuffer maxLength verify s = (ZeroCopy.Returns bb, s') →
     ZeroCopy.readBuffers s' = {[bb]} ∪ ZeroCopy.readBuffers s ∧
     bb ∈ ZeroCopy.readBuffers s') ∧
  (∀ s buffer,
     ZeroCopy.readBuffers (ZeroCopy.releaseBuffer buffer s) = ZeroCopy.readBuffers s ∧
     ZeroCopy.calls (ZeroCopy.releaseBuffer buffer s)
       = ZeroCopy.calls s ++ [ZeroCopy.ReleaseBuffer buffer]) ∧
  (∀ s cs bb,
     bb ∈ ZeroCopy.readBuffers s → Forall ZeroCopy.keeps cs →
     bb ∈ ZeroCopy.readBuffers (ZeroCopy.run cs s)) ∧
  (∀ s, ZeroCopy.readBuffers (ZeroCopy.releaseAllBuffers s) = ∅ ∧
        ∃ released,
          ZeroCopy.calls (ZeroCopy.releaseAllBuffers s)
            = ZeroCopy.calls s ++ map ZeroCopy.ReleaseBuffer released ∧
          NoDup released ∧ ∀ bb, bb ∈ released ↔ bb ∈ ZeroCopy.readBuffers s) ∧
  (∀ s, ZeroCopy.readBuffers (ZeroCopy.close s) = ∅ ∧
        ZeroCopy.calls (ZeroCopy.close s)
          = ZeroCopy.calls (ZeroCopy.releaseAllBuffers s) ++ [ZeroCopy.Close]) ∧
  (∀ s maxLength verify bb s1 cs1 cs2,
     ZeroCopy.readBuffer maxLength verify s = (ZeroCopy.Returns bb, s1) →
     Forall ZeroCopy.keeps cs1 → Forall ZeroCopy.keeps cs2 →
     ∃ l1 l2 l3,
       ZeroCopy.calls
         (ZeroCopy.close (ZeroCopy.run (cs1 ++ ZeroCopy.CallReleaseBuffer bb :: cs2) s1))
       = l1 ++ [ZeroCopy.ReleaseBuffer bb] ++ l2 ++ [ZeroCopy.ReleaseBuffer bb] ++ l3
         ++ [ZeroCopy.Close]).
Proof.
  assert (Hread : ∀ s maxLength verify bb s',
     ZeroCopy.readBuffer maxLength verify s = (ZeroCopy.Returns bb, s') →
     ZeroCopy.readBuffers s' = {[bb]} ∪ ZeroCopy.readBuffers s ∧
     bb ∈ ZeroCopy.readBuffers s').
  { intros s maxLength verify bb s' Hr. unfold ZeroCopy.readBuffer in Hr.
    destruct (ZeroCopy.pending s) as [|[bb'|] rest]; inversion Hr; subst; simpl;
      split; [done | set_solver | done | set_solver]. }
  split_and!.
  - exact Hread.
  - done.
  - intros s cs bb. apply run_keeps_buffers.
  - intros s. split; [done|]. exists (elements (ZeroCopy.readBuffers s)).
    split_and!; [done | apply NoDup_elements | intros bb; apply elem_of_elements].
  - done.
  - intros s maxLength verify bb s1 cs1 cs2 Hr Hk1 Hk2.
    apply Hread in Hr as [_ Hin].
    unfold ZeroCopy.run. rewrite foldl_app. simpl.
    fold (ZeroCopy.run cs1 s1).
    set (s2 := ZeroCopy.run cs1 s1).
    assert (Hin2 : bb ∈ ZeroCopy.readBuffers s2) by (by apply run_keeps_buffers).
    set (s3 := ZeroCopy.releaseBuffer bb s2).
    fold (ZeroCopy.run cs2 s3). set (s4 := ZeroCopy.run cs2 s3).
    assert (Hin4 : bb ∈ ZeroCopy.readBuffers s4) by (by apply run_keeps_buffers).
    destruct (run_extends_calls cs2 s3) as [l2 Hl2]. fold s4 in Hl2.
    apply elem_of_elements, list_elem_of_split in Hin4 as (e1 & e2 & He).
    exists (ZeroCopy.calls s2), (l2 ++ map ZeroCopy.ReleaseBuffer e1),
           (map ZeroCopy.ReleaseBuffer e2).
    simpl. rewrite Hl2, He. simpl. rewrite map_app. simpl.
    repeat (rewrite <- app_assoc; simpl). done.
Qed.

Lemma zero_copy_tracking_witness :
  let s := ZeroCopy.getZeroCopyReader [ZeroCopy.Returns (Some 7%nat)] in
  ZeroCopy.readBuffer 1024 false s =
    (ZeroCopy.Returns (Some 7%nat),
     ZeroCopy.mkAdapter {[Some 7%nat]} [ZeroCopy.Read 1024 true (Some 7%nat)] []) ∧
  ∃ l1 l2 l3,
    ZeroCopy.calls
      (ZeroCopy.close
         (ZeroCopy.run [ZeroCopy.CallReleaseBuffer (Some 7%nat)]
            (ZeroCopy.mkAdapter {[Some 7%nat]} [ZeroCopy.Read 1024 true (Some 7%nat)] [])))
    = l1 ++ [ZeroCopy.ReleaseBuffer (Some 7%nat)] ++ l2
         ++ [ZeroCopy.ReleaseBuffer (Some 7%nat)] ++ l3 ++ [ZeroCopy.Close].
Proof.
  assert (Hr : ZeroCopy.readBuffer 1024 false
                 (ZeroCopy.getZeroCopyReader [ZeroCopy.Returns (Some 7%nat)]) =
               (ZeroCopy.Returns (Some 7%nat),
                ZeroCopy.mkAdapter {[Some 7%nat]} [ZeroCopy.Read 1024 true (Some 7%nat)] [])).
  { unfold ZeroCopy.readBuffer, ZeroCopy.getZeroCopyReader. simpl.
    by rewrite (right_id_L ∅ (∪)). }
  split; [exact Hr|].
  destruct zero_copy_tracking as (_ & _ & _ & _ & _ & Hagain).
  exact (Hagain _ 1024 false (Some 7%nat) _ [] [] Hr (Forall_nil_2 _) (Forall_nil_2 _)).
Defined.

(** ** Runs on concrete inputs *)

Example construct_64 :
  construct (pool_of [zeroed]) 64 =
    (Ok tt, (mkBuffer [Ptr 0 0] 0 64 64,
             mkPool [] 1 {[ 0%nat := fresh_bytes (λ _, Byte.x00) 64 ]})).
Proof. reflexivity. Qed.

Example construct_zero_block_size :
  construct (pool_of [zeroed]) 0 = (Throw LogicError, (mkBuffer [] 0 0 0, pool_of [zeroed])).
Proof. reflexivity. Qed.

Example scenarioB_runs :
  fst scenarioB = Ok tt ∧
  map length (written (sink (snd scenarioB))) = [100%nat; 92%nat] ∧
  metrics (snd scenarioB) = Some 2 ∧
  heap (pool (snd scenarioB)) !! 3%nat = None.
Proof. vm_compute. done. Qed.

(** The flush of one partly used block, after a resize down to the ten bytes
    in use: the single-write path, ten bytes, one operation. *)
Example writeTo_single_block :
  let r := writeTo (fst sample_state)
                   (mkWorld (snd sample_state) (mkSink 1024 [] None) (Some 0)) in
  fst r = Ok tt ∧ map length (written (sink (snd r))) = [10%nat] ∧
  metrics (snd r) = Some 1 ∧ pool (snd r) = snd sample_state.
Proof. vm_compute. done. Qed.

(** Two blocks and a sink that prefers more than they hold: the scratch path
    with one write of all eight bytes. *)
Example writeTo_two_blocks_one_write :
  let r := writeTo (fst (snd sample_run))
                   (mkWorld (snd (snd sample_run)) (mkSink 1024 [] None) (Some 5)) in
  fst r = Ok tt ∧
  written (sink (snd r)) =
    [[Byte.x01; Byte.x02; Byte.x03; Byte.x04; Byte.x05; Byte.x06; Byte.x07; Byte.x08]] ∧
  metrics (snd r) = Some 6.
Proof. vm_compute. done. Qed.

(** The same blocks and a sink of natural write size 3: writes of 3, 3 and
    2 bytes. *)
Example writeTo_two_blocks_three_writes :
  let r := writeTo (fst (snd sample_run))
                   (mkWorld (snd (snd sample_run)) (mkSink 3 [] None) None) in
  fst r = Ok tt ∧
  written (sink (snd r)) =
    [[Byte.x01; Byte.x02; Byte.x03]; [Byte.x04; Byte.x05; Byte.x06]; [Byte.x07; Byte.x08]] ∧
  metrics (snd r) = None.
Proof. vm_compute. done. Qed.

Example getBlock_out_of_range :
  getBlock (fst (snd sample_run)) 2 = Throw OutOfRange ∧
  getBlock (fst sample_state) 0 = Ok (mkBlock (Ptr 0 0) 10).
Proof. vm_compute. done. Qed.

(** * Lemmas for further properties *)

(** ** The destructor *)

Lemma free_blocks_spec ps : ∀ m,
  NoDup ps → (∀ p, p ∈ ps → ∃ a, p = Ptr a 0 ∧ is_Some (heap m !! a)) →
  ∃ h', free_blocks ps m = (Ok tt, mkPool (replies m) (next_base m) h') ∧
        (∀ a, Ptr a 0 ∈ ps → h' !! a = None) ∧
        (∀ a, Ptr a 0 ∉ ps → h' !! a = heap m !! a).
Proof.
  induction ps as [|p ps IH]; intros m Hnd Hlive.
  - exists (heap m). simpl. destruct m. split_and!; [done | | done].
    intros a Ha. by apply elem_of_nil in Ha.
  - apply NoDup_cons in Hnd as [Hp Hnd].
    destruct (Hlive p) as (a & -> & [bytes Ha]); [left|].
    simpl. rewrite Ha.
    destruct (IH (mkPool (replies m) (next_base m) (delete a (heap m))) Hnd)
      as (h' & Hrun & Hin & Hout).
    + intros q Hq. destruct (Hlive q) as (a' & -> & Hs); [by right|].
      exists a'. split; [done|]. simpl. rewrite lookup_delete_ne; [done|].
      intros ->. done.
    + exists h'. simpl in *. split_and!; [done | |].
      * intros a' [Heq|Hin']%elem_of_cons; [|by apply Hin].
        inversion Heq; subst a'. rewrite Hout by done. apply lookup_delete_eq.
      * intros a' [Hne Hn]%not_elem_of_cons. rewrite Hout by done.
        apply lookup_delete_ne. congruence.
Qed.

Lemma wf_blocks_live b m (h : gmap nat (list Byte.byte)) :
  wf b m → (∀ a, (a < next_base m)%nat → h !! a = heap m !! a) →
  ∀ p, p ∈ blocks_ b → ∃ a, p = Ptr a 0 ∧ is_Some (h !! a).
Proof.
  intros Hwf Hh p [i Hi]%list_elem_of_lookup.
  destruct (wf_blocks _ _ Hwf _ _ Hi) as (a & bytes & -> & Hlt & Hlk & _).
  exists a. split; [done|]. rewrite Hh by done. by exists bytes.
Qed.

(** ** What the buffer owns *)

Lemma owned_since_start b m :
  pool_wf m → blocks_ b = [] → owned_since (next_base m) (heap m) b m.
Proof.
  intros Hp Hb. unfold owned_since. rewrite Hb. split_and!; [lia | done | |].
  - intros a o Ha. by apply elem_of_nil in Ha.
  - intros a Ha _. by apply Hp.
Qed.

Lemma reserve_loop_owned n0 h0 b m n b' m' :
  wf b m → no_wrap b m n → owned_since n0 h0 b m →
  reserve_loop (replies m) b m n = (b', m') → owned_since n0 h0 b' m'.
Proof.
  intros Hwf Hnw (Hn0 & Hold & Hge & Hfree) Hloop.
  destruct (reserve_loop_reserved _ b m n b' m' eq_refl Hwf Hnw Hloop) as [js Hres].
  destruct Hres as [Hb Hc Hs Hbsz Hn Ho Hnew Hstop Hw].
  unfold owned_since. rewrite Hb, Hn. split_and!.
  - lia.
  - intros a Ha. rewrite Ho by lia. by apply Hold.
  - intros a o [Hin|Hin]%elem_of_app; [by eapply Hge|].
    apply list_elem_of_fmap in Hin as (i & Heq & _). inversion Heq. lia.
  - intros a Ha [Hn1 Hn2]%not_elem_of_app.
    destruct (decide (a < next_base m)%nat) as [Hlt|Hnlt].
    { rewrite Ho by done. by apply Hfree. }
    destruct (decide (a < next_base m + length js)%nat) as [Hlt2|Hnlt2].
    + exfalso. apply Hn2. apply list_elem_of_fmap.
      exists (a - next_base m)%nat. split; [f_equal; lia|].
      apply elem_of_seq. lia.
    + apply (wf_fresh _ _ Hw). lia.
Qed.

Lemma owned_since_store n0 h0 b m a x :
  owned_since n0 h0 b m → Ptr a 0 ∈ blocks_ b →
  owned_since n0 h0 b (set_heap (<[a := x]> (heap m)) m).
Proof.
  intros (Hn0 & Hold & Hge & Hfree) Hin. unfold owned_since. simpl.
  pose proof (Hge _ _ Hin) as Ha. split_and!; [done | | done |].
  - intros a' Ha'. rewrite lookup_insert_ne by lia. by apply Hold.
  - intros a' Ha' Hn. rewrite lookup_insert_ne by (intros ->; done). by apply Hfree.
Qed.

Lemma acquire_fill_owned n0 h0 b m d v b' m' :
  wf b m → currentSize_ b + blockSize_ b < U64 → owned_since n0 h0 b m →
  acquire_fill d (b, m) = (Ok v, (b', m')) → owned_since n0 h0 b' m'.
Proof.
  intros Hwf Hov Hown Hrun. pose proof Hwf as [Hbs Hcap Hc64 Hsz Hbl Hnd Hfr].
  unfold acquire_fill in Hrun. simpl in Hrun.
  destruct (Z.lt_ge_cases (currentSize_ b) (currentCapacity_ b)) as [Hlt|Hge].
  - destruct (getNextBlock_spare b m Hwf Hlt) as (a & bytes & Hlk & Hh & Hlen & Hnb).
    rewrite Hnb in Hrun. simpl in Hrun.
    destruct (Z.of_nat (length d) <=? _); [|by inversion Hrun].
    rewrite Hh in Hrun.
    destruct (bool_decide _); inversion Hrun; subst.
    apply (owned_since_store n0 h0 (set_size _ b) m a); [done|].
    simpl. by eapply list_elem_of_lookup_2.
  - assert (Heq : currentSize_ b = currentCapacity_ b) by lia.
    destruct (replies m) as [|[junk|] rest] eqn:Hrep.
    + destruct (getNextBlock_refused b m Hwf ltac:(lia) Heq) as (m1 & Hnb & _); [by left|].
      rewrite Hnb in Hrun. inversion Hrun.
    + rewrite (getNextBlock_grow b m junk rest Hwf ltac:(lia) Heq Hrep) in Hrun.
      simpl in Hrun.
      destruct (Z.of_nat (length d) <=? _); [|by inversion Hrun].
      rewrite lookup_insert_eq in Hrun.
      destruct (bool_decide _); inversion Hrun; subst. clear Hrun.
      destruct Hown as (Hn0 & Hold & Hge' & Hfree).
      unfold owned_since. simpl. split_and!.
      * lia.
      * intros a Ha. rewrite !lookup_insert_ne by lia. by apply Hold.
      * intros a o [Hin|Hin]%elem_of_app; [by eapply Hge'|].
        apply list_elem_of_singleton in Hin. inversion Hin. lia.
      * intros a Ha [Hn1 Hn2]%not_elem_of_app.
        rewrite !lookup_insert_ne; [by apply Hfree | |];
          intros <-; apply Hn2; by apply list_elem_of_singleton.
    + destruct (getNextBlock_refused b m Hwf ltac:(lia) Heq) as (m1 & Hnb & _);
        [right; by exists rest|].
      rewrite Hnb in Hrun. inversion Hrun.
Qed.

Lemma produce_owned n0 h0 ds : ∀ b m vs b' m',
  wf b m → currentSize_ b + Z.of_nat (length ds) * blockSize_ b < U64 →
  owned_since n0 h0 b m →
  produce ds (b, m) = (Ok vs, (b', m')) → owned_since n0 h0 b' m'.
Proof.
  induction ds as [|d ds IH]; intros b m vs b' m' Hwf Hov Hown Hrun; simpl in Hrun.
  - by inversion Hrun; subst.
  - destruct (acquire_fill d (b, m)) as [[v| | |] [b1 m1]] eqn:Hstep; try by inversion Hrun.
    destruct (produce ds (b1, m1)) as [[vs1| | |] [b2 m2]] eqn:Hrest; try by inversion Hrun.
    inversion Hrun; subst vs b' m'. clear Hrun.
    pose proof Hwf as [Hbs Hcap Hc64 Hsz Hbl Hnd Hfr].
    simpl length in Hov.
    pose proof (acquire_fill_owned n0 h0 b m d v b1 m1 Hwf ltac:(nia) Hown Hstep) as Hown1.
    apply acquire_fill_inv in Hstep
      as (Hwf1 & Hbs1 & Hv & Hvfull & Hs1 & Hmod1 & Hc1 & _); [| done | nia].
    eapply IH; [exact Hwf1 | rewrite Hbs1; nia | exact Hown1 | exact Hrest].
Qed.

Lemma construct_owned m bs b m0 :
  pool_wf m → 0 < bs < U64 → construct m bs = (Ok tt, (b, m0)) →
  owned_since (next_base m) (heap m) b m0.
Proof.
  intros Hpw Hbs Hrun. unfold construct in Hrun.
  destruct (Z.eqb_spec bs 0); [lia|]. unfold reserve in Hrun.
  inversion Hrun as [Hloop].
  eapply reserve_loop_owned; [by apply wf_empty | | by apply owned_since_start | exact Hloop].
  left. simpl.
  assert (ceil_div bs bs = 1) as ->; [|lia].
  unfold ceil_div. symmetry. apply (Z.div_unique _ _ _ (bs - 1)); lia.
Qed.

(** ** Views and the bytes in use *)

Lemma take_prefix_app {A} (l l' : list A) (n n' : nat) :
  (n ≤ n')%nat → take n l `prefix_of` take n' (l ++ l').
Proof.
  intros Hn. destruct (decide (n ≤ length l)%nat) as [Hle|Hgt].
  - replace (take n l) with (take n (take n' (l ++ l'))); [apply prefix_take|].
    rewrite take_take, Nat.min_l by done. by rewrite take_app_le.
  - rewrite (take_ge l) by lia. rewrite take_app_ge by lia. by apply prefix_app_r.
Qed.

Lemma length_all_blocks b m :
  wf b m →
  Z.of_nat (length (concat (map (block_bytes (heap m)) (blocks_ b)))) = currentCapacity_ b.
Proof.
  intros Hwf. pose proof (wf_block_bytes b m Hwf) as Hu.
  assert (Hu' : Forall (λ x, Z.of_nat (length x) = blockSize_ b)
                       (map (block_bytes (heap m)) (blocks_ b))).
  { eapply Forall_impl; [exact Hu|]. simpl. intros. destruct Hwf. lia. }
  rewrite (length_concat_uniform _ _ Hu'), length_map. by destruct Hwf.
Qed.

Lemma contents_set_size b m n :
  wf b m → 0 <= n <= currentSize_ b →
  contents (set_size n b) (heap m) = take (Z.to_nat n) (contents b (heap m)).
Proof.
  intros Hwf Hn. unfold contents. simpl. rewrite take_take. f_equal. lia.
Qed.

Lemma set_size_set_size b n : set_size (currentSize_ b) (set_size n b) = b.
Proof. by destruct b. Qed.

Lemma resize_within b m n :
  0 <= n <= currentCapacity_ b → resize b m n = (Ok tt, (set_size n b, m)).
Proof.
  intros Hn. unfold resize, reserve. rewrite reserve_loop_enough by lia.
  destruct (Z.leb_spec n (currentCapacity_ b)); [done | lia].
Qed.

(** The bytes of the view of logical block [i]. *)
Lemma view_bytes b m i a bytes :
  wf b m → 0 <= i → i * blockSize_ b < currentSize_ b →
  blocks_ b !! Z.to_nat i = Some (Ptr a 0) → heap m !! a = Some bytes →
  let n := Z.min (currentSize_ b - i * blockSize_ b) (blockSize_ b) in
  take (Z.to_nat n) bytes =
  take (Z.to_nat n) (drop (Z.to_nat (i * blockSize_ b)) (contents b (heap m))).
Proof.
  intros Hwf Hi Hlt Hlk Hh n.
  pose proof Hwf as [Hbs Hcap Hc64 Hsz Hbl Hnd Hfr].
  pose proof (taken_step b m i a bytes Hwf Hi Hlt Hlk Hh) as Hstep.
  pose proof (length_all_blocks b m Hwf) as HlC.
  unfold taken in Hstep. fold n in Hstep. unfold contents.
  set (C := concat (map (block_bytes (heap m)) (blocks_ b))) in *.
  replace (Z.to_nat (Z.min ((i + 1) * blockSize_ b) (currentSize_ b)))
    with (Z.to_nat (i * blockSize_ b) + Z.to_nat n)%nat in Hstep by lia.
  replace (Z.to_nat (Z.min (i * blockSize_ b) (currentSize_ b)))
    with (Z.to_nat (i * blockSize_ b)) in Hstep by lia.
  rewrite <- take_take_drop in Hstep. apply app_inv_head in Hstep.
  rewrite <- Hstep, skipn_firstn_comm, take_take. f_equal. lia.
Qed.

(** ** What every step of a flush preserves *)

Lemma preserves_ret {A} (P : World → Prop) (a : A) : preserves P (mret a).
Proof. intros w o w' HP Hrun. by inversion Hrun; subst. Qed.

Lemma preserves_throw {A} (P : World → Prop) e : preserves P (@throw A e).
Proof. intros w o w' HP Hrun. by inversion Hrun; subst. Qed.

Lemma preserves_lift {A} (P : World → Prop) (r : outcome A) : preserves P (lift r).
Proof. intros w o w' HP Hrun. by inversion Hrun; subst. Qed.

Lemma preserves_getNaturalWriteSize (P : World → Prop) : preserves P getNaturalWriteSize.
Proof. intros w o w' HP Hrun. by inversion Hrun; subst. Qed.

Lemma preserves_bind_with {A B} (P : World → Prop) (R : A → Prop) (c : M A) (f : A → M B) :
  preserves P c → (∀ w a w', P w → c w = (Ok a, w') → R a) →
  (∀ a, R a → preserves P (f a)) → preserves P (c ≫= f).
Proof.
  intros Hc HR Hf w o w' HP Hrun. unfold mbind, M_bind in Hrun.
  destruct (c w) as [[a|e| |] w1] eqn:Hcw.
  - eapply (Hf a); [by eapply HR | by eapply Hc | exact Hrun].
  - inversion Hrun; subst. by eapply Hc.
  - inversion Hrun; subst. by eapply Hc.
  - inversion Hrun; subst. by eapply Hc.
Qed.

Lemma preserves_bind {A B} (P : World → Prop) (c : M A) (f : A → M B) :
  preserves P c → (∀ a, preserves P (f a)) → preserves P (c ≫= f).
Proof.
  intros Hc Hf. apply (preserves_bind_with P (λ _, True)); auto.
Qed.

Section flush_preserves.

Variable P : World → Prop.
Variable Q : ptr → Prop.
Hypothesis P_malloc : ∀ n, preserves P (malloc n).
Hypothesis Q_malloc : ∀ n w p w', P w → malloc n w = (Ok p, w') → Q p.
Hypothesis P_memcpy : ∀ chunk o src n, Q chunk → preserves P (do_memcpy (ptr_add chunk o) src n).
Hypothesis P_write : ∀ p n, preserves P (output_write p n).
Hypothesis P_free : ∀ chunk, Q chunk → preserves P (free chunk).
Hypothesis P_metrics : ∀ n, preserves P (add_IOCount n).

Lemma copy_block_preserves chunk chunkSize block :
  Q chunk → ∀ fuel blockOffset chunkOffset ioCount,
  preserves P (copy_block fuel chunk chunkSize block blockOffset chunkOffset ioCount).
Proof.
  intros HQ. induction fuel as [|fuel IH]; intros blockOffset chunkOffset ioCount; simpl.
  - apply preserves_lift.
  - destruct (blockOffset <? size block); [|apply preserves_ret].
    apply preserves_bind; [by apply P_memcpy|]. intros _.
    destruct (chunkSize <=? _); [|apply IH].
    apply preserves_bind; [apply P_write|]. intros _. apply IH.
Qed.

Lemma copy_blocks_preserves b chunk chunkSize :
  Q chunk → ∀ todo i chunkOffset ioCount,
  preserves P (copy_blocks todo b chunk chunkSize i chunkOffset ioCount).
Proof.
  intros HQ. induction todo as [|todo IH]; intros i chunkOffset ioCount;
    cbn [copy_blocks].
  - apply preserves_ret.
  - apply preserves_bind; [apply preserves_lift|]. intros block.
    apply preserves_bind; [by apply copy_block_preserves|]. intros r. apply IH.
Qed.

Lemma writeTo_preserves b : preserves P (writeTo b).
Proof.
  unfold writeTo. destruct (currentSize_ b =? 0); [apply preserves_ret|].
  apply preserves_bind; [apply preserves_getNaturalWriteSize|]. intros natural.
  destruct (Z.min natural MAX_CHUNK_SIZE =? 0); [apply preserves_throw|].
  apply preserves_bind; [|intros; apply P_metrics].
  destruct ((getBlockNumber b =? 1) && (currentSize_ b <=? Z.min natural MAX_CHUNK_SIZE)).
  - apply preserves_bind; [apply preserves_lift|]. intros block.
    apply preserves_bind; [apply P_write|]. intros _. apply preserves_ret.
  - apply (preserves_bind_with P Q); [apply P_malloc | apply Q_malloc |].
    intros chunk HQ.
    apply preserves_bind; [by apply copy_blocks_preserves|]. intros r.
    apply preserves_bind.
    + destruct (fst r =? 0); [apply preserves_ret|].
      apply preserves_bind; [apply P_write|]. intros _. apply preserves_ret.
    + intros ioCount. apply preserves_bind; [by apply P_free|]. intros _.
      apply preserves_ret.
Qed.

End flush_preserves.

(** A sink that never fails stays one. *)
Lemma writeTo_keeps_sink_sound b :
  preserves (λ w, accepts (sink w) = None) (writeTo b).
Proof.
  apply (writeTo_preserves _ (λ _, True)).
  - intros n w o w' HP Hrun. unfold malloc in Hrun.
    destruct (pool_malloc (pool w) n). by inversion Hrun; subst.
  - done.
  - intros chunk o src n _ w r w' HP Hrun. unfold do_memcpy in Hrun.
    destruct (memcpy _ _ _ _); by inversion Hrun; subst.
  - intros p n w r w' HP Hrun. unfold output_write in Hrun.
    destruct (load _ _ _); [|by inversion Hrun; subst].
    rewrite HP in Hrun. by inversion Hrun; subst.
  - intros chunk _ w r w' HP Hrun. unfold free in Hrun.
    destruct (pool_free _ _); by inversion Hrun; subst.
  - intros n w r w' HP Hrun. unfold add_IOCount in Hrun.
    destruct (metrics w); by inversion Hrun; subst.
Qed.

Lemma store_frame h p d h' :
  store h p d = Some h' →
  ∃ a o x, p = Ptr a o ∧ is_Some (h !! a) ∧ h' = <[a := x]> h.
Proof.
  unfold store. destruct p as [|a o]; [done|].
  destruct (h !! a) as [bytes|] eqn:Hh; [|done].
  destruct (bool_decide _); [|done]. intros [= <-].
  exists a, o. eexists. split_and!; [done | by rewrite Hh | done].
Qed.

Lemma writeTo_keeps_frame b n0 h0 ws0 :
  preserves (flush_frame n0 h0 ws0) (writeTo b).
Proof.
  apply (writeTo_preserves _ (scratch_ptr n0)).
  - intros n w o w' (Hn0 & Hold & Hpw & Hws) Hrun. unfold malloc, pool_malloc in Hrun.
    destruct (replies (pool w)) as [|[junk|] rest]; inversion Hrun; subst; clear Hrun;
      unfold flush_frame; simpl; [done | | done].
    split_and!; [lia | | | done].
    + intros a Ha. rewrite lookup_insert_ne by lia. by apply Hold.
    + intros a Ha. simpl in *. rewrite lookup_insert_ne by lia. apply Hpw. lia.
  - intros n w p w' (Hn0 & Hold & Hpw & Hws) Hrun. unfold malloc, pool_malloc in Hrun.
    destruct (replies (pool w)) as [|[junk|] rest]; inversion Hrun; subst; clear Hrun;
      intros a o Heq; inversion Heq; subst. split; [lia | done].
  - intros chunk o src n HQ w r w' (Hn0 & Hold & Hpw & Hws) Hrun.
    unfold do_memcpy, memcpy in Hrun.
    destruct (load _ _ _); [|by inversion Hrun; subst].
    destruct (store _ _ _) as [h'|] eqn:Hst; inversion Hrun; subst; clear Hrun; [|done].
    apply store_frame in Hst as (a & o' & x & Hp & [y Hlive] & ->).
    destruct chunk as [|c oc]; [done|]. simpl in Hp. inversion Hp; subst a.
    destruct (HQ c oc eq_refl) as [Hc _].
    unfold flush_frame. simpl. split_and!; try done.
    + intros a Ha. rewrite lookup_insert_ne by lia. by apply Hold.
    + intros a Ha. simpl in *. rewrite lookup_insert_ne; [by apply Hpw|].
      intros <-. rewrite Hpw in Hlive; done.
  - intros p n w r w' (Hn0 & Hold & Hpw & Hws) Hrun. unfold output_write in Hrun.
    destruct (load _ _ _); [|by inversion Hrun; subst].
    destruct (accepts (sink w)) as [[|k]|]; inversion Hrun; subst; clear Hrun;
      unfold flush_frame; simpl; split_and!; try done;
      by apply prefix_app_r.
  - intros chunk HQ w r w' (Hn0 & Hold & Hpw & Hws) Hrun. unfold free, pool_free in Hrun.
    destruct chunk as [|c oc]; [by inversion Hrun; subst|].
    destruct (HQ c oc eq_refl) as [Hc ->].
    destruct (heap (pool w) !! c); inversion Hrun; subst; clear Hrun; [|done].
    unfold flush_frame. simpl. split_and!; try done.
    + intros a Ha. rewrite lookup_delete_ne by lia. by apply Hold.
    + intros a Ha. simpl in *. apply lookup_delete_None. right. by apply Hpw.
  - intros n w r w' HP Hrun. unfold add_IOCount in Hrun.
    destruct (metrics w); by inversion Hrun; subst.
Qed.

Lemma wf_frame b m m' :
  wf b m → (∀ a, (a < next_base m)%nat → heap m' !! a = heap m !! a) →
  (next_base m ≤ next_base m')%nat → pool_wf m' → wf b m'.
Proof.
  intros [Hbs Hcap Hc64 Hsz Hbl Hnd Hfr] Hh Hn Hpw.
  constructor; try done.
  intros i p Hi. destruct (Hbl i p Hi) as (a & bytes & -> & Hlt & Hlk & Hlen).
  exists a, bytes. split_and!; [done | lia | by rewrite Hh | done].
Qed.

(** ** A producer that gives back what it did not use *)

Lemma acquire_fill_backup_inv b m d v b' m' :
  wf b m → currentSize_ b + blockSize_ b < U64 →
  acquire_fill_backup d (b, m) = (Ok v, (b', m')) →
  wf b' m' ∧ blockSize_ b' = blockSize_ b ∧
  Z.of_nat (length d) <= size v <= blockSize_ b ∧
  currentSize_ b' = currentSize_ b + Z.of_nat (length d) ∧
  contents b' (heap m') = contents b (heap m) ++ d.
Proof.
  intros Hwf Hov Hrun. pose proof Hwf as [Hbs Hcap Hc64 Hsz Hbl Hnd Hfr].
  unfold acquire_fill_backup in Hrun.
  destruct (acquire_fill d (b, m)) as [[v1| | |] [b1 m1]] eqn:Hstep; try by inversion Hrun.
  apply acquire_fill_inv in Hstep
    as (Hwf1 & Hbs1 & Hv & _ & Hs1 & _ & _ & slack & Hsl & Hcont1); [| done | done].
  pose proof Hwf1 as [_ _ _ Hsz1 _ _ _].
  assert (Ht : sub64 (currentSize_ b1) (sub64 (size v1) (Z.of_nat (length d)))
               = currentSize_ b + Z.of_nat (length d)).
  { rewrite (sub64_small (size v1)) by lia. rewrite sub64_small by lia. lia. }
  rewrite Ht in Hrun. rewrite resize_within in Hrun by lia.
  inversion Hrun; subst v1 b' m'. clear Hrun.
  split_and!; try done; try lia.
  - apply wf_set_size; [done | lia].
  - rewrite contents_set_size by (done || lia). rewrite Hcont1.
    pose proof (length_contents b m Hwf) as Hlc.
    rewrite app_assoc, take_app_length'; [done|]. rewrite length_app. lia.
Qed.

Lemma produce_backup_inv ds : ∀ b m vs b' m',
  wf b m → currentSize_ b + Z.of_nat (length ds) * blockSize_ b < U64 →
  produce_backup ds (b, m) = (Ok vs, (b', m')) →
  wf b' m' ∧ blockSize_ b' = blockSize_ b ∧
  Forall2 (λ d v, Z.of_nat (length d) <= size v) ds vs ∧
  currentSize_ b' = currentSize_ b + Z.of_nat (length (concat ds)) ∧
  contents b' (heap m') = contents b (heap m) ++ concat ds.
Proof.
  induction ds as [|d ds IH]; intros b m vs b' m' Hwf Hov Hrun; simpl in Hrun.
  - inversion Hrun; subst vs b' m'. simpl.
    split_and!; [done | done | constructor | lia | by rewrite app_nil_r].
  - destruct (acquire_fill_backup d (b, m)) as [[v| | |] [b1 m1]] eqn:Hstep;
      try by inversion Hrun.
    destruct (produce_backup ds (b1, m1)) as [[vs1| | |] [b2 m2]] eqn:Hrest;
      try by inversion Hrun.
    inversion Hrun; subst vs b' m'. clear Hrun.
    pose proof Hwf as [Hbs Hcap Hc64 Hsz Hbl Hnd Hfr].
    simpl length in Hov.
    apply acquire_fill_backup_inv in Hstep
      as (Hwf1 & Hbs1 & Hdv & Hs1 & Hcont1); [| done | nia].
    apply IH in Hrest as (Hwf2 & Hbs2 & Hall & Hs2 & Hcont2);
      [| done | rewrite Hbs1; nia].
    simpl. rewrite length_app.
    split_and!; try done; try lia.
    + constructor; [lia | done].
    + rewrite Hcont2, Hcont1. by rewrite <- app_assoc.
Qed.

(** ** Records of calls on the input stream *)

Lemma accounted_extend (R R' : gset (option nat)) (l k : list ZeroCopy.event) :
  accounted R l →
  (∀ bb, bb ∈ R → bb ∈ R' ∨ ZeroCopy.ReleaseBuffer bb ∈ k) →
  (∀ (i : nat) ml sk bb, k !! i = Some (ZeroCopy.Read ml sk bb) → bb ∈ R') →
  accounted R' (l ++ k).
Proof.
  intros Hacc HR Hk i ml sk bb Hi.
  apply lookup_app_Some in Hi as [Hi|[Hge Hi]].
  - destruct (Hacc i ml sk bb Hi) as [Hin|(j & Hj & Hrel)].
    + destruct (HR bb Hin) as [Hin'|Hrel]; [by left|]. right.
      apply list_elem_of_lookup in Hrel as [j Hj].
      exists (length l + j)%nat. split.
      * apply lookup_lt_Some in Hi. lia.
      * rewrite lookup_app_r by lia. by replace (length l + j - length l)%nat with j by lia.
    + right. exists j. split; [done|]. by apply lookup_app_l_Some.
  - left. by eapply Hk.
Qed.

Lemma accounted_step s c :
  accounted (ZeroCopy.readBuffers s) (ZeroCopy.calls s) →
  accounted (ZeroCopy.readBuffers (ZeroCopy.step s c)) (ZeroCopy.calls (ZeroCopy.step s c)).
Proof.
  intros Hacc. destruct c as [ml vc|buffer| |]; simpl.
  - unfold ZeroCopy.readBuffer. destruct (ZeroCopy.pending s) as [|[bb|] rest]; simpl.
    + apply (accounted_extend (ZeroCopy.readBuffers s)); [done | |].
      * intros bb Hbb. left. set_solver.
      * intros [|i] ml' sk bb Hi; [|done]. inversion Hi. set_solver.
    + apply (accounted_extend (ZeroCopy.readBuffers s)); [done | |].
      * intros bb' Hbb. left. set_solver.
      * intros [|i] ml' sk bb' Hi; [|done]. inversion Hi. set_solver.
    + done.
  - apply (accounted_extend (ZeroCopy.readBuffers s)); [done | by left |].
    intros [|i] ml' sk bb Hi; done.
  - apply (accounted_extend (ZeroCopy.readBuffers s)); [done | |].
    + intros bb Hbb. right. apply list_elem_of_fmap. exists bb. split; [done|].
      by apply elem_of_elements.
    + intros i ml' sk bb Hi. apply list_lookup_fmap_Some in Hi as (x & Hx & _). done.
  - rewrite <- app_assoc.
    apply (accounted_extend (ZeroCopy.readBuffers s)); [done | |].
    + intros bb Hbb. right. apply elem_of_app. left.
      apply list_elem_of_fmap. exists bb. split; [done|]. by apply elem_of_elements.
    + intros i ml' sk bb Hi. apply lookup_app_Some in Hi as [Hi|[_ Hi]].
      * apply list_lookup_fmap_Some in Hi as (x & Hx & _). done.
      * destruct (i - _)%nat; done.
Qed.

Lemma accounted_run cs : ∀ s,
  accounted (ZeroCopy.readBuffers s) (ZeroCopy.calls s) →
  accounted (ZeroCopy.readBuffers (ZeroCopy.run cs s)) (ZeroCopy.calls (ZeroCopy.run cs s)).
Proof.
  induction cs as [|c cs IH]; intros s Hacc; [done|].
  simpl. apply IH. by apply accounted_step.
Qed.

Lemma count_events_app f l k :
  count_events f (l ++ k) = (count_events f l + count_events f k)%nat.
Proof. induction l as [|e l IH]; simpl; [done | rewrite IH; lia]. Qed.

Lemma count_releases_NoDup bb (l : list (option nat)) :
  NoDup l →
  count_events (is_release_of bb) (map ZeroCopy.ReleaseBuffer l)
  = if decide (bb ∈ l) then 1%nat else 0%nat.
Proof.
  induction 1 as [|x l Hx Hnd IH]; simpl.
  - destruct (decide (bb ∈ [])) as [Hin|]; [by apply elem_of_nil in Hin | done].
  - rewrite IH. destruct (bool_decide_reflect (x = bb)) as [->|Hne].
    + destruct (decide (bb ∈ l)) as [Hin|Hnin]; [done|].
      destruct (decide (bb ∈ bb :: l)) as [_|Hn]; [done|]. destruct Hn. by left.
    + destruct (decide (bb ∈ l)) as [Hin|Hnin];
        destruct (decide (bb ∈ x :: l)) as [Hin'|Hnin']; try done.
      * destruct Hnin'. by right.
      * apply elem_of_cons in Hin' as [?|?]; congruence.
Qed.

Lemma count_reads_releases bb (l : list (option nat)) :
  count_events (is_read_of bb) (map ZeroCopy.ReleaseBuffer l) = 0%nat.
Proof. induction l; simpl; [done | by rewrite IHl]. Qed.

(** The releases of a buffer, with one more if it is still tracked, never
    exceed its reads. *)
Lemma releases_le_reads_step bb s c :
  not_deprecated c →
  (count_events (is_release_of bb) (ZeroCopy.calls s)
     + (if decide (bb ∈ ZeroCopy.readBuffers s) then 1 else 0)
   ≤ count_events (is_read_of bb) (ZeroCopy.calls s))%nat →
  (count_events (is_release_of bb) (ZeroCopy.calls (ZeroCopy.step s c))
     + (if decide (bb ∈ ZeroCopy.readBuffers (ZeroCopy.step s c)) then 1 else 0)
   ≤ count_events (is_read_of bb) (ZeroCopy.calls (ZeroCopy.step s c)))%nat.
Proof.
  intros Hc Hinv. destruct c as [ml vc|buffer| |]; simpl; [| done | |].
  - assert (Hread : ∀ x sk,
      (count_events (is_release_of bb) (ZeroCopy.calls s ++ [ZeroCopy.Read ml sk x])
         + (if decide (bb ∈ ({[x]} ∪ ZeroCopy.readBuffers s : gset (option nat))) then 1 else 0)
       ≤ count_events (is_read_of bb) (ZeroCopy.calls s ++ [ZeroCopy.Read ml sk x]))%nat).
    { intros x sk. rewrite !count_events_app. simpl.
      destruct (bool_decide_reflect (x = bb)) as [->|Hne].
      - destruct (decide (bb ∈ ZeroCopy.readBuffers s));
          destruct (decide (bb ∈ {[bb]} ∪ ZeroCopy.readBuffers s)); lia.
      - destruct (decide (bb ∈ ZeroCopy.readBuffers s)) as [Hin|Hnin].
        + destruct (decide (bb ∈ {[x]} ∪ ZeroCopy.readBuffers s)); lia.
        + destruct (decide (bb ∈ {[x]} ∪ ZeroCopy.readBuffers s)) as [Hin'|_]; [|lia].
          apply elem_of_union in Hin' as [Hin'|Hin']; [|done].
          apply elem_of_singleton in Hin'. congruence. }
    unfold ZeroCopy.readBuffer. destruct (ZeroCopy.pending s) as [|[x|] rest]; simpl.
    + apply Hread.
    + apply Hread.
    + done.
  - rewrite !count_events_app, count_reads_releases.
    rewrite count_releases_NoDup by apply NoDup_elements.
    destruct (decide (bb ∈ (∅ : gset (option nat)))) as [Hin0|_];
      [by apply elem_of_empty in Hin0|].
    destruct (decide (bb ∈ ZeroCopy.readBuffers s)) as [Hin|Hnin];
      destruct (decide (bb ∈ elements (ZeroCopy.readBuffers s))) as [Hin'|Hnin'];
      try lia.
    destruct Hnin. by apply elem_of_elements.
  - rewrite !count_events_app, count_reads_releases.
    rewrite count_releases_NoDup by apply NoDup_elements.
    simpl.
    destruct (decide (bb ∈ (∅ : gset (option nat)))) as [Hin0|_];
      [by apply elem_of_empty in Hin0|].
    destruct (decide (bb ∈ ZeroCopy.readBuffers s)) as [Hin|Hnin];
      destruct (decide (bb ∈ elements (ZeroCopy.readBuffers s))) as [Hin'|Hnin'];
      try lia.
    destruct Hnin. by apply elem_of_elements.
Qed.

Lemma releases_le_reads_run bb cs : ∀ s,
  Forall not_deprecated cs →
  (count_events (is_release_of bb) (ZeroCopy.calls s)
     + (if decide (bb ∈ ZeroCopy.readBuffers s) then 1 else 0)
   ≤ count_events (is_read_of bb) (ZeroCopy.calls s))%nat →
  (count_events (is_release_of bb) (ZeroCopy.calls (ZeroCopy.run cs s))
     + (if decide (bb ∈ ZeroCopy.readBuffers (ZeroCopy.run cs s)) then 1 else 0)
   ≤ count_events (is_read_of bb) (ZeroCopy.calls (ZeroCopy.run cs s)))%nat.
Proof.
  induction cs as [|c cs IH]; intros s Hcs Hinv; [done|].
  apply Forall_cons in Hcs as [Hc Hcs]. simpl. apply IH; [done|].
  by apply releases_le_reads_step.
Qed.

(** * Further properties of the code *)
(** X1. The constructor. With block size 0 it raises a logic error before
    any request to the pool. With a positive block size it always returns
    normally after one request for one block: when the pool grants it the
    buffer holds that block, with capacity [bs] and used size 0; when the
    pool returns null the failure is not reported, and the buffer starts
    with no block and capacity 0. In both cases the state is well formed. *)
Theorem construct_outcomes m bs :
  pool_wf m → 0 <= bs < U64 →
  (bs = 0 → construct m bs = (Throw LogicError, (mkBuffer [] 0 0 0, m))) ∧
  (0 < bs → ∀ junk rest, replies m = Some junk :: rest →
     let b := mkBuffer [Ptr (next_base m) 0] 0 bs bs in
     let m' := mkPool rest (S (next_base m))
                      (<[next_base m := fresh_bytes junk bs]> (heap m)) in
     construct m bs = (Ok tt, (b, m')) ∧ wf b m') ∧
  (0 < bs → refuses m →
     ∃ m', construct m bs = (Ok tt, (mkBuffer [] 0 0 bs, m')) ∧
           heap m' = heap m ∧ next_base m' = next_base m ∧ replies m' = tail (replies m) ∧
           wf (mkBuffer [] 0 0 bs) m').
Proof.
  intros Hpw Hbs. split_and!.
  - intros ->. reflexivity.
  - intros Hpos junk rest Hrep b m'.
    assert (Hrun : construct m bs = (Ok tt, (b, m'))).
    { unfold construct, reserve. destruct (Z.eqb_spec bs 0); [lia|].
      rewrite Hrep. simpl. destruct (Z.ltb_spec 0 bs); [|lia].
      rewrite reserve_loop_enough by (simpl; rewrite add64_small; lia).
      unfold push_block. simpl. by rewrite add64_small by lia. }
    split; [exact Hrun|].
    by destruct (construct_wf m bs b m' Hpw ltac:(lia) Hrun) as (Hwf & _).
  - intros Hpos Href.
    assert (Hrun : ∃ m', construct m bs = (Ok tt, (mkBuffer [] 0 0 bs, m')) ∧
              heap m' = heap m ∧ next_base m' = next_base m ∧
              replies m' = tail (replies m)).
    { unfold construct, reserve. destruct (Z.eqb_spec bs 0); [lia|].
      destruct Href as [Hrep|[rest Hrep]]; rewrite Hrep; simpl;
        (destruct (Z.ltb_spec 0 bs); [|lia]).
      - exists m. by rewrite Hrep.
      - eexists. split; [reflexivity|]. done. }
    destruct Hrun as (m' & Hrun & Hh & Hn & Hr). exists m'. split_and!; try done.
    by destruct (construct_wf m bs _ m' Hpw ltac:(lia) Hrun) as (Hwf & _).
Qed.

Lemma construct_outcomes_witness :
  construct (pool_of [zeroed]) 0 = (Throw LogicError, (mkBuffer [] 0 0 0, pool_of [zeroed])) ∧
  construct (pool_of [zeroed]) 64 =
    (Ok tt, (mkBuffer [Ptr 0 0] 0 64 64,
             mkPool [] 1 (<[0%nat := fresh_bytes (λ _, Byte.x00) 64]> ∅))) ∧
  ∃ m', construct (pool_of [None; zeroed]) 64 = (Ok tt, (mkBuffer [] 0 0 64, m')) ∧
        replies m' = [zeroed].
Proof.
  split; [|split].
  - apply (construct_outcomes (pool_of [zeroed]) 0); [apply pool_of_wf | done | done].
  - destruct (construct_outcomes (pool_of [zeroed]) 64) as (_ & Hok & _);
      [apply pool_of_wf | done |].
    destruct (Hok ltac:(done) (λ _, Byte.x00) [] eq_refl) as [Hrun _]. exact Hrun.
  - destruct (construct_outcomes (pool_of [None; zeroed]) 64) as (_ & _ & Hno);
      [apply pool_of_wf | done |].
    destruct Hno as (m' & Hrun & _ & _ & Hr & _); [done | right; by eexists |].
    exists m'. split; [exact Hrun | exact Hr].
Defined.

(** X2. The destructor. On a well-formed buffer it runs to its end without
    undefined behaviour: every block is released to the pool exactly once,
    as the start of a live allocation. Afterwards none of the buffer's
    blocks is allocated, every other allocation of the pool is untouched,
    and the buffer's block list, size and capacity are reset. *)
Theorem destructor_releases_blocks b m :
  wf b m →
  ∃ m', destructor b m = (Ok tt, (mkBuffer [] 0 0 (blockSize_ b), m')) ∧
        replies m' = replies m ∧ next_base m' = next_base m ∧
        (∀ a, Ptr a 0 ∈ blocks_ b → heap m' !! a = None) ∧
        (∀ a, Ptr a 0 ∉ blocks_ b → heap m' !! a = heap m !! a).
Proof.
  intros Hwf.
  destruct (free_blocks_spec (blocks_ b) m) as (h' & Hrun & Hin & Hout).
  - by destruct Hwf.
  - by apply (wf_blocks_live b m).
  - unfold destructor. rewrite Hrun. eexists. split; [reflexivity|]. done.
Qed.

Lemma destructor_releases_blocks_witness :
  wf (fst (snd sample_run)) (snd (snd sample_run)) ∧
  ∃ m', destructor (fst (snd sample_run)) (snd (snd sample_run))
          = (Ok tt, (mkBuffer [] 0 0 4, m')) ∧
        heap m' !! 0%nat = None ∧ heap m' !! 1%nat = None.
Proof.
  split; [exact sample_run_wf|].
  destruct (destructor_releases_blocks _ _ sample_run_wf) as (m' & Hrun & _ & _ & Hin & _).
  exists m'. split; [exact Hrun|].
  split; apply Hin; vm_compute; repeat constructor.
Defined.

(** X3. No leak over the life of a buffer. After construction on any pool,
    any successful run of the producer and a flush that completes, the
    destructor runs without undefined behaviour and leaves the pool with
    exactly the allocations it had before the buffer was constructed: every
    block the buffer ever obtained and the scratch chunk of the flush have
    been returned, and nothing else has been released. *)
Theorem lifecycle_returns_all_memory m bs ds vs b m' snk mt :
  pool_wf m → 0 < bs < U64 → Z.of_nat (length ds) * bs < U64 →
  construct_produce m bs ds = (Ok vs, (b, m')) →
  0 < naturalWriteSize snk → accepts snk = None →
  scratch_granted b (Z.min (naturalWriteSize snk) MAX_CHUNK_SIZE) m' →
  ∃ w' m'',
    writeTo b (mkWorld m' snk mt) = (Ok tt, w') ∧
    destructor b (pool w') = (Ok tt, (mkBuffer [] 0 0 bs, m'')) ∧
    heap m'' = heap m.
Proof.
  intros Hpw Hbs Hov Hrun Hnat Hacc Hgr.
  pose proof (construct_produce_inv m bs ds vs b m' Hpw Hbs Hov Hrun)
    as (Hwf & Hbsz & Hsz & Htot & _).
  assert (Hown : owned_since (next_base m) (heap m) b m').
  { unfold construct_produce in Hrun.
    destruct (construct m bs) as [[[]| | |] [b0 m0]] eqn:Hc; try by inversion Hrun.
    pose proof (construct_owned m bs b0 m0 Hpw Hbs Hc) as Hown0.
    destruct (construct_wf m bs b0 m0 Hpw Hbs Hc) as (Hwf0 & Hbs0 & Hs0 & _).
    apply (produce_owned _ _ ds b0 m0 vs b m');
      [exact Hwf0 | rewrite Hbs0, Hs0; lia | exact Hown0 | exact Hrun]. }
  set (w := mkWorld m' snk mt).
  assert (Hfl : ∃ w', writeTo b w = (Ok tt, w') ∧ heap (pool w') = heap m').
  { destruct (Z.eq_dec (currentSize_ b) 0) as [Hz|Hnz].
    - exists w. unfold writeTo. rewrite Hz. done.
    - destruct (writeTo_flushes b w) as (ws & w' & Hw & Hf); [done | lia | done..|].
      exists w'. split; [done|]. by destruct Hf. }
  destruct Hfl as (w' & Hw & Hh).
  destruct (free_blocks_spec (blocks_ b) (pool w')) as (h' & Hfree & Hin & Hout).
  - by destruct Hwf.
  - rewrite Hh. by apply (wf_blocks_live b m').
  - exists w'. eexists. split; [exact Hw|].
    unfold destructor. rewrite Hfree, Hbsz. split; [reflexivity|]. simpl.
    destruct Hown as (Hn0 & Hold & Hge & Hnone).
    apply map_eq. intros a.
    destruct (decide (Ptr a 0 ∈ blocks_ b)) as [Hi|Hni].
    + rewrite Hin by done. symmetry. apply Hpw. by eapply Hge.
    + rewrite Hout, Hh by done.
      destruct (decide (a < next_base m)%nat); [by apply Hold|].
      rewrite Hnone by (done || lia). symmetry. apply Hpw. lia.
Qed.

Lemma lifecycle_returns_all_memory_witness :
  ∃ w' m'',
    writeTo (fst (snd sample_run))
            (mkWorld (snd (snd sample_run)) (mkSink 3 [] None) None) = (Ok tt, w') ∧
    destructor (fst (snd sample_run)) (pool w') = (Ok tt, (mkBuffer [] 0 0 4, m'')) ∧
    heap m'' = ∅.
Proof.
  apply (lifecycle_returns_all_memory (pool_of [zeroed; zeroed; zeroed]) 4 sample_data
           (value_of [] (fst sample_run)) (fst (snd sample_run)) (snd (snd sample_run))
           (mkSink 3 [] None) None).
  - apply pool_of_wf.
  - done.
  - done.
  - reflexivity.
  - done.
  - done.
  - right. right. eexists _, _. reflexivity.
Defined.

(** X4. Random access by logical block. On a well-formed buffer, [getBlock]
    raises an out-of-range error for every index at or beyond the number of
    logical blocks, and for every index [i] below it returns a view of the
    [i]-th physical block whose bytes are the bytes of the used prefix from
    logical offset [i * blockSize] on: the view has [blockSize] bytes for
    every block but the last, and the last one ends where the used size
    ends. *)
Theorem getBlock_view b m i :
  wf b m → 0 <= i →
  (getBlockNumber b <= i → getBlock b i = Throw OutOfRange) ∧
  (i < getBlockNumber b →
     ∃ a, let n := Z.min (currentSize_ b - i * blockSize_ b) (blockSize_ b) in
       getBlock b i = Ok (mkBlock (Ptr a 0) n) ∧
       blocks_ b !! Z.to_nat i = Some (Ptr a 0) ∧
       0 < n ∧
       (i + 1 < getBlockNumber b → n = blockSize_ b) ∧
       (i + 1 = getBlockNumber b → i * blockSize_ b + n = currentSize_ b) ∧
       load (heap m) (Ptr a 0) n =
         Some (take (Z.to_nat n)
                 (drop (Z.to_nat (i * blockSize_ b)) (contents b (heap m))))).
Proof.
  intros Hwf Hi. pose proof Hwf as [Hbs Hcap Hc64 Hsz Hbl Hnd Hfr].
  destruct (getBlockNumber_spec b) as (Hn0 & Hiff & Hup); [lia..|].
  split.
  - intros Hge. unfold getBlock. by destruct (Z.leb_spec (getBlockNumber b) i); [|lia].
  - intros Hlt. pose proof (proj1 (Hiff i Hi) Hlt) as Hlt'.
    destruct (getBlock_wf b m i Hwf Hi Hlt') as (a & bytes & Hget & Hlk & Ha & Hh & Hlen).
    exists a. intros n. split_and!; try done.
    + subst n. lia.
    + intros Hnext. pose proof (proj1 (Hiff (i + 1) ltac:(lia)) Hnext). subst n. lia.
    + intros Hlast.
      assert (¬ (i + 1) * blockSize_ b < currentSize_ b).
      { intros Hc. pose proof (proj2 (Hiff (i + 1) ltac:(lia)) Hc). lia. }
      subst n. lia.
    + rewrite (load_live _ _ _ _ bytes) by (done || lia).
      rewrite drop_0. f_equal. by apply (view_bytes b m i a bytes).
Qed.

Lemma getBlock_view_witness :
  getBlock (fst (snd sample_run)) 2 = Throw OutOfRange ∧
  ∃ a, getBlock (fst (snd sample_run)) 1 = Ok (mkBlock (Ptr a 0) 4) ∧
       load (heap (snd (snd sample_run))) (Ptr a 0) 4
         = Some [Byte.x05; Byte.x06; Byte.x07; Byte.x08].
Proof.
  split.
  - apply (getBlock_view _ _ 2 sample_run_wf); [lia | vm_compute; discriminate].
  - destruct (getBlock_view _ _ 1 sample_run_wf) as (_ & Hin); [lia|].
    destruct Hin as (a & Hget & _ & _ & _ & _ & Hload); [reflexivity|].
    exists a. split; [exact Hget | exact Hload].
Defined.

(** X5. Shrinking and growing back within the capacity. On a well-formed
    buffer, [resize] to any size up to the used size succeeds without a
    request to the pool and keeps every block and the capacity: nothing is
    released and no byte is cleared, the bytes in use become the first [n]
    bytes of what was in use, and a [resize] back to the old size restores
    the buffer and its contents exactly. *)
Theorem resize_shrink_regrow b m n :
  wf b m → 0 <= n <= currentSize_ b →
  resize b m n = (Ok tt, (set_size n b, m)) ∧
  contents (set_size n b) (heap m) = take (Z.to_nat n) (contents b (heap m)) ∧
  resize (set_size n b) m (currentSize_ b) = (Ok tt, (b, m)).
Proof.
  intros Hwf Hn. pose proof Hwf as [Hbs Hcap Hc64 Hsz Hbl Hnd Hfr].
  split_and!.
  - apply resize_within. lia.
  - by apply contents_set_size.
  - rewrite resize_within by (simpl; lia). by rewrite set_size_set_size.
Qed.

Lemma resize_shrink_regrow_witness :
  resize (fst (snd sample_run)) (snd (snd sample_run)) 3
    = (Ok tt, (set_size 3 (fst (snd sample_run)), snd (snd sample_run))) ∧
  contents (set_size 3 (fst (snd sample_run))) (heap (snd (snd sample_run)))
    = [Byte.x01; Byte.x02; Byte.x03] ∧
  resize (set_size 3 (fst (snd sample_run))) (snd (snd sample_run)) 8
    = (Ok tt, snd sample_run).
Proof.
  destruct (resize_shrink_regrow _ _ 3 sample_run_wf) as (H1 & H2 & H3);
    [vm_compute; split; discriminate|].
  split; [exact H1|]. split; [rewrite H2; reflexivity | exact H3].
Defined.

(** X6. Acquisitions never move or change what the buffer holds. Whatever
    [getNextBlock] returns on a well-formed buffer, the blocks the buffer
    had are still its first blocks, every allocation that existed is
    byte for byte as it was, capacity and used size have not decreased, and
    the bytes that were in use are a prefix of the bytes now in use; so the
    views handed out before stay valid. When the call raises, the buffer
    itself is unchanged. *)
Theorem getNextBlock_keeps_data b m o b' m' :
  wf b m → currentCapacity_ b + blockSize_ b < U64 →
  getNextBlock b m = (o, (b', m')) →
  blocks_ b `prefix_of` blocks_ b' ∧
  currentSize_ b <= currentSize_ b' ∧
  currentCapacity_ b <= currentCapacity_ b' ∧
  (∀ a, (a < next_base m)%nat → heap m' !! a = heap m !! a) ∧
  contents b (heap m) `prefix_of` contents b' (heap m') ∧
  (∀ e, o = Throw e → b' = b).
Proof.
  intros Hwf Hov Hrun. pose proof Hwf as [Hbs Hcap Hc64 Hsz Hbl Hnd Hfr].
  destruct (Z.lt_ge_cases (currentSize_ b) (currentCapacity_ b)) as [Hlt|Hge].
  - destruct (getNextBlock_spare b m Hwf Hlt) as (a & bytes & _ & _ & _ & Heq).
    rewrite Heq in Hrun. inversion Hrun; subst. simpl.
    destruct (div_bounds (currentSize_ b) (blockSize_ b)) as (? & ? & _); [lia..|].
    split_and!; try done; try lia.
    unfold contents. simpl.
    rewrite <- (app_nil_r (concat (map (block_bytes (heap m')) (blocks_ b)))) at 2.
    apply take_prefix_app. lia.
  - assert (Heq : currentSize_ b = currentCapacity_ b) by lia.
    destruct (replies m) as [|[junk|] rest] eqn:Hrep.
    + destruct (getNextBlock_refused b m Hwf Hov Heq) as (m1 & Hnb & Hh & Hn); [by left|].
      rewrite Hnb in Hrun. inversion Hrun; subst. rewrite Hh.
      split_and!; try done; lia.
    + rewrite (getNextBlock_grow b m junk rest Hwf Hov Heq Hrep) in Hrun.
      inversion Hrun; subst. simpl.
      split_and!; try done; try lia.
      * by apply prefix_app_r.
      * intros a Ha. apply lookup_insert_ne. lia.
      * rewrite <- (contents_frame b m (<[next_base m := fresh_bytes junk (blockSize_ b)]> (heap m)) Hwf)
          by (intros a Ha; apply lookup_insert_ne; lia).
        unfold contents. simpl. rewrite map_app, concat_app.
        apply take_prefix_app. lia.
    + destruct (getNextBlock_refused b m Hwf Hov Heq) as (m1 & Hnb & Hh & Hn);
        [right; by exists rest|].
      rewrite Hnb in Hrun. inversion Hrun; subst. rewrite Hh.
      split_and!; try done; lia.
Qed.

Lemma getNextBlock_keeps_data_witness :
  let s := snd sample_run in
  let r := getNextBlock (fst s) (snd s) in
  fst r = Ok (mkBlock (Ptr 2 0) 4) ∧
  blocks_ (fst s) `prefix_of` blocks_ (fst (snd r)) ∧
  contents (fst s) (heap (snd s)) `prefix_of` contents (fst (snd r)) (heap (snd (snd r))).
Proof.
  intros s r.
  destruct (getNextBlock_keeps_data (fst s) (snd s) (fst r) (fst (snd r)) (snd (snd r)))
    as (Hb & _ & _ & _ & Hc & _).
  - exact sample_run_wf.
  - reflexivity.
  - reflexivity.
  - split; [reflexivity|]. split; [exact Hb | exact Hc].
Defined.

(** X7. What a flush that completes does to the pool. On the single-write
    path the flush makes no request to the pool at all: the block is handed
    to the sink in place. On the general path it makes exactly one request,
    for the scratch chunk, and releases that chunk before it returns. In
    both cases the pool holds the same allocations with the same bytes as
    before and the buffer is still well formed. *)
Theorem writeTo_pool_effect b w :
  wf b (pool w) → 0 < currentSize_ b →
  0 < naturalWriteSize (sink w) → accepts (sink w) = None →
  scratch_granted b (Z.min (naturalWriteSize (sink w)) MAX_CHUNK_SIZE) (pool w) →
  ∃ w', writeTo b w = (Ok tt, w') ∧
        heap (pool w') = heap (pool w) ∧ wf b (pool w') ∧
        (fast_path b (Z.min (naturalWriteSize (sink w)) MAX_CHUNK_SIZE) = true →
           pool w' = pool w) ∧
        (fast_path b (Z.min (naturalWriteSize (sink w)) MAX_CHUNK_SIZE) = false →
           ∃ junk, replies (pool w) = Some junk :: replies (pool w') ∧
                   next_base (pool w') = S (next_base (pool w))).
Proof.
  intros Hwf Hs Hnat Hacc [Hz|Hgr]; [lia|].
  destruct (fast_path b _) eqn:Hfast.
  - destruct (writeTo_fast b w Hwf Hs Hnat Hacc Hfast) as (ws & w' & Hrun & Hfl & Hp).
    exists w'. rewrite Hp. split_and!; done.
  - destruct Hgr as [Hc|(junk & rest & Hrep)]; [done|].
    destruct (writeTo_general b w junk rest Hwf Hs Hnat Hacc Hfast Hrep)
      as (ws & w' & Hrun & Hfl & Hr & Hn).
    pose proof (fl_heap _ _ _ _ _ Hfl) as Hh.
    exists w'. split_and!; try done.
    + apply (wf_frame b (pool w)); [done | by rewrite Hh | lia |].
      intros a Ha. rewrite Hh. apply (wf_fresh _ _ Hwf). lia.
    + intros _. exists junk. by rewrite Hr.
Qed.

Lemma writeTo_pool_effect_witness :
  ∃ w', scenarioB = (Ok tt, w') ∧
        heap (pool w') = heap (pool scenarioB_world) ∧
        replies (pool w') = [] ∧ next_base (pool w') = 4%nat.
Proof.
  destruct (writeTo_pool_effect (fst scenarioB_state) scenarioB_world)
    as (w' & Hrun & Hh & _ & _ & Hgen).
  - exact scenarioB_wf.
  - done.
  - done.
  - done.
  - right. right. eexists _, _. reflexivity.
  - destruct Hgen as (junk & Hr & Hn); [reflexivity|].
    exists w'. split_and!; [exact Hrun | exact Hh | | exact Hn].
    vm_compute in Hr. by inversion Hr.
Defined.

(** X8. A flush does not consume the buffer. After a flush that completes,
    the buffer is as it was, so a second flush delivers the same bytes
    again: with a sink that never fails and a pool that grants the scratch
    chunk both times, the sink has received the bytes in use twice. Callers
    that want to reuse the buffer have to reset its size themselves. *)
Theorem writeTo_twice b w :
  wf b (pool w) → 0 < currentSize_ b →
  0 < naturalWriteSize (sink w) → accepts (sink w) = None →
  (fast_path b (Z.min (naturalWriteSize (sink w)) MAX_CHUNK_SIZE) = true ∨
   ∃ j1 j2 rest, replies (pool w) = Some j1 :: Some j2 :: rest) →
  ∃ w1 w2,
    writeTo b w = (Ok tt, w1) ∧ writeTo b w1 = (Ok tt, w2) ∧
    concat (written (sink w2)) =
      concat (written (sink w)) ++ contents b (heap (pool w)) ++ contents b (heap (pool w)).
Proof.
  intros Hwf Hs Hnat Hacc Hgr.
  set (n := Z.min (naturalWriteSize (sink w)) MAX_CHUNK_SIZE) in *.
  assert (Hfirst : ∃ ws w1, writeTo b w = (Ok tt, w1) ∧ flushed b n w w1 ws ∧
            wf b (pool w1) ∧
            (fast_path b n = true ∨ ∃ j2 rest, replies (pool w1) = Some j2 :: rest)).
  { destruct Hgr as [Hfast|(j1 & j2 & rest & Hrep)].
    - destruct (writeTo_fast b w Hwf Hs Hnat Hacc Hfast) as (ws & w1 & Hrun & Hfl & Hp).
      exists ws, w1. rewrite Hp. split_and!; try done. by left.
    - destruct (fast_path b n) eqn:Hfast.
      + destruct (writeTo_fast b w Hwf Hs Hnat Hacc Hfast) as (ws & w1 & Hrun & Hfl & Hp).
        exists ws, w1. rewrite Hp. split_and!; try done. by left.
      + destruct (writeTo_general b w j1 (Some j2 :: rest) Hwf Hs Hnat Hacc Hfast Hrep)
          as (ws & w1 & Hrun & Hfl & Hr & Hn).
        pose proof (fl_heap _ _ _ _ _ Hfl) as Hh.
        exists ws, w1. split_and!; try done.
        * apply (wf_frame b (pool w)); [done | by rewrite Hh | lia |].
          intros a Ha. rewrite Hh. apply (wf_fresh _ _ Hwf). lia.
        * right. by exists j2, rest. }
  destruct Hfirst as (ws1 & w1 & Hrun1 & Hfl1 & Hwf1 & Hgr1).
  pose proof (writeTo_keeps_sink_sound b w (Ok tt) w1 Hacc Hrun1) as Hacc1.
  destruct Hfl1 as [Hw1 Hb1 _ _ Hh1 Hnat1].
  destruct (writeTo_flushes b w1) as (ws2 & w2 & Hrun2 & Hfl2); [done | done | lia | done | |].
  { rewrite Hnat1. fold n. right. destruct Hgr1 as [?|(j2 & rest & ?)]; [by left|].
    right. by exists j2, rest. }
  destruct Hfl2 as [Hw2 Hb2 _ _ _ _].
  exists w1, w2. split_and!; [done | done |].
  rewrite Hw2, Hw1, !concat_app, Hb1, Hb2, Hh1. by rewrite <- app_assoc.
Qed.

Lemma writeTo_twice_witness :
  let b := fst (snd sample_run) in
  let m := snd (snd sample_run) in
  let w := mkWorld (mkPool [zeroed; zeroed] (next_base m) (heap m)) (mkSink 3 [] None) None in
  ∃ w1 w2,
    writeTo b w = (Ok tt, w1) ∧ writeTo b w1 = (Ok tt, w2) ∧
    concat (written (sink w2)) =
      [Byte.x01; Byte.x02; Byte.x03; Byte.x04; Byte.x05; Byte.x06; Byte.x07; Byte.x08;
       Byte.x01; Byte.x02; Byte.x03; Byte.x04; Byte.x05; Byte.x06; Byte.x07; Byte.x08].
Proof.
  intros b m w.
  destruct (writeTo_twice b w) as (w1 & w2 & H1 & H2 & Hc).
  - apply wf_replies. exact sample_run_wf.
  - done.
  - done.
  - done.
  - right. eexists _, _, _. reflexivity.
  - exists w1, w2. split; [exact H1|]. split; [exact H2 | exact Hc].
Defined.

(** X9. An I/O error on the single-write path. When the buffer holds one
    logical block that fits the sink's chunk size and the sink's write
    raises, [writeTo] ends with that error and the world exactly as it was:
    nothing has been requested from the pool, so nothing can leak, and the
    metrics counter is not updated. *)
Theorem writeTo_single_write_error b w :
  wf b (pool w) → 0 < currentSize_ b → 0 < naturalWriteSize (sink w) →
  fast_path b (Z.min (naturalWriteSize (sink w)) MAX_CHUNK_SIZE) = true →
  accepts (sink w) = Some O →
  writeTo b w = (Throw IOError, w).
Proof.
  intros Hwf Hs Hnat Hfast Hacc. pose proof Hwf as [Hbs Hcap Hc64 Hsz Hbl Hnd Hfr].
  set (n := Z.min (naturalWriteSize (sink w)) MAX_CHUNK_SIZE) in *.
  assert (Hn : 0 < n) by (subst n; unfold MAX_CHUNK_SIZE; lia).
  unfold fast_path in Hfast. apply andb_true_iff in Hfast as [HN1 Hfit].
  apply Z.eqb_eq in HN1. apply Z.leb_le in Hfit.
  destruct (getBlockNumber_spec b) as (_ & HN & HNle); [lia..|].
  assert (Hsb : currentSize_ b <= blockSize_ b) by lia.
  destruct (getBlock_wf b (pool w) 0 Hwf) as (a & bytes & Hgb & Hlk & _ & Hh & Hlen); [lia..|].
  rewrite Z.mul_0_l, Z.sub_0_r, Z.min_l in Hgb by lia.
  unfold writeTo. destruct (Z.eqb_spec (currentSize_ b) 0); [lia|].
  erewrite bind_ok; [|reflexivity]. fold n.
  destruct (Z.eqb_spec n 0); [lia|].
  rewrite HN1, Z.eqb_refl. simpl.
  destruct (Z.leb_spec (currentSize_ b) n); [|lia].
  erewrite bind_throw; [reflexivity|].
  erewrite bind_ok; [|by unfold lift; rewrite Hgb].
  erewrite bind_throw; [reflexivity|].
  simpl. apply (output_write_refused w a 0 (currentSize_ b) bytes); auto; lia.
Qed.

Lemma writeTo_single_write_error_witness :
  let w := mkWorld (snd sample_state) (mkSink 1024 [] (Some O)) (Some 0) in
  wf (fst sample_state) (pool w) ∧ writeTo (fst sample_state) w = (Throw IOError, w).
Proof.
  intros w. split; [exact sample_state_wf|].
  apply (writeTo_single_write_error (fst sample_state) w);
    [exact sample_state_wf | done | done | reflexivity | reflexivity].
Defined.

(** X10. A flush only reads the buffer, whatever its outcome. However
    [writeTo] ends (normally, with a logic error, with an I/O error of the
    sink), every allocation that existed when it started is still there
    with the same bytes, the buffer is still well formed with the same bytes
    in use, and the sink's record has only been extended. *)
Theorem writeTo_reads_only b w o w' :
  wf b (pool w) → writeTo b w = (o, w') →
  wf b (pool w') ∧
  contents b (heap (pool w')) = contents b (heap (pool w)) ∧
  (∀ a, (a < next_base (pool w))%nat → heap (pool w') !! a = heap (pool w) !! a) ∧
  written (sink w) `prefix_of` written (sink w').
Proof.
  intros Hwf Hrun.
  destruct (writeTo_keeps_frame b (next_base (pool w)) (heap (pool w)) (written (sink w))
              w o w') as (Hn & Hold & Hpw & Hws); [|done|].
  { split_and!; [done | done | exact (wf_fresh _ _ Hwf) | done]. }
  split_and!; try done.
  - by apply (wf_frame b (pool w)).
  - by apply contents_frame.
Qed.

Lemma writeTo_reads_only_witness :
  let b := fst (snd sample_run) in
  let w := mkWorld (snd (snd sample_run)) (mkSink 3 [] (Some 1%nat)) None in
  fst (writeTo b w) = Throw IOError ∧
  wf b (pool (snd (writeTo b w))) ∧
  contents b (heap (pool (snd (writeTo b w)))) = contents b (heap (pool w)).
Proof.
  intros b w. split; [reflexivity|].
  destruct (writeTo_reads_only b w (fst (writeTo b w)) (snd (writeTo b w)))
    as (Hwf & Hc & _); [exact sample_run_wf | reflexivity |].
  split; [exact Hwf | exact Hc].
Defined.

(** X11. Giving back the unused tail of a region. A producer that acquires
    a region with [getNextBlock], stores some bytes at its start and then
    calls [resize(size() - unused)] for the rest of the region leaves the
    used size at the end of what it stored, and the next acquisition starts
    right there. So after construction and any successful run of such a
    producer, the bytes in use are exactly the bytes stored, in order and
    with no slack between them, and a flush that completes delivers exactly
    those bytes to the sink. *)
Theorem backup_roundtrip m bs ds vs b0 m0 b m' snk mt :
  pool_wf m → 0 < bs < U64 → Z.of_nat (length ds) * bs < U64 →
  construct m bs = (Ok tt, (b0, m0)) →
  produce_backup ds (b0, m0) = (Ok vs, (b, m')) →
  0 < naturalWriteSize snk → accepts snk = None →
  scratch_granted b (Z.min (naturalWriteSize snk) MAX_CHUNK_SIZE) m' →
  currentSize_ b = Z.of_nat (length (concat ds)) ∧
  contents b (heap m') = concat ds ∧
  ∃ w', writeTo b (mkWorld m' snk mt) = (Ok tt, w') ∧
        concat (written (sink w')) = concat (written snk) ++ concat ds.
Proof.
  intros Hpw Hbs Hov Hc Hrun Hnat Hacc Hgr.
  destruct (construct_wf m bs b0 m0 Hpw Hbs Hc) as (Hwf0 & Hbs0 & Hs0 & _).
  destruct (produce_backup_inv ds b0 m0 vs b m' Hwf0) as (Hwf & Hbsz & _ & Hsz & Hcont);
    [rewrite Hbs0, Hs0; lia | done |].
  assert (Hc0 : contents b0 (heap m0) = []).
  { unfold contents. by rewrite Hs0. }
  rewrite Hc0 in Hcont. rewrite Hs0 in Hsz. simpl in Hcont, Hsz.
  split; [done|]. split; [done|].
  set (w := mkWorld m' snk mt).
  destruct (Z.eq_dec (currentSize_ b) 0) as [Hz|Hnz].
  - exists w. split; [unfold writeTo; by rewrite Hz|].
    assert (Hnil : concat ds = []) by (apply length_zero_iff_nil; lia).
    simpl. by rewrite Hnil, app_nil_r.
  - destruct (writeTo_flushes b w) as (ws & w' & Hw & Hf); [done | lia | done..|].
    exists w'. split; [done|]. destruct Hf as [Hwr Hby _ _ _ _].
    rewrite Hwr, concat_app, Hby. simpl. by rewrite Hcont.
Qed.

Lemma backup_roundtrip_witness :
  let m := pool_of [zeroed; zeroed; zeroed] in
  let ds := [[Byte.x01; Byte.x02; Byte.x03]; [Byte.x04]; [Byte.x05; Byte.x06]] in
  let s := snd (produce_backup ds (snd (construct m 4))) in
  fst (produce_backup ds (snd (construct m 4)))
    = Ok [mkBlock (Ptr 0 0) 4; mkBlock (Ptr 0 3) 1; mkBlock (Ptr 1 0) 4] ∧
  currentSize_ (fst s) = 6 ∧
  ∃ w', writeTo (fst s) (mkWorld (snd s) (mkSink 4 [] None) None) = (Ok tt, w') ∧
        concat (written (sink w')) =
          [Byte.x01; Byte.x02; Byte.x03; Byte.x04; Byte.x05; Byte.x06].
Proof.
  intros m ds s. split; [reflexivity|].
  destruct (backup_roundtrip m 4 ds
              [mkBlock (Ptr 0 0) 4; mkBlock (Ptr 0 3) 1; mkBlock (Ptr 1 0) 4]
              (fst (snd (construct m 4))) (snd (snd (construct m 4)))
              (fst s) (snd s) (mkSink 4 [] None) None) as (Hs & _ & Hw).
  - apply pool_of_wf.
  - done.
  - done.
  - reflexivity.
  - reflexivity.
  - done.
  - done.
  - right. right. eexists _, _. reflexivity.
  - split; [exact Hs | exact Hw].
Defined.

(** X12. Closing the adapter returns every buffer. Whatever calls were made
    on an adapter since [getZeroCopyReader] created it, after [close] the
    adapter tracks no buffer, every buffer a read of the stream returned has
    been released to the stream by a later call, and the stream's [close]
    is the last call made on it. *)
Theorem close_releases_every_buffer cs reads :
  let s := ZeroCopy.close (ZeroCopy.run cs (ZeroCopy.getZeroCopyReader reads)) in
  ZeroCopy.readBuffers s = ∅ ∧
  (∀ (i : nat) ml sk bb, ZeroCopy.calls s !! i = Some (ZeroCopy.Read ml sk bb) →
     ∃ j : nat, (i < j)%nat ∧ ZeroCopy.calls s !! j = Some (ZeroCopy.ReleaseBuffer bb)) ∧
  last (ZeroCopy.calls s) = Some ZeroCopy.Close.
Proof.
  intros s. split_and!.
  - done.
  - intros i ml sk bb Hi.
    assert (Hacc : accounted (ZeroCopy.readBuffers s) (ZeroCopy.calls s)).
    { apply (accounted_step _ ZeroCopy.CallClose), accounted_run.
      intros j ? ? ? Hj. done. }
    destruct (Hacc i ml sk bb Hi) as [Hin|Hrel]; [|done].
    by apply elem_of_empty in Hin.
  - subst s. simpl. apply last_snoc.
Qed.

(** X13. No buffer is released twice by the adapter itself. In any sequence
    of calls that does not use the deprecated [releaseBuffer], the adapter
    never releases a buffer to the stream more often than the stream's reads
    returned it: [releaseAllBuffers] and [close] release each tracked buffer
    once and forget it, so calling them again releases nothing again. *)
Theorem releases_never_exceed_reads cs reads bb :
  Forall not_deprecated cs →
  let s := ZeroCopy.run cs (ZeroCopy.getZeroCopyReader reads) in
  (count_events (is_release_of bb) (ZeroCopy.calls s)
   ≤ count_events (is_read_of bb) (ZeroCopy.calls s))%nat.
Proof.
  intros Hcs s.
  pose proof (releases_le_reads_run bb cs (ZeroCopy.getZeroCopyReader reads) Hcs) as H.
  simpl in H. fold s in H.
  destruct (decide (bb ∈ (∅ : gset (option nat)))) as [Hin0|_];
    [by apply elem_of_empty in Hin0|].
  specialize (H ltac:(lia)).
  destruct (decide (bb ∈ ZeroCopy.readBuffers s)); lia.
Qed.

Lemma releases_never_exceed_reads_witness :
  let cs := [ZeroCopy.CallReadBuffer 16 true; ZeroCopy.CallReleaseAllBuffers;
             ZeroCopy.CallReleaseAllBuffers; ZeroCopy.CallClose; ZeroCopy.CallClose] in
  let s := ZeroCopy.run cs (ZeroCopy.getZeroCopyReader [ZeroCopy.Returns (Some 7%nat)]) in
  Forall not_deprecated cs ∧
  (count_events (is_release_of (Some 7%nat)) (ZeroCopy.calls s)
   ≤ count_events (is_read_of (Some 7%nat)) (ZeroCopy.calls s))%nat.
Proof.
  intros cs s. split; [repeat constructor|].
  apply (releases_never_exceed_reads cs [ZeroCopy.Returns (Some 7%nat)] (Some 7%nat)).
  repeat constructor.
Defined.
